(** * Ride matching: [findMatches] and its geometric helpers

  A shallow embedding of the matching module that ends [src/Map.tsx]
  (lines 580-688): [haversineDistance], [minDistanceToRoute],
  [isCorrectDirection], [estimateDetourDistance],
  [detourDistanceToMinutes] and [findMatches].

  Modelling choices.
  - A TypeScript [number] is a value of [number] below: a real, or one of
    the three special values [NaN], [Infinity], [-Infinity].  The special
    values follow IEEE 754 / ECMA-262; finite arithmetic is exact (no
    rounding, no overflow, a single unsigned zero).  What is proved of
    comparisons, filters and order does not rest on that idealisation;
    what rests on the exact value of a distance does.
  - A [Date] is its time value: an integer count of milliseconds, or
    none for an Invalid Date, whose [getTime()] is [NaN].
  - Array indices are integers ([Z]), [-1] being the sentinel the source
    passes to [reduce].
  - Reading a property of [undefined] throws; the model makes that
    visible with the [outcome] type.

  Around the matcher: the Directions helpers of the map component
  ([fetchRouteGeometry], [fetchRouteDurationMinutes], lines 99-141), the
  network being a function from the request to its answer and the JSON
  body a [value]; the animation of the PAR-103 marker (lines 316-366 and
  548-563), a state machine over the refs and the window's intervals;
  the demo and the progress bar of [HomeScreen], which calls
  [findMatches]; the geometry of [DestinationSlider]. *)

From Stdlib Require Import Reals Lra Lia ZArith List String Bool Permutation.
Import ListNotations.

(** ** Numbers *)

Inductive number : Type :=
| NaN
| Infinity
| NegInfinity
| Fin (r : R).

Declare Scope js_scope.
Delimit Scope js_scope with js.
Bind Scope js_scope with number.

Module JS.

Local Open Scope R_scope.

(** Sign of a real, as the three-way split IEEE arithmetic makes. *)
Definition sgn (r : R) : comparison :=
  if Rlt_dec r 0 then Lt else if Rlt_dec 0 r then Gt else Eq.

Definition neg (x : number) : number :=
  match x with
  | NaN => NaN
  | Infinity => NegInfinity
  | NegInfinity => Infinity
  | Fin r => Fin (- r)
  end.

Definition add (x y : number) : number :=
  match x, y with
  | NaN, _ | _, NaN => NaN
  | Infinity, NegInfinity | NegInfinity, Infinity => NaN
  | Infinity, _ | _, Infinity => Infinity
  | NegInfinity, _ | _, NegInfinity => NegInfinity
  | Fin a, Fin b => Fin (a + b)
  end.

Definition sub (x y : number) : number := add x (neg y).

(** [s] times an infinity of positive sign. *)
Definition signed_inf (s : comparison) : number :=
  match s with
  | Lt => NegInfinity
  | Gt => Infinity
  | Eq => NaN
  end.

Definition mul (x y : number) : number :=
  match x, y with
  | NaN, _ | _, NaN => NaN
  | Infinity, Infinity | NegInfinity, NegInfinity => Infinity
  | Infinity, NegInfinity | NegInfinity, Infinity => NegInfinity
  | Infinity, Fin b => signed_inf (sgn b)
  | Fin a, Infinity => signed_inf (sgn a)
  | NegInfinity, Fin b => neg (signed_inf (sgn b))
  | Fin a, NegInfinity => neg (signed_inf (sgn a))
  | Fin a, Fin b => Fin (a * b)
  end.

Definition div (x y : number) : number :=
  match x, y with
  | NaN, _ | _, NaN => NaN
  | (Infinity | NegInfinity), (Infinity | NegInfinity) => NaN
  | Infinity, Fin b => match sgn b with Lt => NegInfinity | _ => Infinity end
  | NegInfinity, Fin b => match sgn b with Lt => Infinity | _ => NegInfinity end
  | Fin _, (Infinity | NegInfinity) => Fin 0
  | Fin a, Fin b =>
      match sgn b with
      | Eq => signed_inf (sgn a)
      | _ => Fin (a / b)
      end
  end.

(** Relational operators: any comparison with [NaN] is false. *)
Definition lt (x y : number) : bool :=
  match x, y with
  | NaN, _ | _, NaN => false
  | _, NegInfinity => false
  | NegInfinity, _ => true
  | Infinity, _ => false
  | Fin _, Infinity => true
  | Fin a, Fin b => if Rlt_dec a b then true else false
  end.

Definition gt (x y : number) : bool := lt y x.

Definition le (x y : number) : bool :=
  match x, y with
  | NaN, _ | _, NaN => false
  | NegInfinity, _ => true
  | _, Infinity => true
  | _, NegInfinity => false
  | Infinity, Fin _ => false
  | Fin a, Fin b => if Rle_dec a b then true else false
  end.

Definition ge (x y : number) : bool := le y x.

(** The [Math] object. *)
Definition Math_PI : number := Fin PI.

Definition Math_sin (x : number) : number :=
  match x with
  | Fin r => Fin (sin r)
  | _ => NaN
  end.

Definition Math_cos (x : number) : number :=
  match x with
  | Fin r => Fin (cos r)
  | _ => NaN
  end.

Definition Math_sqrt (x : number) : number :=
  match x with
  | NaN | NegInfinity => NaN
  | Infinity => Infinity
  | Fin r => if Rlt_dec r 0 then NaN else Fin (sqrt r)
  end.

(** [Math.atan2(y, x)], by the case table of ECMA-262. *)
Definition Math_atan2 (y x : number) : number :=
  match y, x with
  | NaN, _ | _, NaN => NaN
  | Infinity, Infinity => Fin (PI / 4)
  | Infinity, NegInfinity => Fin (3 * PI / 4)
  | Infinity, Fin _ => Fin (PI / 2)
  | NegInfinity, Infinity => Fin (- (PI / 4))
  | NegInfinity, NegInfinity => Fin (- (3 * PI / 4))
  | NegInfinity, Fin _ => Fin (- (PI / 2))
  | Fin _, Infinity => Fin 0
  | Fin b, NegInfinity => if Rlt_dec b 0 then Fin (- PI) else Fin PI
  | Fin b, Fin a =>
      match sgn a with
      | Gt => Fin (atan (b / a))
      | Lt => if Rlt_dec b 0 then Fin (atan (b / a) - PI)
              else Fin (atan (b / a) + PI)
      | Eq => match sgn b with
              | Gt => Fin (PI / 2)
              | Lt => Fin (- (PI / 2))
              | Eq => Fin 0
              end
      end
  end.

End JS.

Notation "x + y" := (JS.add x y) : js_scope.
Notation "x - y" := (JS.sub x y) : js_scope.
Notation "x * y" := (JS.mul x y) : js_scope.
Notation "x / y" := (JS.div x y) : js_scope.
Notation "x <? y" := (JS.lt x y) : js_scope.
Notation "x >? y" := (JS.gt x y) : js_scope.
Notation "x <=? y" := (JS.le x y) : js_scope.
Notation "x >=? y" := (JS.ge x y) : js_scope.

(** Numeric literals of the source. *)
Definition num (z : Z) : number := Fin (IZR z).

(** ** Thrown errors *)

Inductive outcome (A : Type) : Type :=
| Ok (a : A)
| TypeError.
Arguments Ok {A} a.
Arguments TypeError {A}.

Definition bind {A B} (m : outcome A) (k : A -> outcome B) : outcome B :=
  match m with
  | Ok a => k a
  | TypeError => TypeError
  end.

Notation "x <- m ;; k" := (bind m (fun x => k))
  (at level 61, m at next level, right associativity).

(** ** Data model (lines 580-602) *)

Record Coordinate : Type := mkCoordinate {
  lat : number;
  lon : number
}.

(** A [Date], by its time value: [new Date(time)] for an integer count of
    milliseconds, or an Invalid Date, whose [getTime()] is [NaN]. *)
Inductive Date : Type :=
| Invalid_Date
| Date_of (time : Z).
Coercion Date_of : Z >-> Date.

Definition getTime (d : Date) : number :=
  match d with
  | Invalid_Date => NaN
  | Date_of time => num time
  end.

Module RideOffer.
Record t : Type := mk {
  id : string;
  departure : Coordinate;
  destination : Coordinate;
  departureTime : Date;
  maxDetourMinutes : number;
  freeSeats : number;
  route : list Coordinate
}.
End RideOffer.

Module RideRequest.
Record t : Type := mk {
  id : string;
  from : Coordinate;
  to : Coordinate;
  departureTime : Date;
  maxWalkMeters : number;
  rideNow : bool
}.
End RideRequest.

Record MatchResult : Type := mkMatch {
  offer : RideOffer.t;
  score : number
}.

(** ** Geometry (lines 604-647) *)

Section Geometry.
Import JS.
Local Open Scope js_scope.

Definition haversineDistance (a b : Coordinate) : number :=
  let R := num 6371000 in
  let φ1 := (lat a * Math_PI) / num 180 in
  let φ2 := (lat b * Math_PI) / num 180 in
  let Δφ := ((lat b - lat a) * Math_PI) / num 180 in
  let Δλ := ((lon b - lon a) * Math_PI) / num 180 in
  let sinΔφ := Math_sin (Δφ / num 2) in
  let sinΔλ := Math_sin (Δλ / num 2) in
  let aa := sinΔφ * sinΔφ + Math_cos φ1 * Math_cos φ2 * sinΔλ * sinΔλ in
  let c := num 2 * Math_atan2 (Math_sqrt aa) (Math_sqrt (num 1 - aa)) in
  R * c.

(** [for (const node of route)] with the running minimum as loop state. *)
Definition minDistanceToRoute (point : Coordinate) (route : list Coordinate)
  : number :=
  fold_left
    (fun minDist node =>
       let dist := haversineDistance point node in
       if dist <? minDist then dist else minDist)
    route Infinity.

Definition isCorrectDirection (pickupIdx dropoffIdx : Z) : bool :=
  (pickupIdx >=? 0)%Z && (dropoffIdx >=? 0)%Z && (pickupIdx <? dropoffIdx)%Z.

Definition estimateDetourDistance (offer : RideOffer.t)
           (pickupPoint dropoffPoint : Coordinate) : number :=
  let directDistance :=
    haversineDistance (RideOffer.departure offer) (RideOffer.destination offer) in
  let toPickup := haversineDistance (RideOffer.departure offer) pickupPoint in
  let betweenStops := haversineDistance pickupPoint dropoffPoint in
  let toDestination :=
    haversineDistance dropoffPoint (RideOffer.destination offer) in
  toPickup + betweenStops + toDestination - directDistance.

Definition detourDistanceToMinutes_at (detourMeters avgSpeedKph : number)
  : number :=
  let speedMetersPerMin := (avgSpeedKph * num 1000) / num 60 in
  detourMeters / speedMetersPerMin.

(** The call of line 681 leaves [avgSpeedKph] to its default, 30. *)
Definition detourDistanceToMinutes (detourMeters : number) : number :=
  detourDistanceToMinutes_at detourMeters (num 30).

End Geometry.

(** ** Arrays *)

(** [arr[i]]: [undefined] ([None]) outside the array. *)
Definition Array_get {A} (arr : list A) (i : Z) : option A :=
  if (i <? 0)%Z then None else nth_error arr (Z.to_nat i).

(** [arr.reduce((acc, node, idx) => ..., init)]; [idx] counts from 0. *)
Fixpoint reduce_from {A B} (f : B -> A -> Z -> outcome B)
         (arr : list A) (idx : Z) (acc : B) : outcome B :=
  match arr with
  | [] => Ok acc
  | node :: rest => acc' <- f acc node idx ;; reduce_from f rest (idx + 1)%Z acc'
  end.

Definition Array_reduce {A B} (f : B -> A -> Z -> outcome B)
           (arr : list A) (init : B) : outcome B :=
  reduce_from f arr 0%Z init.

(** [SortCompare] of ECMA-262 for a comparator [comparefn]: a [NaN]
    answer counts as [+0]. *)
Definition SortCompare {A} (comparefn : A -> A -> number) (x y : A)
  : comparison :=
  let v := comparefn x y in
  if JS.lt v (num 0) then Lt else if JS.gt v (num 0) then Gt else Eq.

(** [arr.sort(comparefn)].  The sort is stable; with a consistent
    comparator its result is fixed by ECMA-262, and the insertion sort
    below computes it.  With an inconsistent one (a [NaN] difference) the
    standard leaves the order to the engine; the model then still is the
    plain insertion sort, an element staying in front of those it does not
    compare greater than. *)
Fixpoint sort_insert {A} (comparefn : A -> A -> number) (x : A) (l : list A)
  : list A :=
  match l with
  | [] => [x]
  | y :: l' =>
      match SortCompare comparefn x y with
      | Gt => y :: sort_insert comparefn x l'
      | _ => x :: l
      end
  end.

Fixpoint Array_sort {A} (comparefn : A -> A -> number) (l : list A) : list A :=
  match l with
  | [] => []
  | x :: l' => sort_insert comparefn x (Array_sort comparefn l')
  end.

(** ** The matcher (lines 649-688) *)

Section Matcher.
Import JS.
Local Open Scope js_scope.

(** The two [reduce] calls of lines 668-677 are the same function of the
    point ([request.from], [request.to]) and of [offer.route]. *)
Definition nearestWaypointIndex (point : Coordinate) (route : list Coordinate)
  : outcome Z :=
  Array_reduce
    (fun bestIdx node idx =>
       bestDist <-
         (if (bestIdx >=? 0)%Z
          then match Array_get route bestIdx with
               | Some best => Ok (haversineDistance point best)
               | None => TypeError
               end
          else Ok Infinity) ;;
       let dist := haversineDistance point node in
       Ok (if dist <? bestDist then idx else bestIdx))
    route (-1)%Z.

(** What one turn of the loop over [offers] does: leave through one of
    its five [continue] statements, or push a result. *)
Inductive step : Type :=
| SkipSeats
| SkipTime
| SkipWalk
| SkipDirection
| SkipDetour
| Push (m : MatchResult).

Definition timeMarginMinutes (request : RideRequest.t) : number :=
  if RideRequest.rideNow request then num 5 else num 15.

Definition requestedTime (request : RideRequest.t) : number :=
  getTime (RideRequest.departureTime request).

Definition windowStart (request : RideRequest.t) : number :=
  requestedTime request - timeMarginMinutes request * num 60 * num 1000.

Definition windowEnd (request : RideRequest.t) : number :=
  requestedTime request + timeMarginMinutes request * num 60 * num 1000.

(** The body of [for (const offer of offers)], lines 661-684. *)
Definition matchOffer (request : RideRequest.t) (offer : RideOffer.t)
  : outcome step :=
  if RideOffer.freeSeats offer <=? num 0 then Ok SkipSeats else
  let offerTime := getTime (RideOffer.departureTime offer) in
  if (offerTime <? windowStart request) || (offerTime >? windowEnd request)
  then Ok SkipTime else
  let pickupDistance :=
    minDistanceToRoute (RideRequest.from request) (RideOffer.route offer) in
  let dropoffDistance :=
    minDistanceToRoute (RideRequest.to request) (RideOffer.route offer) in
  if (pickupDistance >? RideRequest.maxWalkMeters request)
     || (dropoffDistance >? RideRequest.maxWalkMeters request)
  then Ok SkipWalk else
  pickupIdx <-
    nearestWaypointIndex (RideRequest.from request) (RideOffer.route offer) ;;
  dropoffIdx <-
    nearestWaypointIndex (RideRequest.to request) (RideOffer.route offer) ;;
  if negb (isCorrectDirection pickupIdx dropoffIdx) then Ok SkipDirection else
  let detourMeters :=
    estimateDetourDistance offer (RideRequest.from request)
                           (RideRequest.to request) in
  let detourMinutes := detourDistanceToMinutes detourMeters in
  if (detourMinutes >? RideOffer.maxDetourMinutes offer)
     || (detourMinutes >? num 5)
  then Ok SkipDetour else
  let score :=
    detourMinutes * num 2 + (pickupDistance + dropoffDistance) / num 1000 in
  Ok (Push {| offer := offer; score := score |}).

(** The loop, [results] being the array built so far. *)
Fixpoint forOffers (request : RideRequest.t) (offers : list RideOffer.t)
         (results : list MatchResult) : outcome (list MatchResult) :=
  match offers with
  | [] => Ok results
  | offer :: rest =>
      s <- matchOffer request offer ;;
      forOffers request rest
                (match s with
                 | Push m => results ++ [m]
                 | _ => results
                 end)
  end.

(** [currentTime] is a parameter of the source function; its default
    value, the clock, is the caller's to pass here. *)
Definition findMatches (offers : list RideOffer.t) (request : RideRequest.t)
           (currentTime : Date) : outcome (list MatchResult) :=
  results <- forOffers request offers [] ;;
  Ok (Array_sort (fun a b => score a - score b) results).

End Matcher.

(** * The map component ([src/Map.tsx], lines 97-563) *)

(** ** More of the [Math] object *)

(** [Math.round]: the nearest integer, a tie going up. *)
Definition Math_round (x : number) : number :=
  match x with
  | Fin r => Fin (IZR (Zfloor (r + 1 / 2)))
  | _ => x
  end.

Definition Math_max (x y : number) : number :=
  match x, y with
  | NaN, _ | _, NaN => NaN
  | _, _ => if JS.lt x y then y else x
  end.

Definition Math_min (x y : number) : number :=
  match x, y with
  | NaN, _ | _, NaN => NaN
  | _, _ => if JS.lt y x then y else x
  end.

(** ** Values read from a JSON body *)

(** What [res.json()] resolves to, and [undefined].  An object is the list
    of its own properties, each key once. *)
#[warnings="-register-all"] Inductive value : Type :=
| Undefined
| Null
| Boolean (b : bool)
| Num (n : number)
| Str (s : string)
| Arr (items : list value)
| Obj (fields : list (string * value)).

(** [!v] is [negb (ToBoolean v)]. *)
Definition ToBoolean (v : value) : bool :=
  match v with
  | Undefined | Null => false
  | Boolean b => b
  | Num NaN => false
  | Num (Fin r) => if Req_dec_T r 0 then false else true
  | Num _ => true
  | Str s => match s with EmptyString => false | _ => true end
  | Arr _ | Obj _ => true
  end.

Fixpoint own (fields : list (string * value)) (key : string) : value :=
  match fields with
  | [] => Undefined
  | (k, v) :: rest => if String.eqb key k then v else own rest key
  end.

(** [v.key], for the keys the source reads ([routes], [geometry],
    [duration]), which no prototype defines: an own property of an object,
    [undefined] on any other value, a [TypeError] on [undefined] and
    [null]. *)
Definition Get (key : string) (v : value) : outcome value :=
  match v with
  | Undefined | Null => TypeError
  | Obj fields => Ok (own fields key)
  | _ => Ok Undefined
  end.

(** [v[0]]. *)
Definition GetFirst (v : value) : outcome value :=
  match v with
  | Undefined | Null => TypeError
  | Arr items => Ok (match items with [] => Undefined | x :: _ => x end)
  | Str s => Ok (match s with
                 | EmptyString => Undefined
                 | String c _ => Str (String c EmptyString)
                 end)
  | Obj fields => Ok (own fields "0")
  | _ => Ok Undefined
  end.

(** Optional chaining, [v?.key] and [v?.[0]]. *)
Definition optional (access : value -> outcome value) (v : value)
  : outcome value :=
  match v with
  | Undefined | Null => Ok Undefined
  | _ => access v
  end.

(** ** The Directions helpers (lines 99-141) *)

(** [[number, number]], longitude first. *)
Definition LngLat : Type := (number * number)%type.

Inductive Profile : Type :=
| driving
| walking.

(** The URL of a request, by the parts the template literal puts in it. *)
Record Url : Type := mkUrl {
  url_profile : Profile;
  url_from : LngLat;
  url_to : LngLat;
  url_query : string
}.

(** The [Response] of [fetch]: [text] and [json] are [None] when the
    promise of [res.text()], of [res.json()], rejects. *)
Module Response.
Record t : Type := mk {
  ok : bool;
  text : option string;
  json : option value
}.
End Response.

(** How a promise settles. *)
Inductive settled (A : Type) : Type :=
| Fulfilled (a : A)
| Rejected.
Arguments Fulfilled {A} a.
Arguments Rejected {A}.

Section Directions.

(** The network: the answer to a request, [None] when [fetch] rejects. *)
Variable fetch : Url -> option Response.t.

Definition fetchRouteGeometry (from to : LngLat) (profile : Profile)
  : settled value :=
  let url := mkUrl profile from to "geometries=geojson&overview=full" in
  match fetch url with
  | None => Rejected
  | Some res =>
      if negb (Response.ok res) then
        match Response.text res with
        | None => Rejected
        | Some _ => Fulfilled Null
        end
      else
        match Response.json res with
        | None => Rejected
        | Some json =>
            match (routes <- optional (Get "routes") json ;;
                   route <- optional GetFirst routes ;;
                   optional (Get "geometry") route) with
            | TypeError => Rejected
            | Ok geometry =>
                if negb (ToBoolean geometry) then Fulfilled Null
                else Fulfilled geometry
            end
        end
  end.

(** [null] is [None]. *)
Definition fetchRouteDurationMinutes (from to : LngLat) (profile : Profile)
  : settled (option number) :=
  let url := mkUrl profile from to "overview=false" in
  match fetch url with
  | None => Rejected
  | Some res =>
      if negb (Response.ok res) then
        match Response.text res with
        | None => Rejected
        | Some _ => Fulfilled None
        end
      else
        match Response.json res with
        | None => Rejected
        | Some json =>
            match (routes <- optional (Get "routes") json ;;
                   optional GetFirst routes) with
            | TypeError => Rejected
            | Ok route =>
                if negb (ToBoolean route) then Fulfilled None
                else
                  match Get "duration" route with
                  | TypeError => Rejected
                  | Ok (Num duration) =>
                      Fulfilled
                        (Some (Math_max (num 1)
                                        (Math_round (duration / num 60)%js)))
                  | Ok _ => Fulfilled None
                  end
            end
        end
  end.

End Directions.

(** ** The pickup time (lines 51-52, 222-234, 401) *)

Definition ORDENER_205 : LngLat := (Fin 2.333157, Fin 48.893983).
Definition ORDENER_191_MEET : LngLat := (Fin 2.3355, Fin 48.8938).

(** The [try] block of lines 223-234: what [pickupEtaMinRef.current] is
    after it, a rejection being caught and logged. *)
Definition loadPickupEta (fetch : Url -> option Response.t)
           (pickupEtaMinRef : option number) : option number :=
  match fetchRouteDurationMinutes fetch ORDENER_205 ORDENER_191_MEET driving with
  | Fulfilled (Some pickupMin) => Some pickupMin
  | Fulfilled None => pickupEtaMinRef
  | Rejected => pickupEtaMinRef
  end.

(** [pickupEtaMinRef.current ?? 3], the [pickupEtaMin] the click handler
    passes on. *)
Definition pickupEtaOnClick (pickupEtaMinRef : option number) : number :=
  match pickupEtaMinRef with
  | Some eta => eta
  | None => num 3
  end.

(** ** The animation of PAR-103 (lines 316-366 and 548-563) *)

(** An exception out of a handler. *)
Inductive attempt (A : Type) : Type :=
| Done (a : A)
| Throws.
Arguments Done {A} a.
Arguments Throws {A}.

(** The closure of the interval's callback: [coords] and [step]. *)
Module Callback.
Record t : Type := mk {
  coords : list LngLat;
  step : Z
}.
End Callback.

(** What the animation reads and writes: the three refs
    ([par103CoordsRef.current] an array of pairs, as its type has it; the
    marker by where it is), and the intervals the window runs, by their
    ids, [nextInterval] being the id [window.setInterval] gives next. *)
Record Page : Type := mkPage {
  par103CoordsRef : list LngLat;
  movingMarkerRef : option LngLat;
  moveIntervalRef : option nat;
  intervals : list (nat * Callback.t);
  nextInterval : nat
}.

(** [window.clearInterval(id)]; of [null], nothing. *)
Definition clearInterval (id : option nat) (running : list (nat * Callback.t))
  : list (nat * Callback.t) :=
  match id with
  | None => running
  | Some i => filter (fun t => negb (Nat.eqb (fst t) i)) running
  end.

(** Lines 316-366.  The marker is made or moved, to [coords[0]] in both
    cases; [setLngLat(undefined)] throws. *)
Definition startPar103Animation (pg : Page) : attempt Page :=
  let coords := par103CoordsRef pg in
  if (Z.of_nat (List.length coords) =? 0)%Z then Done pg else
  let running :=
    match moveIntervalRef pg with
    | Some i => clearInterval (Some i) (intervals pg)
    | None => intervals pg
    end in
  match Array_get coords 0 with
  | None => Throws
  | Some first =>
      let id := nextInterval pg in
      Done {| par103CoordsRef := par103CoordsRef pg;
              movingMarkerRef := Some first;
              moveIntervalRef := Some id;
              intervals := running ++ [(id, Callback.mk coords 0)];
              nextInterval := S id |}
  end.

Fixpoint callbackOf (id : nat) (running : list (nat * Callback.t))
  : option Callback.t :=
  match running with
  | [] => None
  | (i, c) :: rest => if Nat.eqb i id then Some c else callbackOf id rest
  end.

Fixpoint setCallback (id : nat) (c : Callback.t)
         (running : list (nat * Callback.t)) : list (nat * Callback.t) :=
  match running with
  | [] => []
  | (i, c') :: rest =>
      if Nat.eqb i id then (i, c) :: rest else (i, c') :: setCallback id c rest
  end.

(** The interval [id] fires: the callback of lines 354-365.  An interval
    that was cleared does not fire. *)
Definition tick (id : nat) (pg : Page) : attempt Page :=
  match callbackOf id (intervals pg) with
  | None => Done pg
  | Some c =>
      match movingMarkerRef pg with
      | None => Done pg
      | Some _ =>
          let step := (Callback.step c + 1)%Z in
          let running :=
            setCallback id (Callback.mk (Callback.coords c) step) (intervals pg) in
          if (step >=? Z.of_nat (List.length (Callback.coords c)))%Z then
            Done {| par103CoordsRef := par103CoordsRef pg;
                    movingMarkerRef := movingMarkerRef pg;
                    moveIntervalRef := None;
                    intervals := clearInterval (moveIntervalRef pg) running;
                    nextInterval := nextInterval pg |}
          else
            match Array_get (Callback.coords c) step with
            | None => Throws
            | Some at_step =>
                Done {| par103CoordsRef := par103CoordsRef pg;
                        movingMarkerRef := Some at_step;
                        moveIntervalRef := moveIntervalRef pg;
                        intervals := running;
                        nextInterval := nextInterval pg |}
            end
      end
  end.

(** The cleanup of the effect, lines 548-563, as far as these refs go. *)
Definition cleanup (pg : Page) : Page :=
  {| par103CoordsRef := par103CoordsRef pg;
     movingMarkerRef := None;
     moveIntervalRef := None;
     intervals := clearInterval (moveIntervalRef pg) (intervals pg);
     nextInterval := nextInterval pg |}.

(** What happens to the page: a click that gets to
    [startPar103Animation()], an interval firing, the component
    unmounting. *)
Inductive event : Type :=
| Click
| Fires (id : nat)
| Unmount.

Definition handle (e : event) (pg : Page) : attempt Page :=
  match e with
  | Click => startPar103Animation pg
  | Fires id => tick id pg
  | Unmount => Done (cleanup pg)
  end.

Fixpoint run (events : list event) (pg : Page) : attempt Page :=
  match events with
  | [] => Done pg
  | e :: rest =>
      match handle e pg with
      | Done pg' => run rest pg'
      | Throws => Throws
      end
  end.

(** * The home screen ([HomeScreen], the caller of [findMatches]) *)

(** ** The demo *)

Record SelectedRoute : Type := mkSelectedRoute {
  driverId : string;
  startName : string;
  endName : string;
  etaMin : number;
  price : number;
  pickupEtaMin : option number
}.

(** The end of the first effect: [selectedRoute] after it, from what it
    was and from [matches]. *)
Definition selectBest (matches : list MatchResult)
           (selectedRoute : option SelectedRoute)
  : outcome (option SelectedRoute) :=
  if (Z.of_nat (List.length matches) >? 0)%Z then
    match Array_get matches 0 with
    | None => TypeError
    | Some best =>
        Ok (Some {| driverId := RideOffer.id (offer best);
                    startName := "Paris Centre";
                    endName := "Paris East";
                    etaMin := num 12;
                    price := Fin 4.5;
                    pickupEtaMin := Some (num 4) |})
    end
  else Ok selectedRoute.

(** ** The progress bar *)

(** The state [progress], and whether the interval of the second effect
    runs. *)
Module ProgressBar.
Record t : Type := mk {
  progress : number;
  interval : bool
}.
End ProgressBar.

(** The updater handed to [setProgress]: the next value, and whether it
    cleared the interval. *)
Definition progressUpdater (value : number) : number * bool :=
  if JS.ge value (num 100) then (num 100, true)
  else ((value + num 1)%js, false).

(** The interval fires. *)
Definition progressTick (bar : ProgressBar.t) : ProgressBar.t :=
  if ProgressBar.interval bar then
    let (value, cleared) := progressUpdater (ProgressBar.progress bar) in
    {| ProgressBar.progress := value; ProgressBar.interval := negb cleared |}
  else bar.

(** The second effect with a route selected: [setProgress(0)] and a new
    interval. *)
Definition routeSelected : ProgressBar.t :=
  {| ProgressBar.progress := num 0; ProgressBar.interval := true |}.

(** * The destination slider ([components/DestinationSlider.tsx]) *)

Module Mode.
Inductive t : Type :=
| center
| driver
| rider.
End Mode.

Definition handleSize : number := num 56.

(** [updateWidth], by the width it hands to [setSliderWidth]. *)
Definition updateWidth (innerWidth : number) : number :=
  let vw := innerWidth in
  Math_min (num 360) (Math_max (num 260) (vw * Fin 0.9)%js).

Module DragConstraints.
Record t : Type := mk {
  left : number;
  right : number
}.
End DragConstraints.

Definition dragConstraints (sliderWidth : number) : DragConstraints.t :=
  {| DragConstraints.left :=
       JS.neg (sliderWidth / num 2 - handleSize / num 2)%js;
     DragConstraints.right := (sliderWidth / num 2 - handleSize / num 2)%js |}.

(** [snapTo], by the value it sets [x] to and the mode it selects. *)
Definition snapTo (sliderWidth : number) (mode : Mode.t) : number * Mode.t :=
  match mode with
  | Mode.driver => (DragConstraints.left (dragConstraints sliderWidth), mode)
  | Mode.rider => (DragConstraints.right (dragConstraints sliderWidth), mode)
  | Mode.center => (num 0, mode)
  end.

Definition handleDragEnd (sliderWidth offset velocity : number)
  : number * Mode.t :=
  let target :=
    if JS.lt offset (num (-50)) || JS.lt velocity (num (-500)) then Mode.driver
    else if JS.gt offset (num 50) || JS.gt velocity (num 500) then Mode.rider
    else Mode.center in
  snapTo sliderWidth target.


(** * Vocabulary of the statements *)

Section Vocabulary.
Local Open Scope R_scope.

(** ** Finite values *)

Definition finite (x : number) : Prop :=
  match x with Fin _ => True | _ => False end.

Definition finiteCoordinate (c : Coordinate) : Prop :=
  finite (lat c) /\ finite (lon c).

Definition finiteRequest (request : RideRequest.t) : Prop :=
  finiteCoordinate (RideRequest.from request) /\
  finiteCoordinate (RideRequest.to request).


(** ** The haversine formula on reals *)

(** Degrees to radians, [x * Math.PI / 180]. *)
Definition rad (d : R) : R := d * PI / 180.

(** [aa] of the source. *)
Definition hav_a (φ1 λ1 φ2 λ2 : R) : R :=
  sin (rad (φ2 - φ1) / 2) * sin (rad (φ2 - φ1) / 2)
  + cos (rad φ1) * cos (rad φ2)
    * sin (rad (λ2 - λ1) / 2) * sin (rad (λ2 - λ1) / 2).

(** [Math.atan2(Math.sqrt(aa), Math.sqrt(1 - aa))] for [aa] in [0, 1]. *)
Definition half_angle (a : R) : R :=
  if Rlt_dec a 1 then atan (sqrt a / sqrt (1 - a)) else PI / 2.

(** The central angle between two points, [c] of the source. *)
Definition central (φ1 λ1 φ2 λ2 : R) : R := 2 * half_angle (hav_a φ1 λ1 φ2 λ2).

(** The cosine of the central angle: the inner product of the two unit
    vectors. *)
Definition dot (φ1 λ1 φ2 λ2 : R) : R :=
  sin (rad φ1) * sin (rad φ2)
  + cos (rad φ1) * cos (rad φ2) * cos (rad (λ2 - λ1)).


(** The point of the equator at longitude [x] degrees. *)
Definition equator (x : R) : Coordinate := mkCoordinate (Fin 0) (Fin x).

(** Metres along the equator for [deg] degrees of longitude. *)
Definition arc (deg : R) : R := 6371000 * rad deg.

(** ** The scan for the nearest waypoint *)

(** The callback of the two [reduce] calls. *)
Definition scan (point : Coordinate) (route : list Coordinate)
           (bestIdx : Z) (node : Coordinate) (idx : Z) : outcome Z :=
  bestDist <-
    (if (bestIdx >=? 0)%Z
     then match Array_get route bestIdx with
          | Some best => Ok (haversineDistance point best)
          | None => TypeError
          end
     else Ok Infinity) ;;
  let dist := haversineDistance point node in
  Ok (if JS.lt dist bestDist then idx else bestIdx).

(** The distance the scan compares against, [bestDist] in the source. *)
Definition bestDist (point : Coordinate) (route : list Coordinate) (i : Z)
  : number :=
  if (i >=? 0)%Z
  then match Array_get route i with
       | Some best => haversineDistance point best
       | None => NaN
       end
  else Infinity.

(** What the scan knows of the waypoints [seen] so far when its state is
    the index [i]. *)
Definition nearest_inv (point : Coordinate) (seen : list Coordinate) (i : Z)
  : Prop :=
  (i = (-1)%Z
   /\ forall node, In node seen ->
        JS.lt (haversineDistance point node) Infinity = false)
  \/ (exists best,
        (0 <= i)%Z /\ nth_error seen (Z.to_nat i) = Some best /\
        JS.lt (haversineDistance point best) Infinity = true /\
        (forall node, In node seen ->
           JS.lt (haversineDistance point node)
                 (haversineDistance point best) = false) /\
        (forall j node, (j < Z.to_nat i)%nat -> nth_error seen j = Some node ->
           JS.le (haversineDistance point node)
                 (haversineDistance point best) = false)).

(** ** One turn of the loop *)

(** The tolerance of the time window, in milliseconds. *)
Definition tolerance (request : RideRequest.t) : Z :=
  ((if RideRequest.rideNow request then 5 else 15) * 60 * 1000)%Z.

(** Both departure times are dates, and the offer's lies in the closed
    interval around the request's. *)
Definition inWindow (request : RideRequest.t) (o : RideOffer.t) : Prop :=
  exists T t : Z,
    RideRequest.departureTime request = Date_of T
    /\ RideOffer.departureTime o = Date_of t
    /\ (T - tolerance request <= t <= T + tolerance request)%Z.

Definition pickupDistance (request : RideRequest.t) (o : RideOffer.t) : number :=
  minDistanceToRoute (RideRequest.from request) (RideOffer.route o).

Definition dropoffDistance (request : RideRequest.t) (o : RideOffer.t) : number :=
  minDistanceToRoute (RideRequest.to request) (RideOffer.route o).

Definition detourMinutes (request : RideRequest.t) (o : RideOffer.t) : number :=
  detourDistanceToMinutes
    (estimateDetourDistance o (RideRequest.from request) (RideRequest.to request)).

Definition scoreOf (request : RideRequest.t) (o : RideOffer.t) : number :=
  (detourMinutes request o * num 2
   + (pickupDistance request o + dropoffDistance request o) / num 1000)%js.

(** The conditions of the [continue] statements, true when taken. *)
Definition seatsFilter (o : RideOffer.t) : bool :=
  JS.le (RideOffer.freeSeats o) (num 0).

Definition timeFilter (request : RideRequest.t) (o : RideOffer.t) : bool :=
  JS.lt (getTime (RideOffer.departureTime o)) (windowStart request)
  || JS.gt (getTime (RideOffer.departureTime o)) (windowEnd request).

Definition walkFilter (request : RideRequest.t) (o : RideOffer.t) : bool :=
  JS.gt (pickupDistance request o) (RideRequest.maxWalkMeters request)
  || JS.gt (dropoffDistance request o) (RideRequest.maxWalkMeters request).

Definition detourFilter (request : RideRequest.t) (o : RideOffer.t) : bool :=
  JS.gt (detourMinutes request o) (RideOffer.maxDetourMinutes o)
  || JS.gt (detourMinutes request o) (num 5).

(** The turn of the loop for an offer whose nearest waypoints have the
    indices [p] and [d]. *)
Definition turn (request : RideRequest.t) (o : RideOffer.t) (p d : Z) : step :=
  if seatsFilter o then SkipSeats
  else if timeFilter request o then SkipTime
  else if walkFilter request o then SkipWalk
  else if negb (isCorrectDirection p d) then SkipDirection
  else if detourFilter request o then SkipDetour
  else Push {| offer := o; score := scoreOf request o |}.

(** The offer got through the capacity, time-window, walking-distance and
    direction filters. *)
Definition reachesDetourFilter (request : RideRequest.t) (o : RideOffer.t)
  : Prop :=
  seatsFilter o = false /\ timeFilter request o = false /\
  walkFilter request o = false /\
  exists p d,
    nearestWaypointIndex (RideRequest.from request) (RideOffer.route o) = Ok p /\
    nearestWaypointIndex (RideRequest.to request) (RideOffer.route o) = Ok d /\
    isCorrectDirection p d = true.

(** The offer gets through the capacity, walking-distance, direction and
    detour filters. *)
Definition passesOtherFilters (request : RideRequest.t) (o : RideOffer.t)
  : Prop :=
  seatsFilter o = false /\ walkFilter request o = false /\
  (exists p d,
     nearestWaypointIndex (RideRequest.from request) (RideOffer.route o) = Ok p /\
     nearestWaypointIndex (RideRequest.to request) (RideOffer.route o) = Ok d /\
     isCorrectDirection p d = true) /\
  detourFilter request o = false.

(** The offer, with another departure time. *)
Definition departingAt (d : Date) (o : RideOffer.t) : RideOffer.t :=
  {| RideOffer.id := RideOffer.id o;
     RideOffer.departure := RideOffer.departure o;
     RideOffer.destination := RideOffer.destination o;
     RideOffer.departureTime := d;
     RideOffer.maxDetourMinutes := RideOffer.maxDetourMinutes o;
     RideOffer.freeSeats := RideOffer.freeSeats o;
     RideOffer.route := RideOffer.route o |}.

(** ** The order of the result *)

(** The comparator of line 686. *)
Definition byScore (a b : MatchResult) : number := (score a - score b)%js.

Definition finiteScore (m : MatchResult) : Prop := finite (score m).

(** [score_i <= score_(i+1)] for every adjacent pair. *)
Fixpoint ascending (l : list MatchResult) : Prop :=
  match l with
  | [] => True
  | a :: l' =>
      match l' with
      | [] => True
      | b :: _ => JS.le (score a) (score b) = true
      end /\ ascending l'
  end.

(** No adjacent pair compares greater: what the insertion sort guarantees
    of its result whatever the comparator answers. *)
Fixpoint notDescending (l : list MatchResult) : Prop :=
  match l with
  | [] => True
  | a :: l' =>
      match l' with
      | [] => True
      | b :: _ => SortCompare byScore a b <> Gt
      end /\ notDescending l'
  end.

(** ** Worked inputs *)

Definition rider : RideRequest.t :=
  {| RideRequest.id := "RIDER";
     RideRequest.from := equator 0;
     RideRequest.to := equator 0.01;
     RideRequest.departureTime := 0%Z;
     RideRequest.maxWalkMeters := num 500;
     RideRequest.rideNow := true |}.

(** The rider of [rider], the other way round. *)
Definition riderBack : RideRequest.t :=
  {| RideRequest.id := "RIDER-BACK";
     RideRequest.from := equator 0.01;
     RideRequest.to := equator 0;
     RideRequest.departureTime := 0%Z;
     RideRequest.maxWalkMeters := num 500;
     RideRequest.rideNow := true |}.

(** A driver along the rider's trip. *)
Definition direct : RideOffer.t :=
  {| RideOffer.id := "DIRECT";
     RideOffer.departure := equator 0;
     RideOffer.destination := equator 0.01;
     RideOffer.departureTime := 0%Z;
     RideOffer.maxDetourMinutes := num 5;
     RideOffer.freeSeats := num 1;
     RideOffer.route := [equator 0; equator 0.01] |}.

(** The same trip, the first waypoint some 111 metres from the rider. *)
Definition walk : RideOffer.t :=
  {| RideOffer.id := "WALK";
     RideOffer.departure := equator 0;
     RideOffer.destination := equator 0.01;
     RideOffer.departureTime := 0%Z;
     RideOffer.maxDetourMinutes := num 5;
     RideOffer.freeSeats := num 1;
     RideOffer.route := [equator 0.001; equator 0.01] |}.

(** The same trip again, the latitude of the departure not a number. *)
Definition malformed : RideOffer.t :=
  {| RideOffer.id := "MALFORMED";
     RideOffer.departure := mkCoordinate NaN (num 0);
     RideOffer.destination := equator 0.01;
     RideOffer.departureTime := 0%Z;
     RideOffer.maxDetourMinutes := num 5;
     RideOffer.freeSeats := num 1;
     RideOffer.route := [equator 0; equator 0.01] |}.

(** The driver of [direct], with a route of one waypoint. *)
Definition oneStop : RideOffer.t :=
  {| RideOffer.id := "ONE-STOP";
     RideOffer.departure := equator 0;
     RideOffer.destination := equator 0.01;
     RideOffer.departureTime := 0%Z;
     RideOffer.maxDetourMinutes := num 5;
     RideOffer.freeSeats := num 1;
     RideOffer.route := [equator 0] |}.

(** The rider of [rider], ready to walk 2000 metres. *)
Definition hiker : RideRequest.t :=
  {| RideRequest.id := "HIKER";
     RideRequest.from := equator 0;
     RideRequest.to := equator 0.01;
     RideRequest.departureTime := 0%Z;
     RideRequest.maxWalkMeters := num 2000;
     RideRequest.rideNow := true |}.

Definition directMatch : MatchResult := {| offer := direct; score := Fin 0 |}.

Definition walkMatch : MatchResult :=
  {| offer := walk; score := Fin (arc 0.001 / 1000) |}.

Definition malformedMatch : MatchResult := {| offer := malformed; score := NaN |}.

(** The longitude, in degrees, 2000 metres east of longitude 0 on the
    equator. *)
Definition lon2000 : R := 360000 / (6371000 * PI).

Definition rider2000 : RideRequest.t :=
  {| RideRequest.id := "RIDER-2000";
     RideRequest.from := equator 0;
     RideRequest.to := equator lon2000;
     RideRequest.departureTime := 0%Z;
     RideRequest.maxWalkMeters := num 500;
     RideRequest.rideNow := false |}.

(** A driver who leaves from the rider's origin and comes back to it: the
    rider's 2000 metres are driven twice over, 8 minutes at 30 km/h. *)
Definition roundTrip : RideOffer.t :=
  {| RideOffer.id := "ROUND-TRIP";
     RideOffer.departure := equator 0;
     RideOffer.destination := equator 0;
     RideOffer.departureTime := 0%Z;
     RideOffer.maxDetourMinutes := num 10;
     RideOffer.freeSeats := num 1;
     RideOffer.route := [equator 0; equator lon2000] |}.

End Vocabulary.

(** * Vocabulary of the further properties *)

(** ** Accepted offers *)

(** The offer gets through the five filters. *)
Definition accepted (request : RideRequest.t) (o : RideOffer.t) : bool :=
  match matchOffer request o with
  | Ok (Push _) => true
  | _ => false
  end.

(** The entry pushed for an accepted offer. *)
Definition matchOf (request : RideRequest.t) (o : RideOffer.t) : MatchResult :=
  {| offer := o; score := scoreOf request o |}.

(** [results] as the loop leaves it, before the sort. *)
Definition pushed (request : RideRequest.t) (offers : list RideOffer.t)
  : list MatchResult :=
  map (matchOf request) (filter (accepted request) offers).

(** The same number ([NaN] being the same as [NaN]). *)
Definition sameNumber (x y : number) : bool :=
  match x, y with
  | NaN, NaN | Infinity, Infinity | NegInfinity, NegInfinity => true
  | Fin a, Fin b => if Req_dec_T a b then true else false
  | _, _ => false
  end.

(** The entries of score [s], in the order of the list. *)
Definition withScore (s : number) (l : list MatchResult) : list MatchResult :=
  filter (fun m => sameNumber (score m) s) l.

(** ** Requests that differ in one field *)

Definition withRideNow (request : RideRequest.t) (b : bool) : RideRequest.t :=
  {| RideRequest.id := RideRequest.id request;
     RideRequest.from := RideRequest.from request;
     RideRequest.to := RideRequest.to request;
     RideRequest.departureTime := RideRequest.departureTime request;
     RideRequest.maxWalkMeters := RideRequest.maxWalkMeters request;
     RideRequest.rideNow := b |}.

Definition withMaxWalkMeters (request : RideRequest.t) (w : number)
  : RideRequest.t :=
  {| RideRequest.id := RideRequest.id request;
     RideRequest.from := RideRequest.from request;
     RideRequest.to := RideRequest.to request;
     RideRequest.departureTime := RideRequest.departureTime request;
     RideRequest.maxWalkMeters := w;
     RideRequest.rideNow := RideRequest.rideNow request |}.

(** The trip the other way round. *)
Definition reversed (request : RideRequest.t) : RideRequest.t :=
  {| RideRequest.id := RideRequest.id request;
     RideRequest.from := RideRequest.to request;
     RideRequest.to := RideRequest.from request;
     RideRequest.departureTime := RideRequest.departureTime request;
     RideRequest.maxWalkMeters := RideRequest.maxWalkMeters request;
     RideRequest.rideNow := RideRequest.rideNow request |}.

(** A rider whose origin has no latitude. *)
Definition riderNowhere : RideRequest.t :=
  {| RideRequest.id := "RIDER-NOWHERE";
     RideRequest.from := mkCoordinate NaN (num 0);
     RideRequest.to := equator 0.01;
     RideRequest.departureTime := 0%Z;
     RideRequest.maxWalkMeters := num 500;
     RideRequest.rideNow := true |}.

(** ** Directions answers *)

(** [json?.routes?.[0]] *)
Definition firstRoute (body : value) : value :=
  match body with
  | Obj fields =>
      match own fields "routes" with
      | Arr (route :: _) => route
      | Str (String c _) => Str (String c EmptyString)
      | Obj routes => own routes "0"
      | _ => Undefined
      end
  | _ => Undefined
  end.

(** A body with one route of [seconds] seconds. *)
Definition oneRoute (seconds : R) : value :=
  Obj [("routes"%string,
        Arr [Obj [("duration"%string, Num (Fin seconds));
                  ("geometry"%string,
                   Obj [("type"%string, Str "LineString")])]])].

(** A network that answers every request with [body]. *)
Definition answering (body : value) : Url -> option Response.t :=
  fun _ => Some {| Response.ok := true;
                   Response.text := None;
                   Response.json := Some body |}.

(** ** States of the animation *)

(** The page as the component mounts it, the route of PAR-103 loaded;
    [next] is the id the window gives its next interval. *)
Definition mounted (route : list LngLat) (next : nat) : Page :=
  {| par103CoordsRef := route;
     movingMarkerRef := None;
     moveIntervalRef := None;
     intervals := [];
     nextInterval := next |}.

(** The interval [id] runs, its [step] at [k], the marker at [at_step]. *)
Definition running (route : list LngLat) (at_step : LngLat) (id : nat) (k : Z)
           (next : nat) : Page :=
  {| par103CoordsRef := route;
     movingMarkerRef := Some at_step;
     moveIntervalRef := Some id;
     intervals := [(id, Callback.mk route k)];
     nextInterval := next |}.

(** No interval runs, the marker rests at [at_step]. *)
Definition stopped (route : list LngLat) (at_step : LngLat) (next : nat) : Page :=
  {| par103CoordsRef := route;
     movingMarkerRef := Some at_step;
     moveIntervalRef := None;
     intervals := [];
     nextInterval := next |}.

(** The interval [id] fires [k] times. *)
Definition fires (id : nat) (k : nat) : list event := repeat (Fires id) k.

(** What every reachable page satisfies. *)
Definition animating (route : list LngLat) (pg : Page) : Prop :=
  par103CoordsRef pg = route
  /\ ((moveIntervalRef pg = None /\ intervals pg = [])
      \/ (exists id k at_step,
            moveIntervalRef pg = Some id
            /\ intervals pg = [(id, Callback.mk route k)]
            /\ (id < nextInterval pg)%nat
            /\ (0 <= k < Z.of_nat (List.length route))%Z
            /\ Array_get route k = Some at_step
            /\ (movingMarkerRef pg = Some at_step
                \/ movingMarkerRef pg = None))).

(** ** Later departures *)

(** [new Date(d.getTime() + dt)] *)
Definition later (dt : Z) (d : Date) : Date :=
  match d with
  | Invalid_Date => Invalid_Date
  | Date_of time => Date_of (time + dt)
  end.

(** The offer, leaving [dt] milliseconds later. *)
Definition offerLater (dt : Z) (o : RideOffer.t) : RideOffer.t :=
  {| RideOffer.id := RideOffer.id o;
     RideOffer.departure := RideOffer.departure o;
     RideOffer.destination := RideOffer.destination o;
     RideOffer.departureTime := later dt (RideOffer.departureTime o);
     RideOffer.maxDetourMinutes := RideOffer.maxDetourMinutes o;
     RideOffer.freeSeats := RideOffer.freeSeats o;
     RideOffer.route := RideOffer.route o |}.

(** The request, for [dt] milliseconds later. *)
Definition requestLater (dt : Z) (request : RideRequest.t) : RideRequest.t :=
  {| RideRequest.id := RideRequest.id request;
     RideRequest.from := RideRequest.from request;
     RideRequest.to := RideRequest.to request;
     RideRequest.departureTime := later dt (RideRequest.departureTime request);
     RideRequest.maxWalkMeters := RideRequest.maxWalkMeters request;
     RideRequest.rideNow := RideRequest.rideNow request |}.

(** The entry, for the offer leaving [dt] milliseconds later. *)
Definition matchLater (dt : Z) (m : MatchResult) : MatchResult :=
  {| offer := offerLater dt (offer m); score := score m |}.


(** * Lemmas *)

(** ** Order facts on [number] *)

Ltac destruct_decs :=
  repeat match goal with
         | |- context [Rlt_dec ?a ?b] => destruct (Rlt_dec a b)
         | |- context [Rle_dec ?a ?b] => destruct (Rle_dec a b)
         | H : context [Rlt_dec ?a ?b] |- _ => destruct (Rlt_dec a b)
         | H : context [Rle_dec ?a ?b] |- _ => destruct (Rle_dec a b)
         end.

Ltac num_order :=
  unfold JS.gt, JS.ge, JS.lt, JS.le in *; simpl in *;
  destruct_decs; try congruence; try lra; auto.

Lemma lt_Fin (a b : R) : JS.lt (Fin a) (Fin b) = true <-> (a < b)%R.
Proof. split; intros; num_order. Qed.

Lemma le_Fin (a b : R) : JS.le (Fin a) (Fin b) = true <-> (a <= b)%R.
Proof. split; intros; num_order. Qed.

Lemma lt_Fin_false (a b : R) : JS.lt (Fin a) (Fin b) = false <-> (b <= a)%R.
Proof. split; intros; num_order. Qed.

Lemma le_Fin_false (a b : R) : JS.le (Fin a) (Fin b) = false <-> (b < a)%R.
Proof. split; intros; num_order. Qed.

Lemma lt_irrefl (x : number) : JS.lt x x = false.
Proof. destruct x; num_order. Qed.

Lemma lt_trans (x y z : number) :
  JS.lt x y = true -> JS.lt y z = true -> JS.lt x z = true.
Proof. destruct x, y, z; intros; num_order. Qed.

Lemma le_lt_trans (x y z : number) :
  JS.le x y = true -> JS.lt y z = true -> JS.lt x z = true.
Proof. destruct x, y, z; intros; num_order. Qed.

Lemma sgn_pos (r : R) : (0 < r)%R -> JS.sgn r = Gt.
Proof. intros; unfold JS.sgn; destruct_decs; try lra; reflexivity. Qed.

Lemma sgn_zero : JS.sgn 0 = Eq.
Proof. unfold JS.sgn; destruct_decs; try lra; reflexivity. Qed.

Lemma div_Fin (a b : R) : (0 < b)%R -> JS.div (Fin a) (Fin b) = Fin (a / b).
Proof. intros; simpl; rewrite sgn_pos by assumption; reflexivity. Qed.

(** ** The loop and its results *)

Lemma forOffers_app request offers : forall results,
  forOffers request offers results =
  (rs <- forOffers request offers [] ;; Ok (results ++ rs)).
Proof.
  induction offers as [|o rest IH]; intros results; simpl.
  - now rewrite app_nil_r.
  - destruct (matchOffer request o) as [s|]; simpl; [|reflexivity].
    destruct s; try apply IH.
    rewrite IH, (IH [m]).
    destruct (forOffers request rest []) as [rs|]; simpl; [|reflexivity].
    now rewrite <- app_assoc.
Qed.

(** The results pushed for a list of offers, when no turn throws. *)
Lemma forOffers_cons request o rest :
  forOffers request (o :: rest) [] =
  (s <- matchOffer request o ;;
   rs <- forOffers request rest [] ;;
   Ok (match s with Push m => m :: rs | _ => rs end)).
Proof.
  simpl. destruct (matchOffer request o) as [s|]; simpl; [|reflexivity].
  rewrite forOffers_app.
  destruct (forOffers request rest []); simpl; [|reflexivity].
  destruct s; reflexivity.
Qed.

Lemma forOffers_In request offers : forall rs m,
  forOffers request offers [] = Ok rs ->
  In m rs ->
  exists o, In o offers /\ matchOffer request o = Ok (Push m).
Proof.
  induction offers as [|o rest IH]; intros rs m.
  - simpl. intros [= <-] [].
  - rewrite forOffers_cons.
    destruct (matchOffer request o) as [s|] eqn:Hs; simpl; [|discriminate].
    destruct (forOffers request rest []) as [rs'|]; simpl; [|discriminate].
    intros [= <-] Hin.
    assert (Hrest : In m rs' -> exists o', In o' (o :: rest) /\
                                   matchOffer request o' = Ok (Push m)).
    { intros H. destruct (IH rs' m eq_refl H) as (o' & ? & ?).
      exists o'; split; [now right | assumption]. }
    destruct s; auto.
    destruct Hin as [<- | Hin]; auto.
    exists o; split; [now left | assumption].
Qed.

Lemma sort_insert_In {A} (f : A -> A -> number) x l y :
  In y (sort_insert f x l) <-> y = x \/ In y l.
Proof.
  induction l as [|z l IH]; simpl.
  - intuition.
  - destruct (SortCompare f x z); simpl; rewrite ?IH; intuition.
Qed.

Lemma Array_sort_In {A} (f : A -> A -> number) l y :
  In y (Array_sort f l) <-> In y l.
Proof.
  induction l as [|x l IH]; simpl; [tauto|].
  rewrite sort_insert_In, IH. intuition.
Qed.

Lemma findMatches_In offers request currentTime res m :
  findMatches offers request currentTime = Ok res ->
  In m res ->
  exists o, In o offers /\ matchOffer request o = Ok (Push m).
Proof.
  unfold findMatches.
  destruct (forOffers request offers []) as [rs|] eqn:Hrs; simpl; [|discriminate].
  intros [= <-] Hin. apply Array_sort_In in Hin.
  eapply forOffers_In; eauto.
Qed.

(** A pushed result carries the offer of its turn. *)
Lemma matchOffer_Push_offer request o m :
  matchOffer request o = Ok (Push m) -> offer m = o.
Proof.
  unfold matchOffer.
  repeat match goal with
         | |- context [if ?c then _ else _] => destruct c; try discriminate
         | |- context [bind ?x _] => destruct x; simpl; try discriminate
         end.
  now intros [= <-].
Qed.

(** ** The time window *)

Section TimeWindow.

Lemma IZR_sub_lt (a b c : Z) (r : R) :
  r = IZR c -> ((IZR a < IZR b + - r)%R <-> (a < b - c)%Z).
Proof.
  intros ->. rewrite <- opp_IZR, <- plus_IZR. split; [apply lt_IZR | apply IZR_lt].
Qed.

Lemma IZR_add_lt (a b c : Z) (r : R) :
  r = IZR c -> ((IZR b + r < IZR a)%R <-> (b + c < a)%Z).
Proof.
  intros ->. rewrite <- plus_IZR. split; [apply lt_IZR | apply IZR_lt].
Qed.

(** The window in numbers, around [getTime()] of the request. *)
Lemma window_bounds request :
  windowStart request
  = (getTime (RideRequest.departureTime request) - num (tolerance request))%js
  /\ windowEnd request
     = (getTime (RideRequest.departureTime request) + num (tolerance request))%js.
Proof.
  unfold windowStart, windowEnd, tolerance, requestedTime, timeMarginMinutes, num.
  destruct (RideRequest.rideNow request); cbn [JS.mul];
    split; do 2 f_equal; simpl; lra.
Qed.

(** The filter on the time values: two dates are compared as integers,
    and no comparison with an Invalid Date holds. *)
Lemma timeFilter_cases request o :
  timeFilter request o =
  match RideRequest.departureTime request, RideOffer.departureTime o with
  | Date_of T, Date_of t =>
      ((t <? T - tolerance request) || (t >? T + tolerance request))%Z
  | _, _ => false
  end.
Proof.
  unfold timeFilter. destruct (window_bounds request) as [-> ->].
  destruct (RideRequest.departureTime request) as [|T],
    (RideOffer.departureTime o) as [|t]; try reflexivity.
  unfold getTime, num, JS.gt. cbn [JS.sub JS.add JS.neg]. f_equal.
  - apply Bool.eq_true_iff_eq. rewrite lt_Fin, Z.ltb_lt.
    now apply IZR_sub_lt.
  - apply Bool.eq_true_iff_eq. rewrite lt_Fin, Z.gtb_ltb, Z.ltb_lt.
    now apply IZR_add_lt.
Qed.

Lemma timeFilter_dates request o (T t : Z) :
  RideRequest.departureTime request = Date_of T ->
  RideOffer.departureTime o = Date_of t ->
  (timeFilter request o = false
   <-> (T - tolerance request <= t <= T + tolerance request)%Z).
Proof.
  intros ET Et. rewrite timeFilter_cases, ET, Et.
  rewrite orb_false_iff, Z.ltb_ge, Z.gtb_ltb, Z.ltb_ge. tauto.
Qed.

Lemma timeFilter_Invalid_Date request o :
  RideRequest.departureTime request = Invalid_Date
  \/ RideOffer.departureTime o = Invalid_Date ->
  timeFilter request o = false.
Proof.
  intros [E|E]; rewrite timeFilter_cases, E; [reflexivity|].
  destruct (RideRequest.departureTime request); reflexivity.
Qed.

Lemma timeFilter_same_instant request o (T : Z) :
  RideRequest.departureTime request = Date_of T ->
  RideOffer.departureTime o = Date_of T ->
  timeFilter request o = false.
Proof.
  intros ET Et. apply (timeFilter_dates _ _ T T ET Et).
  unfold tolerance. destruct (RideRequest.rideNow request); lia.
Qed.

End TimeWindow.

(** ** Great-circle distance on finite coordinates *)

Section Haversine.
Local Open Scope R_scope.

Lemma sin_half_sq (x : R) : sin (x / 2) * sin (x / 2) = (1 - cos x) / 2.
Proof.
  replace (cos x) with (cos (2 * (x / 2))) by (f_equal; field).
  rewrite cos_2a_sin. field.
Qed.

Lemma hav_a_dot φ1 λ1 φ2 λ2 :
  hav_a φ1 λ1 φ2 λ2 =
  (1 - (sin (rad φ1) * sin (rad φ2)
        + cos (rad φ1) * cos (rad φ2) * cos (rad (λ2 - λ1)))) / 2.
Proof.
  unfold hav_a.
  rewrite sin_half_sq.
  replace (cos (rad φ1) * cos (rad φ2)
           * sin (rad (λ2 - λ1) / 2) * sin (rad (λ2 - λ1) / 2))
    with (cos (rad φ1) * cos (rad φ2)
          * (sin (rad (λ2 - λ1) / 2) * sin (rad (λ2 - λ1) / 2))) by ring.
  rewrite sin_half_sq.
  replace (rad (φ2 - φ1)) with (rad φ2 - rad φ1) by (unfold rad; field).
  rewrite cos_minus. field.
Qed.

Lemma hav_a_bounds φ1 λ1 φ2 λ2 : 0 <= hav_a φ1 λ1 φ2 λ2 <= 1.
Proof.
  rewrite hav_a_dot.
  set (s1 := sin (rad φ1)). set (s2 := sin (rad φ2)).
  set (c1 := cos (rad φ1)). set (c2 := cos (rad φ2)).
  set (t := cos (rad (λ2 - λ1))).
  assert (H1 : s1 * s1 + c1 * c1 = 1)
    by (unfold s1, c1; pose proof (sin2_cos2 (rad φ1)) as H;
        unfold Rsqr in H; lra).
  assert (H2 : s2 * s2 + c2 * c2 = 1)
    by (unfold s2, c2; pose proof (sin2_cos2 (rad φ2)) as H;
        unfold Rsqr in H; lra).
  assert (Ht : -1 <= t <= 1) by apply COS_bound.
  pose proof (Rle_0_sqr (s1 - s2)) as Q1. pose proof (Rle_0_sqr (c1 - c2)) as Q2.
  pose proof (Rle_0_sqr (s1 + s2)) as Q3. pose proof (Rle_0_sqr (c1 + c2)) as Q4.
  unfold Rsqr in Q1, Q2, Q3, Q4.
  assert (A1 : 0 <= 1 - (s1 * s2 + c1 * c2)) by lra.
  assert (A2 : 0 <= 1 + (s1 * s2 + c1 * c2)) by lra.
  assert (B1 : 0 <= 1 - (s1 * s2 - c1 * c2)) by lra.
  assert (B2 : 0 <= 1 + (s1 * s2 - c1 * c2)) by lra.
  assert (P1 : 0 <= (1 + t) * (1 - (s1 * s2 + c1 * c2))) by (apply Rmult_le_pos; lra).
  assert (P2 : 0 <= (1 - t) * (1 - (s1 * s2 - c1 * c2))) by (apply Rmult_le_pos; lra).
  assert (P3 : 0 <= (1 + t) * (1 + (s1 * s2 + c1 * c2))) by (apply Rmult_le_pos; lra).
  assert (P4 : 0 <= (1 - t) * (1 + (s1 * s2 - c1 * c2))) by (apply Rmult_le_pos; lra).
  split; lra.
Qed.

Lemma atan2_sqrt (a : R) :
  0 <= a <= 1 ->
  JS.Math_atan2 (JS.Math_sqrt (Fin a)) (JS.Math_sqrt (Fin (1 + - a)))
  = Fin (half_angle a).
Proof.
  intros Ha. unfold JS.Math_sqrt, half_angle.
  destruct (Rlt_dec a 0) as [|_]; [lra|].
  destruct (Rlt_dec (1 + - a) 0) as [|_]; [lra|].
  cbn [JS.Math_atan2].
  replace (1 + - a) with (1 - a) by ring.
  destruct (Rlt_dec a 1) as [Hlt|Hge].
  - rewrite sgn_pos by (apply sqrt_lt_R0; lra). reflexivity.
  - replace a with 1 by lra. replace (1 - 1) with 0 by ring.
    rewrite sqrt_0, sqrt_1, sgn_zero, sgn_pos by lra. reflexivity.
Qed.

Lemma haversineDistance_Fin φ1 λ1 φ2 λ2 :
  haversineDistance (mkCoordinate (Fin φ1) (Fin λ1))
                    (mkCoordinate (Fin φ2) (Fin λ2))
  = Fin (6371000 * (2 * half_angle (hav_a φ1 λ1 φ2 λ2))).
Proof.
  pose proof (hav_a_bounds φ1 λ1 φ2 λ2) as Hb.
  unfold haversineDistance, num, JS.Math_PI. cbn [lat lon JS.sub JS.neg JS.add JS.mul].
  rewrite !div_Fin by lra.
  cbn [JS.Math_sin JS.Math_cos JS.mul JS.add JS.sub JS.neg].
  change (φ2 + - φ1) with (φ2 - φ1). change (λ2 + - λ1) with (λ2 - λ1).
  fold (rad (φ2 - φ1)) (rad (λ2 - λ1)) (rad φ1) (rad φ2).
  fold (hav_a φ1 λ1 φ2 λ2).
  rewrite atan2_sqrt by assumption. reflexivity.
Qed.

Lemma half_angle_bounds (a : R) : 0 <= a <= 1 -> 0 <= half_angle a <= PI / 2.
Proof.
  intros Ha. unfold half_angle. pose proof PI_RGT_0.
  destruct (Rlt_dec a 1); [|lra].
  pose proof (atan_bound (sqrt a / sqrt (1 - a))).
  split; [|lra].
  rewrite <- atan_0. 
  assert (0 <= sqrt a / sqrt (1 - a)).
  { apply Rmult_le_pos; [apply sqrt_pos|]. left.
    apply Rinv_0_lt_compat, sqrt_lt_R0. lra. }
  destruct H1 as [H1| <-]; [left; now apply atan_increasing | right; reflexivity].
Qed.

Lemma half_angle_zero (a : R) : 0 <= a <= 1 -> (half_angle a = 0 <-> a = 0).
Proof.
  intros Ha. unfold half_angle. pose proof PI_RGT_0.
  destruct (Rlt_dec a 1); [|split; intros; lra].
  assert (Hs : 0 < sqrt (1 - a)) by (apply sqrt_lt_R0; lra).
  split.
  - intros H0. apply atan_eq0 in H0.
    assert (sqrt a = 0).
    { unfold Rdiv in H0. apply Rmult_integral in H0.
      destruct H0 as [|H0]; [assumption|].
      pose proof (Rinv_0_lt_compat _ Hs). lra. }
    apply sqrt_eq_0 in H1; lra.
  - intros ->. rewrite sqrt_0. unfold Rdiv. rewrite Rmult_0_l. apply atan_0.
Qed.

Lemma hav_a_sym φ1 λ1 φ2 λ2 : hav_a φ1 λ1 φ2 λ2 = hav_a φ2 λ2 φ1 λ1.
Proof.
  rewrite !hav_a_dot.
  replace (rad (λ1 - λ2)) with (- rad (λ2 - λ1)) by (unfold rad; field).
  rewrite cos_neg. field.
Qed.

Lemma hav_a_self φ λ : hav_a φ λ φ λ = 0.
Proof.
  unfold hav_a, rad. replace (φ - φ) with 0 by ring. replace (λ - λ) with 0 by ring.
  replace (0 * PI / 180 / 2) with 0 by field. rewrite sin_0. ring.
Qed.

Lemma half_angle_0 : half_angle 0 = 0.
Proof. apply half_angle_zero; lra. Qed.



Lemma rad_le (x y : R) : x <= y -> rad x <= rad y.
Proof.
  intros H. unfold rad. pose proof PI_RGT_0.
  apply Rmult_le_compat_r; [lra|]. apply Rmult_le_compat_r; lra.
Qed.


Lemma rad_180 : rad 180 = PI.
Proof. unfold rad; field. Qed.




Lemma haversineDistance_sym φ1 λ1 φ2 λ2 :
  haversineDistance (mkCoordinate (Fin φ1) (Fin λ1))
                    (mkCoordinate (Fin φ2) (Fin λ2))
  = haversineDistance (mkCoordinate (Fin φ2) (Fin λ2))
                      (mkCoordinate (Fin φ1) (Fin λ1)).
Proof. rewrite !haversineDistance_Fin. now rewrite hav_a_sym. Qed.

Lemma haversineDistance_self φ λ :
  haversineDistance (mkCoordinate (Fin φ) (Fin λ)) (mkCoordinate (Fin φ) (Fin λ))
  = num 0.
Proof.
  rewrite haversineDistance_Fin, hav_a_self, half_angle_0.
  unfold num. f_equal. ring.
Qed.


End Haversine.

(** ** Nearest waypoint *)

Section Nearest.
Variable point : Coordinate.

Local Abbreviation dist_to node := (haversineDistance point node).

Lemma not_lt_Infinity_lt (x y : number) :
  JS.lt x Infinity = false -> JS.lt x y = false.
Proof. destruct x, y; intros; num_order. Qed.

Lemma not_lt_Infinity_le (x y : number) :
  JS.lt x Infinity = false -> JS.lt y Infinity = true -> JS.le x y = false.
Proof. destruct x, y; intros; num_order. Qed.

Lemma nearest_inv_step route seen node rest i :
  route = seen ++ node :: rest ->
  nearest_inv point seen i ->
  exists i', scan point route i node (Z.of_nat (List.length seen)) = Ok i' /\
             nearest_inv point (seen ++ [node]) i' /\
             (if JS.lt (dist_to node) (bestDist point route i)
              then dist_to node else bestDist point route i)
             = bestDist point route i'.
Proof.
  intros Hroute Hinv.
  assert (Hnode : nth_error route (List.length seen) = Some node).
  { subst route. rewrite nth_error_app2 by lia. now rewrite Nat.sub_diag. }
  assert (Hget : Array_get route (Z.of_nat (List.length seen)) = Some node).
  { unfold Array_get. destruct (Z.ltb_spec (Z.of_nat (List.length seen)) 0); [lia|].
    now rewrite Nat2Z.id. }
  assert (Hidx : (Z.of_nat (List.length seen) >=? 0)%Z = true) by (apply Z.geb_le; lia).
  destruct Hinv as [[-> Hall] | (best & Hi & Hbest & Hfin & Hmin & Hfirst)].
  - unfold scan, bestDist. simpl.
    destruct (JS.lt (dist_to node) Infinity) eqn:Hlt; eexists;
      (split; [reflexivity|]); split.
    + right. exists node. rewrite Nat2Z.id.
      split; [lia|]. split; [rewrite nth_error_app2 by lia; now rewrite Nat.sub_diag|].
      split; [assumption|]. split.
      * intros n Hn. apply in_app_or in Hn. destruct Hn as [Hn|[<-|[]]].
        -- apply not_lt_Infinity_lt. now apply Hall.
        -- apply lt_irrefl.
      * intros j n Hj Hn. rewrite nth_error_app1 in Hn by assumption.
        apply not_lt_Infinity_le; [|assumption]. apply Hall. eapply nth_error_In; eauto.
    + rewrite Hidx, Hget. reflexivity.
    + left. split; [reflexivity|]. intros n Hn.
      apply in_app_or in Hn. destruct Hn as [Hn|[<-|[]]]; auto.
    + reflexivity.
  - assert (Hlen : (Z.to_nat i < List.length seen)%nat).
    { apply nth_error_Some. congruence. }
    assert (Hget' : Array_get route i = Some best).
    { unfold Array_get. destruct (Z.ltb_spec i 0); [lia|].
      subst route. now rewrite nth_error_app1 by assumption. }
    assert (Hge : (i >=? 0)%Z = true) by (apply Z.geb_le; lia).
    unfold scan, bestDist. rewrite Hge, Hget'. simpl.
    destruct (JS.lt (dist_to node) (dist_to best)) eqn:Hlt; eexists;
      (split; [reflexivity|]); split.
    + right. exists node. rewrite Nat2Z.id.
      split; [lia|]. split; [rewrite nth_error_app2 by lia; now rewrite Nat.sub_diag|].
      split; [eapply lt_trans; eauto|]. split.
      * intros n Hn. apply in_app_or in Hn. destruct Hn as [Hn|[<-|[]]].
        -- destruct (JS.lt (dist_to n) (dist_to node)) eqn:E; [|reflexivity].
           rewrite <- (Hmin n Hn). symmetry. eapply lt_trans; eauto.
        -- apply lt_irrefl.
      * intros j n Hj Hn. rewrite nth_error_app1 in Hn by assumption.
        destruct (JS.le (dist_to n) (dist_to node)) eqn:E; [|reflexivity].
        rewrite <- (Hmin n (nth_error_In _ _ Hn)). symmetry. eapply le_lt_trans; eauto.
    + rewrite Hidx, Hget. reflexivity.
    + right. exists best. split; [assumption|].
      split; [now rewrite nth_error_app1 by assumption|].
      split; [assumption|]. split.
      * intros n Hn. apply in_app_or in Hn. destruct Hn as [Hn|[<-|[]]]; auto.
      * intros j n Hj Hn. rewrite nth_error_app1 in Hn by lia. eauto.
    + rewrite Hge, Hget'. reflexivity.
Qed.

Lemma nearest_scan route : forall rest seen i,
  route = seen ++ rest ->
  nearest_inv point seen i ->
  exists i',
    reduce_from (scan point route) rest (Z.of_nat (List.length seen)) i = Ok i'
    /\ nearest_inv point route i'
    /\ fold_left (fun minDist node =>
                    if JS.lt (dist_to node) minDist then dist_to node else minDist)
                 rest (bestDist point route i)
       = bestDist point route i'.
Proof.
  induction rest as [|node rest IH]; intros seen i Hroute Hinv.
  - rewrite app_nil_r in Hroute. subst seen. exists i. simpl. auto.
  - destruct (nearest_inv_step _ _ _ _ _ Hroute Hinv) as (i1 & Hs & Hinv1 & Hd1).
    destruct (IH (seen ++ [node]) i1) as (i' & Hr & Hinv' & Hd').
    { now rewrite <- app_assoc. }
    { assumption. }
    exists i'. simpl. rewrite Hs. simpl.
    rewrite List.length_app, Nat2Z.inj_add in Hr. simpl in Hr.
    split; [exact Hr|]. split; [assumption|].
    rewrite Hd1. exact Hd'.
Qed.

Lemma nearestWaypointIndex_spec route :
  exists i, nearestWaypointIndex point route = Ok i /\
            nearest_inv point route i /\
            minDistanceToRoute point route = bestDist point route i.
Proof.
  destruct (nearest_scan route route [] (-1)%Z eq_refl) as (i & H1 & H2 & H3).
  { left. split; [reflexivity|]. intros ? []. }
  exists i. split; [exact H1|]. split; [exact H2|]. exact H3.
Qed.

End Nearest.

(** ** One turn of the loop *)

Lemma matchOffer_turn request o :
  exists p d,
    nearestWaypointIndex (RideRequest.from request) (RideOffer.route o) = Ok p /\
    nearestWaypointIndex (RideRequest.to request) (RideOffer.route o) = Ok d /\
    matchOffer request o = Ok (turn request o p d).
Proof.
  destruct (nearestWaypointIndex_spec (RideRequest.from request) (RideOffer.route o))
    as (p & Hp & _).
  destruct (nearestWaypointIndex_spec (RideRequest.to request) (RideOffer.route o))
    as (d & Hd & _).
  exists p, d. split; [assumption|]. split; [assumption|].
  unfold matchOffer, turn, seatsFilter, timeFilter, walkFilter, detourFilter,
    scoreOf, detourMinutes, pickupDistance, dropoffDistance.
  rewrite Hp, Hd. simpl.
  repeat match goal with
         | |- context [if ?c then _ else _] => destruct c; try reflexivity
         end.
Qed.

Lemma matchOffer_total request o : exists s, matchOffer request o = Ok s.
Proof. destruct (matchOffer_turn request o) as (p & d & _ & _ & H). eauto. Qed.

Lemma forOffers_total request offers :
  exists rs, forOffers request offers [] = Ok rs.
Proof.
  induction offers as [|o rest [rs IH]].
  - exists []. reflexivity.
  - rewrite forOffers_cons. destruct (matchOffer_total request o) as [s ->].
    rewrite IH. simpl. eauto.
Qed.

Lemma findMatches_total offers request currentTime :
  exists res, findMatches offers request currentTime = Ok res.
Proof.
  unfold findMatches. destruct (forOffers_total request offers) as [rs ->].
  simpl. eauto.
Qed.

(** An offer is in the results only through a turn that pushed it. *)
Lemma findMatches_offer offers request currentTime res m :
  findMatches offers request currentTime = Ok res ->
  In m res ->
  In (offer m) offers /\ matchOffer request (offer m) = Ok (Push m).
Proof.
  intros Hres Hin.
  destruct (findMatches_In _ _ _ _ _ Hres Hin) as (o & Ho & Hm).
  rewrite (matchOffer_Push_offer _ _ _ Hm). auto.
Qed.

Lemma findMatches_excludes offers request currentTime res o :
  findMatches offers request currentTime = Ok res ->
  (forall m, matchOffer request o <> Ok (Push m)) ->
  forall m, In m res -> offer m <> o.
Proof.
  intros Hres Hno m Hin <-.
  destruct (findMatches_offer _ _ _ _ _ Hres Hin) as [_ H]. exact (Hno m H).
Qed.

(** ** Sorting by score *)

Lemma SortCompare_Gt a b :
  finiteScore a -> finiteScore b ->
  (SortCompare byScore a b = Gt <-> JS.le (score a) (score b) = false).
Proof.
  unfold finiteScore, finite, SortCompare, byScore, num.
  destruct (score a) as [| | |ra]; try tauto.
  destruct (score b) as [| | |rb]; try tauto.
  intros _ _. cbn [JS.sub JS.neg JS.add].
  unfold JS.gt, JS.lt, JS.le. destruct_decs; split; intros; try congruence; try lra.
Qed.

Lemma ascending_tail a l : ascending (a :: l) -> ascending l.
Proof. simpl. tauto. Qed.

Lemma sort_insert_split {A} (f : A -> A -> number) x l :
  exists l1 l2, l = l1 ++ l2 /\ sort_insert f x l = l1 ++ x :: l2.
Proof.
  induction l as [|y l (l1 & l2 & E1 & E2)].
  - exists [], []. auto.
  - simpl. destruct (SortCompare f x y).
    + exists [], (y :: l). auto.
    + exists [], (y :: l). auto.
    + exists (y :: l1), l2. simpl. now rewrite <- E1, E2.
Qed.

Lemma Array_sort_Forall {A} (P : A -> Prop) f l :
  Forall P l -> Forall P (Array_sort f l).
Proof.
  rewrite !Forall_forall. intros H x Hx. apply H. now apply Array_sort_In in Hx.
Qed.

Lemma SortCompare_not_Gt_trans a b c :
  finiteScore b ->
  SortCompare byScore a b <> Gt -> SortCompare byScore b c <> Gt ->
  SortCompare byScore a c <> Gt.
Proof.
  unfold finiteScore, finite, SortCompare, byScore, num.
  destruct (score b) as [| | |rb]; try tauto. intros _.
  destruct (score a) as [| | |ra], (score c) as [| | |rc];
    cbn [JS.sub JS.neg JS.add]; unfold JS.gt, JS.lt;
    destruct_decs; try congruence; try lra.
Qed.

Lemma SortCompare_antisym a b :
  SortCompare byScore a b = Gt -> SortCompare byScore b a <> Gt.
Proof.
  unfold SortCompare, byScore, num.
  destruct (score a) as [| | |ra], (score b) as [| | |rb];
    cbn [JS.sub JS.neg JS.add]; unfold JS.gt, JS.lt;
    destruct_decs; try congruence; try lra.
Qed.

Lemma notDescending_tail a l : notDescending (a :: l) -> notDescending l.
Proof. simpl. tauto. Qed.

Lemma sort_insert_notDescending x l :
  notDescending l -> notDescending (sort_insert byScore x l).
Proof.
  induction l as [|y l IH]; intros H; simpl; [auto|].
  destruct (SortCompare byScore x y) eqn:E.
  - split; [congruence | exact H].
  - split; [congruence | exact H].
  - specialize (IH (notDescending_tail _ _ H)).
    split; [|exact IH].
    destruct l as [|z l]; simpl.
    + now apply SortCompare_antisym.
    + simpl in H. destruct (SortCompare byScore x z); [| |tauto];
        now apply SortCompare_antisym.
Qed.

Lemma Array_sort_notDescending l : notDescending (Array_sort byScore l).
Proof.
  induction l as [|x l IH]; simpl; [trivial|].
  now apply sort_insert_notDescending.
Qed.

(** Inserting [y] goes the same way with or without an entry [x] of the
    sorted list, when the score of [x] is a real. *)
Lemma sort_insert_skip y x : forall r1 r2,
  finiteScore x -> notDescending (r1 ++ x :: r2) ->
  exists r1' r2',
    sort_insert byScore y (r1 ++ r2) = r1' ++ r2' /\
    sort_insert byScore y (r1 ++ x :: r2) = r1' ++ x :: r2'.
Proof.
  intros r1 r2 Hx. induction r1 as [|z r1 IH]; intros Hnd.
  - simpl in *.
    destruct (SortCompare byScore y x) eqn:E.
    1,2: exists [y], r2; split; [|reflexivity];
      destruct r2 as [|z r2]; [reflexivity|]; simpl;
      destruct Hnd as [Hxz _];
      destruct (SortCompare byScore y z) eqn:E'; try reflexivity;
      exfalso; apply (SortCompare_not_Gt_trans y x z); auto; congruence.
    exists [], (sort_insert byScore y r2). auto.
  - simpl in *.
    destruct (SortCompare byScore y z).
    1,2: exists (y :: z :: r1), r2; auto.
    destruct IH as (r1' & r2' & E1 & E2).
    { destruct Hnd as [_ H]. exact H. }
    exists (z :: r1'), r2'. simpl. now rewrite E1, E2.
Qed.

(** Sorting with or without one entry. *)
Lemma Array_sort_skip x : forall a b,
  finiteScore x ->
  exists r1 r2,
    Array_sort byScore (a ++ b) = r1 ++ r2 /\
    Array_sort byScore (a ++ x :: b) = r1 ++ x :: r2.
Proof.
  induction a as [|y a IH]; intros b Hx.
  - simpl. destruct (sort_insert_split byScore x (Array_sort byScore b))
      as (l1 & l2 & E1 & E2).
    exists l1, l2. auto.
  - simpl. destruct (IH b Hx) as (r1 & r2 & E1 & E2).
    rewrite E1, E2.
    apply sort_insert_skip; [assumption|].
    rewrite <- E2. apply Array_sort_notDescending.
Qed.

(** Ascending order is the absence of a descent when the scores are
    reals. *)
Lemma notDescending_ascending l :
  Forall finiteScore l -> notDescending l -> ascending l.
Proof.
  induction l as [|a l IH]; intros Hf Hn; [exact I|].
  inversion Hf as [|? ? Ha Hl]; subst.
  destruct Hn as [Hab Hn]. split; [|now apply IH].
  destruct l as [|b l]; [exact I|]. inversion Hl; subst.
  destruct (JS.le (score a) (score b)) eqn:E; [reflexivity|].
  apply SortCompare_Gt in E; auto; contradiction.
Qed.

Lemma Array_sort_ascending l :
  Forall finiteScore l -> ascending (Array_sort byScore l).
Proof.
  intros H. apply notDescending_ascending.
  - now apply Array_sort_Forall.
  - apply Array_sort_notDescending.
Qed.

(** ** Finite values *)

Lemma finite_inv x : finite x -> exists r, x = Fin r.
Proof. destruct x; simpl; try tauto. eauto. Qed.

Lemma atan2_NaN_or_Fin y x :
  JS.Math_atan2 y x = NaN \/ exists r, JS.Math_atan2 y x = Fin r.
Proof.
  destruct y, x; simpl; eauto; unfold JS.sgn; destruct_decs; eauto.
Qed.

Lemma haversineDistance_NaN_or_Fin a b :
  haversineDistance a b = NaN \/ exists r, haversineDistance a b = Fin r.
Proof.
  unfold haversineDistance.
  match goal with
  | |- context [JS.Math_atan2 ?y ?x] =>
      destruct (atan2_NaN_or_Fin y x) as [-> | [r ->]]
  end; simpl; eauto.
Qed.

Lemma haversineDistance_finite a b :
  finiteCoordinate a -> finiteCoordinate b ->
  exists r, haversineDistance a b = Fin r /\ (0 <= r)%R.
Proof.
  destruct a as [la lo], b as [lb lob]. unfold finiteCoordinate. simpl.
  intros [Ha1 Ha2] [Hb1 Hb2].
  destruct (finite_inv _ Ha1) as [φ1 ->], (finite_inv _ Ha2) as [λ1 ->],
    (finite_inv _ Hb1) as [φ2 ->], (finite_inv _ Hb2) as [λ2 ->].
  rewrite haversineDistance_Fin. eexists; split; [reflexivity|].
  pose proof (half_angle_bounds _ (hav_a_bounds φ1 λ1 φ2 λ2)). lra.
Qed.

Lemma minDistanceToRoute_finite point route p :
  nearestWaypointIndex point route = Ok p -> (0 <= p)%Z ->
  finite (minDistanceToRoute point route).
Proof.
  intros Hp Hpos.
  destruct (nearestWaypointIndex_spec point route) as (p' & Hp' & Hinv & Hmin).
  rewrite Hp in Hp'. injection Hp' as <-.
  destruct Hinv as [[-> _] | (best & _ & Hbest & Hlt & _)]; [lia|].
  rewrite Hmin. unfold bestDist, Array_get.
  destruct (Z.geb_spec p 0); [|lia]. destruct (Z.ltb_spec p 0); [lia|].
  rewrite Hbest.
  destruct (haversineDistance_NaN_or_Fin point best) as [E | [r E]];
    rewrite E in *; [discriminate | exact I].
Qed.

Lemma detourDistanceToMinutes_Fin (x : R) :
  detourDistanceToMinutes (Fin x) = Fin (x / (30 * 1000 / 60)).
Proof.
  unfold detourDistanceToMinutes, detourDistanceToMinutes_at, num.
  cbn [JS.mul]. rewrite !div_Fin by lra. reflexivity.
Qed.

Lemma turn_Push request o p d m :
  turn request o p d = Push m ->
  seatsFilter o = false /\ timeFilter request o = false /\
  walkFilter request o = false /\ isCorrectDirection p d = true /\
  detourFilter request o = false /\
  m = {| offer := o; score := scoreOf request o |}.
Proof.
  unfold turn.
  destruct (seatsFilter o); [discriminate|].
  destruct (timeFilter request o); [discriminate|].
  destruct (walkFilter request o); [discriminate|].
  destruct (isCorrectDirection p d); [|discriminate]. simpl.
  destruct (detourFilter request o); [discriminate|].
  intros [= <-]. auto 10.
Qed.

Lemma isCorrectDirection_true p d :
  isCorrectDirection p d = true <-> (0 <= p /\ 0 <= d /\ p < d)%Z.
Proof.
  unfold isCorrectDirection. rewrite !andb_true_iff, !Z.geb_le, Z.ltb_lt. tauto.
Qed.

Lemma detourMinutes_NaN_or_Fin request o :
  detourMinutes request o = NaN \/ finite (detourMinutes request o).
Proof.
  unfold detourMinutes, estimateDetourDistance.
  repeat match goal with
         | |- context [haversineDistance ?a ?b] =>
             destruct (haversineDistance_NaN_or_Fin a b) as [-> | [? ->]]
         end;
    cbn [JS.add JS.sub JS.neg];
    try (left; reflexivity).
  right. rewrite detourDistanceToMinutes_Fin. exact I.
Qed.

(** A pushed score is a real or [NaN]. *)
Lemma Push_score_NaN_or_Fin request o m :
  matchOffer request o = Ok (Push m) -> score m = NaN \/ finiteScore m.
Proof.
  intros Hm.
  destruct (matchOffer_turn request o) as (p & d & Hp & Hd & Ht).
  rewrite Ht in Hm. injection Hm as Hm.
  apply turn_Push in Hm. destruct Hm as (_ & _ & _ & Hdir & _ & ->).
  apply isCorrectDirection_true in Hdir. destruct Hdir as (Hp0 & Hd0 & _).
  unfold finiteScore, finite, scoreOf. cbn [score].
  pose proof (minDistanceToRoute_finite _ _ _ Hp Hp0) as F1.
  pose proof (minDistanceToRoute_finite _ _ _ Hd Hd0) as F2.
  unfold pickupDistance, dropoffDistance.
  destruct (finite_inv _ F1) as [r1 ->], (finite_inv _ F2) as [r2 ->].
  destruct (detourMinutes_NaN_or_Fin request o) as [-> | F3].
  - left. reflexivity.
  - right. destruct (finite_inv _ F3) as [r3 ->].
    unfold num. cbn [JS.add JS.mul]. rewrite div_Fin by lra. exact I.
Qed.

(** ** Distances along the equator *)

Section Equator.
Local Open Scope R_scope.

Lemma half_angle_sin_sq (h : R) :
  0 <= h <= PI / 2 -> half_angle (sin h * sin h) = h.
Proof.
  intros Hh. pose proof PI_RGT_0 as Hpi. unfold half_angle.
  assert (Hs : 0 <= sin h) by (apply sin_ge_0; lra).
  destruct (Rlt_dec (sin h * sin h) 1) as [Hlt|Hge].
  - assert (Hh' : h < PI / 2).
    { destruct (Rlt_dec h (PI / 2)); [assumption|].
      replace h with (PI / 2) in Hlt by lra. rewrite sin_PI2 in Hlt. lra. }
    assert (Hc : 0 < cos h) by (apply cos_gt_0; lra).
    rewrite sqrt_square by assumption.
    replace (1 - sin h * sin h) with (cos h * cos h)
      by (pose proof (sin2_cos2 h) as E; unfold Rsqr in E; lra).
    rewrite sqrt_square by lra.
    change (sin h / cos h) with (tan h). apply atan_tan. lra.
  - destruct (Rlt_dec h (PI / 2)) as [Hh'|]; [|lra].
    exfalso. apply Hge.
    assert (sin h < 1).
    { rewrite <- sin_PI2. apply sin_increasing_1; lra. }
    nra.
Qed.

Lemma haversineDistance_equator (x y : R) :
  0 <= y - x <= 180 ->
  haversineDistance (equator x) (equator y) = Fin (arc (y - x)).
Proof.
  intros H. unfold equator. rewrite haversineDistance_Fin. f_equal.
  unfold arc. f_equal.
  assert (E : hav_a 0 x 0 y = sin (rad (y - x) / 2) * sin (rad (y - x) / 2)).
  { unfold hav_a. replace (rad (0 - 0) / 2) with 0 by (unfold rad; field).
    replace (rad 0) with 0 by (unfold rad; field).
    rewrite sin_0, cos_0. ring. }
  rewrite E, half_angle_sin_sq; [field|].
  pose proof (rad_le 0 (y - x) ltac:(lra)) as B1.
  pose proof (rad_le (y - x) 180 ltac:(lra)) as B2.
  rewrite rad_180 in B2. replace (rad 0) with 0 in B1 by (unfold rad; field).
  lra.
Qed.

Lemma haversineDistance_equator_back (x y : R) :
  0 <= y - x <= 180 ->
  haversineDistance (equator y) (equator x) = Fin (arc (y - x)).
Proof.
  intros H. unfold equator. rewrite haversineDistance_sym.
  now apply haversineDistance_equator.
Qed.

Lemma arc_linear (deg : R) : arc deg = deg * (6371000 * PI / 180).
Proof. unfold arc, rad. field. Qed.

(** Bounds on the metres of one degree that decide the comparisons of the
    examples. *)
Lemma arc_unit_bounds : 0 < 6371000 * PI / 180 <= 141578.
Proof. pose proof PI_RGT_0. pose proof PI_4. lra. Qed.

End Equator.

(** ** The loop and one offer more *)

Lemma forOffers_app_offers request l1 l2 :
  forOffers request (l1 ++ l2) [] =
  (a <- forOffers request l1 [] ;; b <- forOffers request l2 [] ;; Ok (a ++ b)).
Proof.
  induction l1 as [|o l1 IH].
  - simpl. destruct (forOffers request l2 []); reflexivity.
  - rewrite <- app_comm_cons, !forOffers_cons, IH.
    destruct (matchOffer request o) as [s|]; simpl; [|reflexivity].
    destruct (forOffers request l1 []) as [a|]; simpl; [|reflexivity].
    destruct (forOffers request l2 []) as [b|]; simpl; [|reflexivity].
    destruct s; reflexivity.
Qed.

Lemma forOffers_pushed request offers : forall rs o m,
  forOffers request offers [] = Ok rs ->
  In o offers -> matchOffer request o = Ok (Push m) -> In m rs.
Proof.
  induction offers as [|o' rest IH]; intros rs o m Hrs Hin Hm; [destruct Hin|].
  rewrite forOffers_cons in Hrs.
  destruct (matchOffer request o') as [s|] eqn:Hs; simpl in Hrs; [|discriminate].
  destruct (forOffers request rest []) as [rs'|]; simpl in Hrs; [|discriminate].
  injection Hrs as <-.
  assert (Hrest : In o rest -> In m rs') by (intros; eapply IH; eauto).
  destruct Hin as [-> | Hin].
  - rewrite Hm in Hs. injection Hs as <-. now left.
  - destruct s; auto. right; auto.
Qed.

Lemma reachesDetourFilter_turn request o :
  reachesDetourFilter request o ->
  matchOffer request o =
  Ok (if detourFilter request o then SkipDetour
      else Push {| offer := o; score := scoreOf request o |}).
Proof.
  intros (Hs & Ht & Hw & p & d & Hp & Hd & Hdir).
  destruct (matchOffer_turn request o) as (p' & d' & Hp' & Hd' & ->).
  rewrite Hp in Hp'. rewrite Hd in Hd'. injection Hp' as <-. injection Hd' as <-.
  unfold turn. now rewrite Hs, Ht, Hw, Hdir.
Qed.

Lemma not_lt_Infinity_NaN a b :
  JS.lt (haversineDistance a b) Infinity = false <-> haversineDistance a b = NaN.
Proof.
  destruct (haversineDistance_NaN_or_Fin a b) as [-> | [r ->]]; simpl;
    split; intros; congruence.
Qed.

(** What the scan returns: the sentinel, or the first of the nearest
    waypoints. *)
Lemma nearest_sentinel_iff point path i :
  nearestWaypointIndex point path = Ok i ->
  (i = (-1)%Z <->
   forall node, In node path -> haversineDistance point node = NaN).
Proof.
  intros Hi.
  destruct (nearestWaypointIndex_spec point path) as (i' & Hi' & Hinv & _).
  rewrite Hi in Hi'. injection Hi' as <-.
  destruct Hinv as [[-> Hall] | (best & Hpos & Hbest & Hlt & _)].
  - split; [|reflexivity]. intros _ node Hn. apply not_lt_Infinity_NaN. auto.
  - split; [lia|]. intros Hall. apply nth_error_In in Hbest.
    rewrite (Hall _ Hbest) in Hlt. discriminate.
Qed.

Lemma nearest_first_minimum point path i :
  nearestWaypointIndex point path = Ok i ->
  i <> (-1)%Z ->
  exists best,
    (0 <= i)%Z /\ nth_error path (Z.to_nat i) = Some best
    /\ haversineDistance point best <> NaN
    /\ (forall node, In node path ->
          JS.lt (haversineDistance point node)
                (haversineDistance point best) = false)
    /\ (forall j node, (j < Z.to_nat i)%nat ->
          nth_error path j = Some node ->
          JS.le (haversineDistance point node)
                (haversineDistance point best) = false).
Proof.
  intros Hi Hne.
  destruct (nearestWaypointIndex_spec point path) as (i' & Hi' & Hinv & _).
  rewrite Hi in Hi'. injection Hi' as <-.
  destruct Hinv as [[-> _] | (best & H0 & Hbest & Hlt & Hmin & Hfirst)];
    [congruence|].
  exists best. repeat split; auto.
  intros E. rewrite E in Hlt. discriminate.
Qed.

Lemma nearest_index_range point path i :
  nearestWaypointIndex point path = Ok i ->
  (-1 <= i < Z.of_nat (List.length path))%Z.
Proof.
  intros Hi.
  destruct (nearestWaypointIndex_spec point path) as (i' & Hi' & Hinv & _).
  rewrite Hi in Hi'. injection Hi' as <-.
  destruct Hinv as [[-> _] | (best & H0 & Hbest & _)]; [lia|].
  assert (Z.to_nat i < List.length path)%nat by (apply nth_error_Some; congruence).
  lia.
Qed.

(** ** Coordinates that are not numbers *)

Lemma sgn_PI : JS.sgn PI = Gt.
Proof. apply sgn_pos, PI_RGT_0. Qed.

Lemma sgn_180 : JS.sgn 180 = Gt.
Proof. apply sgn_pos; lra. Qed.

Lemma sgn_2 : JS.sgn 2 = Gt.
Proof. apply sgn_pos; lra. Qed.

(** A coordinate that is not a pair of reals has no distance to anything. *)
Lemma haversineDistance_nonfinite a b :
  ~ (finiteCoordinate a /\ finiteCoordinate b) -> haversineDistance a b = NaN.
Proof.
  destruct a as [la lo], b as [lb lob]. unfold finiteCoordinate, finite. simpl.
  unfold haversineDistance, num, JS.Math_PI. cbn [lat lon].
  intros H.
  destruct la, lo, lb, lob; try (exfalso; apply H; tauto);
    cbn [JS.sub JS.neg JS.add JS.mul JS.div JS.signed_inf];
    rewrite ?sgn_PI; cbn [JS.sub JS.neg JS.add JS.mul JS.div JS.signed_inf];
    rewrite ?sgn_180; cbn [JS.sub JS.neg JS.add JS.mul JS.div JS.signed_inf];
    rewrite ?sgn_2;
    cbn [JS.sub JS.neg JS.add JS.mul JS.div JS.signed_inf
         JS.Math_sin JS.Math_cos JS.Math_sqrt JS.Math_atan2];
    try reflexivity.
  all: repeat match goal with
              | |- context [JS.sgn ?x] => destruct (JS.sgn x)
              end; reflexivity.
Qed.

Lemma finite_dec x : finite x \/ ~ finite x.
Proof. destruct x; simpl; tauto. Qed.

Lemma finiteCoordinate_dec c : finiteCoordinate c \/ ~ finiteCoordinate c.
Proof.
  unfold finiteCoordinate.
  destruct (finite_dec (lat c)), (finite_dec (lon c)); tauto.
Qed.

Lemma nearest_nonfinite point path :
  ~ finiteCoordinate point -> nearestWaypointIndex point path = Ok (-1)%Z.
Proof.
  intros Hn.
  destruct (nearestWaypointIndex_spec point path) as (i & Hi & _).
  rewrite Hi. f_equal. apply (nearest_sentinel_iff _ _ _ Hi). intros node _.
  apply haversineDistance_nonfinite. tauto.
Qed.

Lemma nonfinite_request_no_push request o m :
  ~ finiteRequest request -> matchOffer request o <> Ok (Push m).
Proof.
  intros Hn Hm.
  destruct (matchOffer_turn request o) as (p & d & Hp & Hd & Ht).
  rewrite Ht in Hm. injection Hm as Hm. apply turn_Push in Hm.
  destruct Hm as (_ & _ & _ & Hdir & _).
  apply isCorrectDirection_true in Hdir.
  unfold finiteRequest in Hn.
  destruct (finiteCoordinate_dec (RideRequest.from request)) as [Hf|Hf].
  - destruct (finiteCoordinate_dec (RideRequest.to request)) as [Hto|Hto]; [tauto|].
    rewrite (nearest_nonfinite _ _ Hto) in Hd. injection Hd as <-. lia.
  - rewrite (nearest_nonfinite _ _ Hf) in Hp. injection Hp as <-. lia.
Qed.

Lemma matchOffer_Push_score request o m :
  matchOffer request o = Ok (Push m) ->
  m = {| offer := o; score := scoreOf request o |}.
Proof.
  intros Hm. destruct (matchOffer_turn request o) as (p & d & _ & _ & Ht).
  rewrite Ht in Hm. injection Hm as Hm. now apply turn_Push in Hm.
Qed.

(** ** The triangle inequality of the great-circle distance *)

Section Triangle.
Local Open Scope R_scope.

Lemma half_angle_asin (a : R) :
  0 <= a <= 1 -> half_angle a = asin (sqrt a).
Proof.
  intros Ha.
  assert (Hs : 0 <= sqrt a <= 1).
  { split; [apply sqrt_pos|]. rewrite <- sqrt_1. apply sqrt_le_1_alt. lra. }
  assert (Hsin : sin (asin (sqrt a)) = sqrt a) by (apply sin_asin; lra).
  assert (Hb : 0 <= asin (sqrt a) <= PI / 2).
  { pose proof (asin_bound (sqrt a)) as B. split; [|lra].
    destruct (Rle_dec 0 (asin (sqrt a))) as [|Hn]; [assumption|].
    exfalso. pose proof PI_RGT_0.
    assert (sin (asin (sqrt a)) < 0) by (apply sin_lt_0_var; lra). lra. }
  rewrite <- (half_angle_sin_sq _ Hb). rewrite Hsin. now rewrite sqrt_sqrt.
Qed.

Lemma central_bounds φ1 λ1 φ2 λ2 : 0 <= central φ1 λ1 φ2 λ2 <= PI.
Proof.
  unfold central.
  pose proof (half_angle_bounds _ (hav_a_bounds φ1 λ1 φ2 λ2)). lra.
Qed.

Lemma cos_central φ1 λ1 φ2 λ2 :
  cos (central φ1 λ1 φ2 λ2) = dot φ1 λ1 φ2 λ2.
Proof.
  unfold central. pose proof (hav_a_bounds φ1 λ1 φ2 λ2) as Hb.
  rewrite cos_2a_sin, (half_angle_asin _ Hb).
  assert (Hs : 0 <= sqrt (hav_a φ1 λ1 φ2 λ2) <= 1).
  { split; [apply sqrt_pos|]. rewrite <- sqrt_1. apply sqrt_le_1_alt. lra. }
  rewrite sin_asin by lra.
  replace (2 * sqrt (hav_a φ1 λ1 φ2 λ2) * sqrt (hav_a φ1 λ1 φ2 λ2))
    with (2 * (sqrt (hav_a φ1 λ1 φ2 λ2) * sqrt (hav_a φ1 λ1 φ2 λ2))) by ring.
  rewrite sqrt_sqrt by lra. rewrite hav_a_dot. unfold dot. field.
Qed.

(** The Gram determinant of three unit vectors is a square. *)
Lemma gram_nonneg (u1 u2 u3 v1 v2 v3 w1 w2 w3 : R) :
  u1 * u1 + u2 * u2 + u3 * u3 = 1 ->
  v1 * v1 + v2 * v2 + v3 * v3 = 1 ->
  w1 * w1 + w2 * w2 + w3 * w3 = 1 ->
  let A := u1 * v1 + u2 * v2 + u3 * v3 in
  let B := v1 * w1 + v2 * w2 + v3 * w3 in
  let C := u1 * w1 + u2 * w2 + u3 * w3 in
  0 <= 1 - A * A - B * B - C * C + 2 * A * B * C.
Proof.
  intros Hu Hv Hw A B C.
  set (D := u1 * (v2 * w3 - v3 * w2) - u2 * (v1 * w3 - v3 * w1)
            + u3 * (v1 * w2 - v2 * w1)).
  assert (E : (u1 * u1 + u2 * u2 + u3 * u3) * (v1 * v1 + v2 * v2 + v3 * v3)
              * (w1 * w1 + w2 * w2 + w3 * w3)
              - (w1 * w1 + w2 * w2 + w3 * w3) * (A * A)
              - (u1 * u1 + u2 * u2 + u3 * u3) * (B * B)
              - (v1 * v1 + v2 * v2 + v3 * v3) * (C * C)
              + 2 * A * B * C = D * D) by (unfold A, B, C, D; ring).
  rewrite Hu, Hv, Hw in E.
  pose proof (Rle_0_sqr D) as HD. unfold Rsqr in HD. lra.
Qed.

Lemma dot_components φ1 λ1 φ2 λ2 :
  dot φ1 λ1 φ2 λ2 =
  (cos (rad φ1) * cos (rad λ1)) * (cos (rad φ2) * cos (rad λ2))
  + (cos (rad φ1) * sin (rad λ1)) * (cos (rad φ2) * sin (rad λ2))
  + sin (rad φ1) * sin (rad φ2).
Proof.
  unfold dot. replace (rad (λ2 - λ1)) with (rad λ2 - rad λ1) by (unfold rad; field).
  rewrite cos_minus. ring.
Qed.

Lemma unit_vector φ λ :
  (cos (rad φ) * cos (rad λ)) * (cos (rad φ) * cos (rad λ))
  + (cos (rad φ) * sin (rad λ)) * (cos (rad φ) * sin (rad λ))
  + sin (rad φ) * sin (rad φ) = 1.
Proof.
  pose proof (sin2_cos2 (rad φ)) as H1. pose proof (sin2_cos2 (rad λ)) as H2.
  unfold Rsqr in *.
  replace (cos (rad φ) * cos (rad λ) * (cos (rad φ) * cos (rad λ))
           + cos (rad φ) * sin (rad λ) * (cos (rad φ) * sin (rad λ))
           + sin (rad φ) * sin (rad φ))
    with (cos (rad φ) * cos (rad φ)
          * (sin (rad λ) * sin (rad λ) + cos (rad λ) * cos (rad λ))
          + sin (rad φ) * sin (rad φ)) by ring.
  rewrite H2. lra.
Qed.

Lemma central_triangle φ1 λ1 φ2 λ2 φ3 λ3 :
  central φ1 λ1 φ3 λ3 <= central φ1 λ1 φ2 λ2 + central φ2 λ2 φ3 λ3.
Proof.
  set (x := central φ1 λ1 φ2 λ2). set (y := central φ2 λ2 φ3 λ3).
  set (z := central φ1 λ1 φ3 λ3).
  pose proof (central_bounds φ1 λ1 φ2 λ2) as Bx. fold x in Bx.
  pose proof (central_bounds φ2 λ2 φ3 λ3) as By. fold y in By.
  pose proof (central_bounds φ1 λ1 φ3 λ3) as Bz. fold z in Bz.
  destruct (Rle_dec PI (x + y)) as [|Hlt]; [lra|].
  destruct (Rle_dec z (x + y)) as [|Hgt]; [assumption|]. exfalso.
  assert (Hcos : cos z < cos (x + y)) by (apply cos_decreasing_1; lra).
  rewrite cos_plus in Hcos.
  pose proof (cos_central φ1 λ1 φ2 λ2) as Ex. fold x in Ex.
  pose proof (cos_central φ2 λ2 φ3 λ3) as Ey. fold y in Ey.
  pose proof (cos_central φ1 λ1 φ3 λ3) as Ez. fold z in Ez.
  assert (Sx : 0 <= sin x) by (apply sin_ge_0; lra).
  assert (Sy : 0 <= sin y) by (apply sin_ge_0; lra).
  pose proof (sin2_cos2 x) as Px. pose proof (sin2_cos2 y) as Py.
  unfold Rsqr in Px, Py.
  pose proof (gram_nonneg _ _ _ _ _ _ _ _ _
                (unit_vector φ1 λ1) (unit_vector φ2 λ2) (unit_vector φ3 λ3)) as G.
  cbv zeta in G. rewrite <- !dot_components in G.
  rewrite <- Ex, <- Ey, <- Ez in G.
  set (A := cos x) in *. set (B := cos y) in *. set (C := cos z) in *.
  set (sx := sin x) in *. set (sy := sin y) in *.
  (* 0 <= sx*sy < A*B - C, while (A*B - C)^2 <= (sx*sy)^2 *)
  assert (Hpos : 0 <= sx * sy) by (apply Rmult_le_pos; assumption).
  assert (Hsq : (A * B - C) * (A * B - C) <= (sx * sy) * (sx * sy)).
  { replace ((sx * sy) * (sx * sy)) with ((sx * sx) * (sy * sy)) by ring.
    replace (sx * sx) with (1 - A * A) by lra.
    replace (sy * sy) with (1 - B * B) by lra. nra. }
  nra.
Qed.

Lemma haversineDistance_central φ1 λ1 φ2 λ2 :
  haversineDistance (mkCoordinate (Fin φ1) (Fin λ1))
                    (mkCoordinate (Fin φ2) (Fin λ2))
  = Fin (6371000 * central φ1 λ1 φ2 λ2).
Proof. apply haversineDistance_Fin. Qed.

Lemma finiteCoordinate_inv c :
  finiteCoordinate c -> exists φ λ, c = mkCoordinate (Fin φ) (Fin λ).
Proof.
  destruct c as [la lo]. intros [H1 H2]. simpl in *.
  destruct (finite_inv _ H1) as [φ ->], (finite_inv _ H2) as [λ ->]. eauto.
Qed.

Lemma add_NaN_r x : JS.add x NaN = NaN.
Proof. destruct x; reflexivity. Qed.

Lemma sub_NaN_r x : JS.sub x NaN = NaN.
Proof. destruct x; reflexivity. Qed.

(** Over the reals the estimate of the detour is never negative. *)
Lemma estimateDetourDistance_not_negative o p q :
  JS.lt (estimateDetourDistance o p q) (num 0) = false.
Proof.
  unfold estimateDetourDistance.
  set (dep := RideOffer.departure o). set (dst := RideOffer.destination o).
  destruct (finiteCoordinate_dec dep) as [Fdep|N];
    [|rewrite !(haversineDistance_nonfinite dep) by tauto; reflexivity].
  destruct (finiteCoordinate_dec dst) as [Fdst|N];
    [|rewrite !(haversineDistance_nonfinite _ dst) by tauto;
      now rewrite sub_NaN_r].
  destruct (finiteCoordinate_dec p) as [Fp|N];
    [|rewrite !(haversineDistance_nonfinite _ p) by tauto; reflexivity].
  destruct (finiteCoordinate_dec q) as [Fq|N];
    [|rewrite !(haversineDistance_nonfinite _ q) by tauto;
      now rewrite add_NaN_r].
  destruct (finiteCoordinate_inv _ Fdep) as (φ0 & λ0 & ->).
  destruct (finiteCoordinate_inv _ Fdst) as (φ3 & λ3 & ->).
  destruct (finiteCoordinate_inv _ Fp) as (φ1 & λ1 & ->).
  destruct (finiteCoordinate_inv _ Fq) as (φ2 & λ2 & ->).
  rewrite !haversineDistance_central. cbn [JS.add JS.sub JS.neg].
  unfold num. apply lt_Fin_false.
  pose proof (central_triangle φ0 λ0 φ1 λ1 φ3 λ3).
  pose proof (central_triangle φ1 λ1 φ2 λ2 φ3 λ3).
  lra.
Qed.

Lemma detourDistanceToMinutes_negative meters :
  JS.lt meters (num 0) = true ->
  JS.lt (detourDistanceToMinutes meters) (num 0) = true.
Proof.
  destruct meters as [| | |r]; try discriminate.
  - intros _. unfold detourDistanceToMinutes, detourDistanceToMinutes_at, num.
    cbn [JS.mul]. rewrite div_Fin by lra. cbn [JS.div].
    rewrite sgn_pos by lra. reflexivity.
  - unfold num. rewrite lt_Fin. intros Hr. rewrite detourDistanceToMinutes_Fin.
    apply lt_Fin. unfold Rdiv. 
    assert (0 < / (30 * 1000 * / 60)) by (apply Rinv_0_lt_compat; lra).
    nra.
Qed.

Lemma negative_passes_detour dm limit :
  JS.lt dm (num 0) = true -> JS.ge limit (num 0) = true ->
  JS.gt dm limit || JS.gt dm (num 5) = false.
Proof.
  unfold JS.gt, JS.ge, num. intros H1 H2. apply orb_false_iff.
  destruct dm as [| | |d]; try discriminate.
  - destruct limit; split; reflexivity.
  - apply lt_Fin in H1. split; [|apply lt_Fin_false; lra].
    destruct limit as [| | |l]; try discriminate; try reflexivity.
    apply le_Fin in H2. apply lt_Fin_false. lra.
Qed.

End Triangle.

(** ** The worked inputs *)

Section Worked.
Local Open Scope R_scope.

Ltac arith :=
  unfold arc, rad, num; pose proof PI_RGT_0; pose proof PI_4; lra.

Ltac fin_cmp :=
  unfold JS.gt, JS.ge;
  repeat first
    [ progress cbv beta iota zeta
    | match goal with
      | |- context [JS.lt (Fin ?a) (Fin ?b)] =>
          first [ rewrite (proj2 (lt_Fin a b)) by arith
                | rewrite (proj2 (lt_Fin_false a b)) by arith ]
      | |- context [JS.le (Fin ?a) (Fin ?b)] =>
          first [ rewrite (proj2 (le_Fin a b)) by arith
                | rewrite (proj2 (le_Fin_false a b)) by arith ]
      | |- context [JS.lt (Fin ?a) Infinity] =>
          change (JS.lt (Fin a) Infinity) with true
      | |- context [JS.lt Infinity (Fin ?a)] =>
          change (JS.lt Infinity (Fin a)) with false
      | |- context [JS.lt NaN ?x] => change (JS.lt NaN x) with false
      | |- context [JS.lt (Fin ?a) NaN] =>
          change (JS.lt (Fin a) NaN) with false
      end ].

Ltac distances :=
  repeat first
    [ rewrite haversineDistance_self
    | rewrite haversineDistance_equator by arith
    | rewrite haversineDistance_equator_back by arith ].

Lemma matchOffer_eval request o p d :
  nearestWaypointIndex (RideRequest.from request) (RideOffer.route o) = Ok p ->
  nearestWaypointIndex (RideRequest.to request) (RideOffer.route o) = Ok d ->
  matchOffer request o = Ok (turn request o p d).
Proof.
  intros Hp Hd.
  destruct (matchOffer_turn request o) as (p' & d' & Hp' & Hd' & ->).
  congruence.
Qed.

Lemma nearest_two point a b :
  nearestWaypointIndex point [a; b] =
  Ok (if JS.lt (haversineDistance point a) Infinity
      then if JS.lt (haversineDistance point b) (haversineDistance point a)
           then 1%Z else 0%Z
      else if JS.lt (haversineDistance point b) Infinity
           then 1%Z else (-1)%Z).
Proof.
  unfold nearestWaypointIndex, Array_reduce. simpl reduce_from.
  destruct (JS.lt (haversineDistance point a) Infinity); reflexivity.
Qed.

Lemma minDistance_two point a b :
  minDistanceToRoute point [a; b] =
  if JS.lt (haversineDistance point a) Infinity
  then if JS.lt (haversineDistance point b) (haversineDistance point a)
       then haversineDistance point b else haversineDistance point a
  else if JS.lt (haversineDistance point b) Infinity
       then haversineDistance point b else Infinity.
Proof.
  unfold minDistanceToRoute. simpl.
  destruct (JS.lt (haversineDistance point a) Infinity); reflexivity.
Qed.

Lemma arc_le (s t : R) : s <= t -> arc s <= arc t.
Proof. intros H. unfold arc. apply Rmult_le_compat_l; [lra | now apply rad_le]. Qed.

Lemma arc_lt (s t : R) : s < t -> arc s < arc t.
Proof.
  intros H. rewrite !arc_linear. pose proof arc_unit_bounds.
  apply Rmult_lt_compat_r; lra.
Qed.

(** Two waypoints on the equator, the pickup at the first and the dropoff
    at the second or beyond it. *)
Lemma equator_route_from (x a b : R) :
  0 <= a - x <= 180 -> 0 <= b - a -> b - x <= 180 ->
  minDistanceToRoute (equator x) [equator a; equator b] = Fin (arc (a - x))
  /\ nearestWaypointIndex (equator x) [equator a; equator b] = Ok 0%Z.
Proof.
  intros H1 H2 H3. rewrite minDistance_two, nearest_two.
  rewrite !haversineDistance_equator by lra.
  rewrite (proj2 (lt_Fin_false (arc (b - x)) (arc (a - x))))
    by (apply arc_le; lra).
  auto.
Qed.

Lemma equator_route_to (y a b : R) :
  0 <= y - b <= 180 -> 0 < b - a -> y - a <= 180 ->
  minDistanceToRoute (equator y) [equator a; equator b] = Fin (arc (y - b))
  /\ nearestWaypointIndex (equator y) [equator a; equator b] = Ok 1%Z.
Proof.
  intros H1 H2 H3. rewrite minDistance_two, nearest_two.
  rewrite !haversineDistance_equator_back by lra.
  rewrite (proj2 (lt_Fin (arc (y - b)) (arc (y - a)))) by (apply arc_lt; lra).
  auto.
Qed.

Lemma haversineDistance_NaN_lat lo b :
  haversineDistance (mkCoordinate NaN lo) b = NaN.
Proof.
  apply haversineDistance_nonfinite. unfold finiteCoordinate. simpl. tauto.
Qed.

Lemma detourMinutes_equator_trip request o :
  RideRequest.from request = equator 0 ->
  RideRequest.to request = equator 0.01 ->
  RideOffer.departure o = equator 0 ->
  RideOffer.destination o = equator 0.01 ->
  detourMinutes request o = Fin 0.
Proof.
  intros E1 E2 E3 E4. unfold detourMinutes, estimateDetourDistance.
  rewrite E1, E2, E3, E4. distances.
  cbn [JS.add JS.sub JS.neg]. rewrite detourDistanceToMinutes_Fin.
  f_equal. unfold arc, rad. field.
Qed.

Ltac eval_turn request o Dp Dd Hdm :=
  unfold turn;
  rewrite (timeFilter_same_instant request o 0%Z eq_refl eq_refl);
  unfold seatsFilter, walkFilter, detourFilter, scoreOf,
    pickupDistance, dropoffDistance;
  rewrite Hdm;
  change (RideRequest.from request) with (equator 0);
  change (RideRequest.to request) with (equator 0.01);
  let r := eval unfold o in (RideOffer.route o) in
  let r' := eval cbn [RideOffer.route] in r in
  change (RideOffer.route o) with r';
  rewrite Dp, Dd;
  change (RideOffer.freeSeats o) with (Fin 1);
  change (RideOffer.maxDetourMinutes o) with (Fin 5);
  change (RideRequest.maxWalkMeters request) with (Fin 500);
  unfold num; cbn [JS.mul JS.add]; rewrite ?div_Fin by lra;
  fin_cmp;
  cbn [orb negb isCorrectDirection Z.geb Z.ltb Z.compare andb];
  cbv iota.

Lemma matchOffer_direct :
  matchOffer rider direct = Ok (Push {| offer := direct; score := Fin 0 |}).
Proof.
  destruct (equator_route_from 0 0 0.01) as [Dp Ip]; try lra.
  destruct (equator_route_to 0.01 0 0.01) as [Dd Id]; try lra.
  rewrite (matchOffer_eval rider direct 0 1 Ip Id).
  eval_turn rider direct Dp Dd
    (detourMinutes_equator_trip rider direct eq_refl eq_refl eq_refl eq_refl).
  do 4 f_equal. unfold arc, rad. field.
Qed.

Lemma matchOffer_walk :
  matchOffer rider walk
  = Ok (Push {| offer := walk; score := Fin (arc 0.001 / 1000) |}).
Proof.
  destruct (equator_route_from 0 0.001 0.01) as [Dp Ip]; try lra.
  destruct (equator_route_to 0.01 0.001 0.01) as [Dd Id]; try lra.
  rewrite (matchOffer_eval rider walk 0 1 Ip Id).
  eval_turn rider walk Dp Dd
    (detourMinutes_equator_trip rider walk eq_refl eq_refl eq_refl eq_refl).
  do 4 f_equal. unfold arc, rad. field.
Qed.

Lemma detourMinutes_malformed : detourMinutes rider malformed = NaN.
Proof.
  unfold detourMinutes, estimateDetourDistance.
  change (RideOffer.departure malformed) with (mkCoordinate NaN (num 0)).
  rewrite !haversineDistance_NaN_lat. reflexivity.
Qed.

Lemma matchOffer_malformed :
  matchOffer rider malformed = Ok (Push {| offer := malformed; score := NaN |}).
Proof.
  destruct (equator_route_from 0 0 0.01) as [Dp Ip]; try lra.
  destruct (equator_route_to 0.01 0 0.01) as [Dd Id]; try lra.
  rewrite (matchOffer_eval rider malformed 0 1 Ip Id).
  eval_turn rider malformed Dp Dd detourMinutes_malformed.
  reflexivity.
Qed.

Lemma findMatches_eval offers request currentTime rs :
  forOffers request offers [] = Ok rs ->
  findMatches offers request currentTime
  = Ok (Array_sort (fun a b => (score a - score b)%js) rs).
Proof. intros H. unfold findMatches. now rewrite H. Qed.

Ltac eval_loop :=
  rewrite ?forOffers_cons, ?matchOffer_direct, ?matchOffer_walk,
    ?matchOffer_malformed;
  reflexivity.

Ltac eval_sort :=
  cbn [Array_sort sort_insert];
  repeat (unfold SortCompare at 1;
          cbn [score directMatch walkMatch malformedMatch
               JS.sub JS.add JS.neg];
          unfold num; fin_cmp; cbn [sort_insert]).

Lemma findMatches_walk_direct :
  findMatches [walk; direct] rider 0%Z = Ok [directMatch; walkMatch].
Proof.
  rewrite (findMatches_eval _ _ _ [walkMatch; directMatch]) by eval_loop.
  eval_sort. reflexivity.
Qed.

Lemma findMatches_walk_malformed_direct :
  findMatches [walk; malformed; direct] rider 0%Z
  = Ok [walkMatch; malformedMatch; directMatch].
Proof.
  rewrite (findMatches_eval _ _ _ [walkMatch; malformedMatch; directMatch])
    by eval_loop.
  eval_sort. reflexivity.
Qed.

Lemma findMatches_direct_malformed :
  findMatches [direct; malformed] rider 0%Z = Ok [directMatch; malformedMatch].
Proof.
  rewrite (findMatches_eval _ _ _ [directMatch; malformedMatch]) by eval_loop.
  eval_sort. reflexivity.
Qed.

Lemma walkMatch_neq_directMatch : walkMatch <> directMatch.
Proof. unfold walkMatch, directMatch, walk, direct. intros [=]. Qed.

Lemma lon2000_bounds : 0 < lon2000 < 1.
Proof.
  unfold lon2000. pose proof PI2_3_2 as Hpi.
  assert (Hd : 0 < 6371000 * PI) by lra.
  split.
  - apply Rdiv_lt_0_compat; lra.
  - apply (Rmult_lt_reg_r (6371000 * PI)); [assumption|].
    unfold Rdiv. rewrite Rmult_assoc, Rinv_l by lra. lra.
Qed.

Lemma arc_lon2000 : arc lon2000 = 2000.
Proof. unfold arc, rad, lon2000. field. apply PI_neq0. Qed.

Lemma roundTrip_reaches : reachesDetourFilter rider2000 roundTrip.
Proof.
  pose proof lon2000_bounds as B.
  destruct (equator_route_from 0 0 lon2000) as [Dp Ip]; try lra.
  destruct (equator_route_to lon2000 0 lon2000) as [Dd Id]; try lra.
  unfold reachesDetourFilter, seatsFilter, walkFilter, pickupDistance,
    dropoffDistance.
  change (RideRequest.from rider2000) with (equator 0).
  change (RideRequest.to rider2000) with (equator lon2000).
  change (RideOffer.route roundTrip) with [equator 0; equator lon2000].
  rewrite Dp, Dd.
  split; [apply le_Fin_false; simpl; lra|].
  split; [exact (timeFilter_same_instant rider2000 roundTrip 0%Z eq_refl eq_refl)|].
  split.
  - unfold JS.gt, num. apply orb_false_iff.
    replace (0 - 0) with 0 by ring.
    replace (lon2000 - lon2000) with 0 by ring.
    split; apply lt_Fin_false; unfold arc, rad;
      replace (6371000 * (0 * PI / 180)) with 0 by field; lra.
  - exists 0%Z, 1%Z. auto.
Qed.

Lemma roundTrip_detour : detourMinutes rider2000 roundTrip = num 8.
Proof.
  pose proof lon2000_bounds as B.
  unfold detourMinutes, estimateDetourDistance.
  change (RideRequest.from rider2000) with (equator 0).
  change (RideRequest.to rider2000) with (equator lon2000).
  change (RideOffer.departure roundTrip) with (equator 0).
  change (RideOffer.destination roundTrip) with (equator 0).
  rewrite !(haversineDistance_self 0 0
            : haversineDistance (equator 0) (equator 0) = num 0).
  rewrite (haversineDistance_equator 0 lon2000) by lra.
  rewrite (haversineDistance_equator_back 0 lon2000) by lra.
  unfold num. cbn [JS.add JS.sub JS.neg]. rewrite detourDistanceToMinutes_Fin.
  f_equal. replace (lon2000 - 0) with lon2000 by ring. rewrite arc_lon2000. field.
Qed.

Lemma riderBack_indices :
  nearestWaypointIndex (RideRequest.from riderBack) (RideOffer.route direct)
  = Ok 1%Z
  /\ nearestWaypointIndex (RideRequest.to riderBack) (RideOffer.route direct)
     = Ok 0%Z.
Proof.
  split.
  - apply (equator_route_to 0.01 0 0.01); lra.
  - apply (equator_route_from 0 0 0.01); lra.
Qed.

(** A route of one waypoint. *)
Lemma nearest_one point w :
  nearestWaypointIndex point [w]
  = Ok (if JS.lt (haversineDistance point w) Infinity then 0%Z else (-1)%Z).
Proof. reflexivity. Qed.

Lemma minDistance_one point w :
  minDistanceToRoute point [w]
  = if JS.lt (haversineDistance point w) Infinity
    then haversineDistance point w else Infinity.
Proof. reflexivity. Qed.

Lemma matchOffer_oneStop : matchOffer hiker oneStop = Ok SkipDirection.
Proof.
  assert (D1 : haversineDistance (equator 0) (equator 0) = Fin 0)
    by apply haversineDistance_self.
  assert (D2 : haversineDistance (equator 0.01) (equator 0) = Fin (arc (0.01 - 0)))
    by (apply haversineDistance_equator_back; lra).
  assert (Ip : nearestWaypointIndex (RideRequest.from hiker)
                 (RideOffer.route oneStop) = Ok 0%Z).
  { change (nearestWaypointIndex (equator 0) [equator 0] = Ok 0%Z).
    rewrite nearest_one, D1. reflexivity. }
  assert (Id : nearestWaypointIndex (RideRequest.to hiker)
                 (RideOffer.route oneStop) = Ok 0%Z).
  { change (nearestWaypointIndex (equator 0.01) [equator 0] = Ok 0%Z).
    rewrite nearest_one, D2. reflexivity. }
  rewrite (matchOffer_eval hiker oneStop 0 0 Ip Id).
  unfold turn.
  rewrite (timeFilter_same_instant hiker oneStop 0%Z eq_refl eq_refl).
  assert (Es : seatsFilter oneStop = false).
  { unfold seatsFilter. apply le_Fin_false. simpl. lra. }
  assert (Ew : walkFilter hiker oneStop = false).
  { unfold walkFilter, pickupDistance, dropoffDistance, JS.gt.
    change (RideRequest.from hiker) with (equator 0).
    change (RideRequest.to hiker) with (equator 0.01).
    change (RideOffer.route oneStop) with [equator 0].
    change (RideRequest.maxWalkMeters hiker) with (Fin 2000).
    rewrite !minDistance_one, D1, D2. cbn [JS.lt].
    apply orb_false_iff. split; apply lt_Fin_false; [lra|].
    rewrite arc_linear. pose proof arc_unit_bounds. nra. }
  rewrite Es, Ew. reflexivity.
Qed.

End Worked.

(** ** An offer at another time *)

Lemma matchOffer_departingAt request o d m :
  matchOffer request o = Ok (Push m) ->
  matchOffer request (departingAt d o)
  = Ok (if timeFilter request (departingAt d o) then SkipTime
        else Push {| offer := departingAt d o; score := score m |}).
Proof.
  intros Hm.
  destruct (matchOffer_turn request o) as (p & i & Hp & Hi & Ht).
  destruct (matchOffer_turn request (departingAt d o))
    as (p' & i' & Hp' & Hi' & ->).
  cbn [departingAt RideOffer.route] in Hp', Hi'.
  rewrite Hp in Hp'. rewrite Hi in Hi'. injection Hp' as <-. injection Hi' as <-.
  rewrite Ht in Hm. injection Hm as Hm. apply turn_Push in Hm.
  destruct Hm as (Hs & _ & Hw & Hdir & Hdet & ->).
  unfold turn.
  assert (Es : seatsFilter (departingAt d o) = seatsFilter o) by reflexivity.
  assert (Ew : walkFilter request (departingAt d o) = walkFilter request o)
    by reflexivity.
  assert (Ed : detourFilter request (departingAt d o) = detourFilter request o)
    by reflexivity.
  assert (Esc : scoreOf request (departingAt d o) = scoreOf request o)
    by reflexivity.
  rewrite Es, Ew, Ed, Esc, Hs, Hw, Hdir, Hdet. reflexivity.
Qed.

(** * The claims *)

(** ** C1: the time window *)

(** C1 (as the code has it).  For a request and an offer whose departure
    times are dates, the time-window filter lets the offer through
    exactly when its departure time lies in the closed interval
    [requested - tol, requested + tol], tol being 5 minutes for a ride-now
    request and 15 minutes otherwise; the two ends are inside.  With an
    Invalid Date on either side no comparison holds and the filter lets
    the offer through.  The turn of the loop ends at the filter exactly
    for an offer with a free seat that the filter stops, and the offer is
    in the result of [findMatches] exactly when it is in the input, gets
    through the time window and gets through the other filters. *)
Theorem time_window_closed_interval request o :
  (forall T t : Z,
      RideRequest.departureTime request = Date_of T ->
      RideOffer.departureTime o = Date_of t ->
      (timeFilter request o = false
       <-> (T - tolerance request <= t <= T + tolerance request)%Z))
  /\ (tolerance request
      = if RideRequest.rideNow request then 300000 else 900000)%Z
  /\ (RideRequest.departureTime request = Invalid_Date
      \/ RideOffer.departureTime o = Invalid_Date ->
      timeFilter request o = false /\ ~ inWindow request o)
  /\ (matchOffer request o = Ok SkipTime
      <-> seatsFilter o = false /\ timeFilter request o = true)
  /\ (forall offers currentTime,
        exists res,
          findMatches offers request currentTime = Ok res
          /\ ((exists m, In m res /\ offer m = o)
              <-> In o offers /\ timeFilter request o = false
                  /\ passesOtherFilters request o))
  /\ (forall (T t : Z) offers currentTime,
        RideRequest.departureTime request = Date_of T ->
        RideOffer.departureTime o = Date_of t ->
        exists res,
          findMatches offers request currentTime = Ok res
          /\ ((exists m, In m res /\ offer m = o)
              <-> In o offers
                  /\ (T - tolerance request <= t <= T + tolerance request)%Z
                  /\ passesOtherFilters request o)).
Proof.
  assert (Hskip : matchOffer request o = Ok SkipTime <->
                  seatsFilter o = false /\ timeFilter request o = true).
  { destruct (matchOffer_turn request o) as (p & d & _ & _ & ->).
    unfold turn.
    destruct (seatsFilter o); [split; [discriminate | intros [? _]; discriminate]|].
    destruct (timeFilter request o); [tauto|].
    split; [|intros [_ ?]; discriminate].
    destruct (walkFilter request o); [discriminate|].
    destruct (negb _); [discriminate|].
    destruct (detourFilter request o); discriminate. }
  assert (Hres : forall offers currentTime,
        exists res,
          findMatches offers request currentTime = Ok res
          /\ ((exists m, In m res /\ offer m = o)
              <-> In o offers /\ timeFilter request o = false
                  /\ passesOtherFilters request o)).
  { intros offers currentTime.
    destruct (forOffers_total request offers) as [rs Hrs].
    assert (E : findMatches offers request currentTime
                = Ok (Array_sort byScore rs))
      by (unfold findMatches; now rewrite Hrs).
    exists (Array_sort byScore rs). split; [exact E|]. split.
    - intros (m & Hm & <-).
      destruct (findMatches_offer _ _ _ _ _ E Hm) as [Hin Hpush].
      split; [assumption|].
      destruct (matchOffer_turn request (offer m)) as (p & d & Hp & Hd & Ht).
      rewrite Ht in Hpush. injection Hpush as Hpush. apply turn_Push in Hpush.
      destruct Hpush as (Hs & Hti & Hw & Hdir & Hdet & _).
      split; [assumption|]. unfold passesOtherFilters. eauto 10.
    - intros (Hin & Hti & Hs & Hw & Hidx & Hdet).
      assert (Hreach : reachesDetourFilter request o)
        by (unfold reachesDetourFilter; auto).
      pose proof (reachesDetourFilter_turn _ _ Hreach) as Hpush.
      rewrite Hdet in Hpush.
      exists {| offer := o; score := scoreOf request o |}. split; [|reflexivity].
      apply Array_sort_In. eapply forOffers_pushed; eauto. }
  split; [intros T t; apply timeFilter_dates|].
  split; [unfold tolerance; destruct (RideRequest.rideNow request); reflexivity|].
  split.
  { intros H. split; [now apply timeFilter_Invalid_Date|].
    intros (T & t & ET & Et & _). destruct H as [H|H]; congruence. }
  split; [exact Hskip|]. split; [exact Hres|].
  intros T t offers currentTime ET Et.
  destruct (Hres offers currentTime) as (res & E & Hiff).
  exists res. split; [exact E|].
  rewrite Hiff, (timeFilter_dates _ _ T t ET Et). tauto.
Qed.

(** C1, at the two ends of the window of [rider], 5 minutes: [direct]
    leaving 300000 ms after or before the requested time is returned,
    leaving one millisecond later or earlier it is not. *)
Lemma time_window_witness :
  findMatches [departingAt 300000%Z direct] rider 0%Z
  = Ok [{| offer := departingAt 300000%Z direct; score := Fin 0 |}]
  /\ findMatches [departingAt 300001%Z direct] rider 0%Z = Ok []
  /\ findMatches [departingAt (-300000)%Z direct] rider 0%Z
     = Ok [{| offer := departingAt (-300000)%Z direct; score := Fin 0 |}]
  /\ findMatches [departingAt (-300001)%Z direct] rider 0%Z = Ok [].
Proof.
  assert (H : forall t : Z,
             timeFilter rider (departingAt t direct) = false
             <-> (0 - 300000 <= t <= 0 + 300000)%Z).
  { intros t.
    exact (proj1 (time_window_closed_interval rider (departingAt t direct))
             0%Z t eq_refl eq_refl). }
  assert (Hin : forall t : Z, (0 - 300000 <= t <= 0 + 300000)%Z ->
             findMatches [departingAt t direct] rider 0%Z
             = Ok [{| offer := departingAt t direct; score := Fin 0 |}]).
  { intros t Ht. unfold findMatches. rewrite forOffers_cons.
    rewrite (matchOffer_departingAt _ _ t _ matchOffer_direct).
    rewrite (proj2 (H t) Ht). reflexivity. }
  assert (Hout : forall t : Z, ~ (0 - 300000 <= t <= 0 + 300000)%Z ->
             findMatches [departingAt t direct] rider 0%Z = Ok []).
  { intros t Ht. unfold findMatches. rewrite forOffers_cons.
    rewrite (matchOffer_departingAt _ _ t _ matchOffer_direct).
    destruct (timeFilter rider (departingAt t direct)) eqn:E; [reflexivity|].
    elim Ht. now apply H. }
  split; [apply Hin; lia|]. split; [apply Hout; lia|].
  split; [apply Hin; lia | apply Hout; lia].
Defined.

(** C1 fails for a departure time that is an Invalid Date: [getTime()] is
    [NaN], neither comparison of the filter holds, and the offer is
    returned though its departure time lies in no interval. *)
Lemma invalid_date_passes_time_window :
  RideOffer.departureTime (departingAt Invalid_Date direct) = Invalid_Date
  /\ ~ inWindow rider (departingAt Invalid_Date direct)
  /\ timeFilter rider (departingAt Invalid_Date direct) = false
  /\ findMatches [departingAt Invalid_Date direct] rider 0%Z
     = Ok [{| offer := departingAt Invalid_Date direct; score := Fin 0 |}]
  /\ ~ (forall request o, timeFilter request o = false <-> inWindow request o).
Proof.
  assert (Hn : ~ inWindow rider (departingAt Invalid_Date direct)).
  { intros (T & t & _ & Et & _). discriminate. }
  assert (Hf : timeFilter rider (departingAt Invalid_Date direct) = false).
  { apply timeFilter_Invalid_Date. now right. }
  split; [reflexivity|]. split; [exact Hn|]. split; [exact Hf|]. split.
  - unfold findMatches. rewrite forOffers_cons.
    rewrite (matchOffer_departingAt _ _ Invalid_Date _ matchOffer_direct), Hf.
    reflexivity.
  - intros H. apply Hn. now apply H.
Qed.

(** ** C2: the current time *)

(** C2 (as the code has it).  [findMatches] never reads [currentTime]: two
    calls that differ only in it return the same result.  The window is
    built around the departure time of the request. *)
Theorem findMatches_currentTime_unused offers request (t1 t2 : Date) :
  findMatches offers request t1 = findMatches offers request t2
  /\ windowStart request
     = (getTime (RideRequest.departureTime request)
        - num (tolerance request))%js
  /\ windowEnd request
     = (getTime (RideRequest.departureTime request)
        + num (tolerance request))%js.
Proof.
  split; [reflexivity|]. apply window_bounds.
Qed.

(** C2 fails: no offer list and request make the result depend on
    [currentTime]. *)
Lemma currentTime_dependence_refuted :
  ~ exists offers request (t1 t2 : Date),
      findMatches offers request t1 <> findMatches offers request t2.
Proof.
  intros (offers & request & t1 & t2 & H). apply H. reflexivity.
Qed.

(** ** C3: the detour filter *)

(** C3.  For an offer that reached the detour filter, the filter excludes
    it exactly when the detour in minutes exceeds the offer's
    [maxDetourMinutes] or exceeds 5, that is (for numeric bounds) when it
    exceeds the smaller of the two; otherwise the offer is pushed.  A
    detour of 8 minutes is excluded under a limit of 10, one of 4 minutes
    under a limit of 3. *)
Theorem detour_filter_dual_ceiling request o :
  reachesDetourFilter request o ->
  (matchOffer request o = Ok SkipDetour <->
   JS.gt (detourMinutes request o) (RideOffer.maxDetourMinutes o) = true
   \/ JS.gt (detourMinutes request o) (num 5) = true)
  /\ (matchOffer request o <> Ok SkipDetour ->
      matchOffer request o
      = Ok (Push {| offer := o; score := scoreOf request o |}))
  /\ (forall dm M : R,
        detourMinutes request o = Fin dm ->
        RideOffer.maxDetourMinutes o = Fin M ->
        (matchOffer request o = Ok SkipDetour <-> (Rmin M 5 < dm)%R))
  /\ (RideOffer.maxDetourMinutes o = num 10 ->
      detourMinutes request o = num 8 ->
      matchOffer request o = Ok SkipDetour)
  /\ (RideOffer.maxDetourMinutes o = num 3 ->
      detourMinutes request o = num 4 ->
      matchOffer request o = Ok SkipDetour).
Proof.
  intros Hreach. rewrite (reachesDetourFilter_turn _ _ Hreach).
  unfold detourFilter.
  assert (Hiff : forall b : bool,
             Ok (if b then SkipDetour
                 else Push {| offer := o; score := scoreOf request o |})
             = Ok SkipDetour <-> b = true).
  { intros []; split; intros; try reflexivity; discriminate. }
  split; [|split; [|split; [|split]]].
  - rewrite Hiff. apply orb_true_iff.
  - destruct (_ || _); [congruence | reflexivity].
  - intros dm M -> ->. rewrite Hiff, orb_true_iff. unfold JS.gt, num.
    rewrite !lt_Fin. unfold Rmin. destruct (Rle_dec M 5); lra.
  - intros -> ->. apply Hiff, orb_true_iff. right.
    unfold JS.gt, num. apply lt_Fin. lra.
  - intros -> ->. apply Hiff, orb_true_iff. left.
    unfold JS.gt, num. apply lt_Fin. lra.
Qed.

(** C3, at [rider2000] and [roundTrip]: a detour of 8 minutes under a limit
    of 10. *)
Lemma detour_filter_witness : matchOffer rider2000 roundTrip = Ok SkipDetour.
Proof.
  exact (proj1 (proj2 (proj2 (proj2
           (detour_filter_dual_ceiling rider2000 roundTrip roundTrip_reaches))))
           eq_refl roundTrip_detour).
Defined.

(** ** C4: the direction filter *)

(** C4.  With [p] and [d] the nearest-waypoint indices of the pickup and of
    the dropoff, the direction check passes exactly when both are at least
    0 and [p < d]; when [p >= d] the turn pushes nothing and the offer is
    in no result, whatever its distances and detour. *)
Theorem direction_strict_forward request o p d :
  nearestWaypointIndex (RideRequest.from request) (RideOffer.route o) = Ok p ->
  nearestWaypointIndex (RideRequest.to request) (RideOffer.route o) = Ok d ->
  (isCorrectDirection p d = true <-> (0 <= p /\ 0 <= d /\ p < d)%Z)
  /\ ((d <= p)%Z ->
      isCorrectDirection p d = false
      /\ (forall m, matchOffer request o <> Ok (Push m))
      /\ (forall offers currentTime res,
            findMatches offers request currentTime = Ok res ->
            forall m, In m res -> offer m <> o)).
Proof.
  intros Hp Hd. split; [apply isCorrectDirection_true|].
  intros Hle.
  assert (Hdir : isCorrectDirection p d = false).
  { destruct (isCorrectDirection p d) eqn:E; [|reflexivity].
    apply isCorrectDirection_true in E. lia. }
  assert (Hno : forall m, matchOffer request o <> Ok (Push m)).
  { intros m Hm.
    destruct (matchOffer_turn request o) as (p' & d' & Hp' & Hd' & Ht).
    rewrite Hp in Hp'. rewrite Hd in Hd'. injection Hp' as <-. injection Hd' as <-.
    rewrite Ht in Hm. injection Hm as Hm. apply turn_Push in Hm.
    destruct Hm as (_ & _ & _ & E & _). congruence. }
  split; [assumption|]. split; [assumption|].
  intros offers currentTime res Hres.
  now apply (findMatches_excludes _ _ _ _ _ Hres).
Qed.

(** C4, at [riderBack] and [direct]: pickup nearest to waypoint 1, dropoff
    nearest to waypoint 0. *)
Lemma direction_witness :
  isCorrectDirection 1 0 = false
  /\ forall m, matchOffer riderBack direct <> Ok (Push m).
Proof.
  destruct (direction_strict_forward riderBack direct 1 0
              (proj1 riderBack_indices) (proj2 riderBack_indices))
    as [_ H].
  destruct (H ltac:(lia)) as (H1 & H2 & _). split; assumption.
Defined.

(** ** C5: symmetry and zero distance *)

Section C5.
Local Open Scope R_scope.




End C5.

(** ** C6: the nearest waypoint *)

(** C6 (as the code has it).  The scan returns an index [i].  It is [-1]
    exactly when no waypoint has a distance to the point (every distance is
    [NaN]; an empty path is one case).  Otherwise waypoint [i] has a
    distance, no waypoint is nearer, and every waypoint before [i] is
    farther or has no distance.  When every waypoint has a distance, [-1]
    means the empty path, waypoint [i] minimises the distance, and [i] is
    the first index that does. *)
Theorem nearestWaypointIndex_first_minimum point path :
  exists i,
    nearestWaypointIndex point path = Ok i
    /\ (i = (-1)%Z <->
        forall node, In node path -> haversineDistance point node = NaN)
    /\ (i <> (-1)%Z ->
        exists best,
          (0 <= i)%Z /\ nth_error path (Z.to_nat i) = Some best
          /\ haversineDistance point best <> NaN
          /\ (forall node, In node path ->
                JS.lt (haversineDistance point node)
                      (haversineDistance point best) = false)
          /\ (forall j node, (j < Z.to_nat i)%nat ->
                nth_error path j = Some node ->
                JS.le (haversineDistance point node)
                      (haversineDistance point best) = false))
    /\ ((forall node, In node path -> haversineDistance point node <> NaN) ->
        (i = (-1)%Z <-> path = [])
        /\ (path <> [] ->
            exists best,
              (0 <= i)%Z /\ nth_error path (Z.to_nat i) = Some best
              /\ (forall node, In node path ->
                    JS.le (haversineDistance point best)
                          (haversineDistance point node) = true)
              /\ (forall j node, (j < Z.to_nat i)%nat ->
                    nth_error path j = Some node ->
                    JS.lt (haversineDistance point best)
                          (haversineDistance point node) = true))).
Proof.
  destruct (nearestWaypointIndex_spec point path) as (i & Hi & _).
  exists i. split; [assumption|].
  pose proof (nearest_sentinel_iff _ _ _ Hi) as Hsent.
  split; [assumption|].
  split; [now apply nearest_first_minimum|].
  intros Hnum.
  assert (Hempty : i = (-1)%Z <-> path = []).
  { rewrite Hsent. split.
    - intros Hall. destruct path as [|node rest]; [reflexivity|].
      exfalso. apply (Hnum node); [now left|]. apply Hall. now left.
    - intros -> node []. }
  split; [assumption|].
  intros Hne.
  destruct (nearest_first_minimum _ _ _ Hi) as (best & H0 & Hbest & _ & Hmin & Hfirst).
  { rewrite Hempty. assumption. }
  assert (Hfin : forall node, In node path ->
                   exists r, haversineDistance point node = Fin r).
  { intros node Hn.
    destruct (haversineDistance_NaN_or_Fin point node) as [E|E]; [|exact E].
    now elim (Hnum node Hn). }
  exists best. split; [assumption|]. split; [assumption|].
  destruct (Hfin best (nth_error_In _ _ Hbest)) as [rb Eb].
  split.
  - intros node Hn. specialize (Hmin node Hn).
    destruct (Hfin node Hn) as [r E]. rewrite E, Eb in *.
    apply le_Fin. apply lt_Fin_false in Hmin. lra.
  - intros j node Hj Hn. specialize (Hfirst j node Hj Hn).
    destruct (Hfin node (nth_error_In _ _ Hn)) as [r E]. rewrite E, Eb in *.
    apply lt_Fin. apply le_Fin_false in Hfirst. lra.
Qed.

(** C6 fails.  A point whose latitude is not a number has no nearest
    waypoint on a path of one waypoint. *)
Lemma nearest_of_nan_point :
  nearestWaypointIndex (mkCoordinate NaN (num 0)) [equator 0] = Ok (-1)%Z
  /\ [equator 0] <> [].
Proof.
  split; [|discriminate].
  apply nearest_nonfinite. unfold finiteCoordinate. simpl. tauto.
Qed.

(** ** C7: one offer and the others *)

(** C7 (as the code has it).  When no offer of the call, the additional
    offer [m] included, is pushed with the score [NaN], adding [m] to the
    input changes the result by at most one entry, [m]'s own: the other
    entries, their scores and their order are those of the call without
    [m].  The routes, the capacities, the detour limits and the departure
    times are arbitrary, and so is the request. *)
Theorem offer_noninterference request currentTime l1 m l2 :
  (forall o e, In o (l1 ++ m :: l2) ->
               matchOffer request o = Ok (Push e) -> score e <> NaN) ->
  exists r1 r2,
    findMatches (l1 ++ l2) request currentTime = Ok (r1 ++ r2)
    /\ ((forall e, matchOffer request m <> Ok (Push e))
        /\ findMatches (l1 ++ m :: l2) request currentTime = Ok (r1 ++ r2)
        \/ matchOffer request m
           = Ok (Push {| offer := m; score := scoreOf request m |})
           /\ findMatches (l1 ++ m :: l2) request currentTime
              = Ok (r1 ++ {| offer := m; score := scoreOf request m |} :: r2)).
Proof.
  intros Hnan.
  destruct (forOffers_total request l1) as [a Ha].
  destruct (forOffers_total request l2) as [b Hb].
  destruct (matchOffer_total request m) as [s Hs].
  assert (E0 : findMatches (l1 ++ l2) request currentTime
               = Ok (Array_sort byScore (a ++ b))).
  { unfold findMatches. rewrite forOffers_app_offers, Ha, Hb. reflexivity. }
  assert (E1 : findMatches (l1 ++ m :: l2) request currentTime
               = Ok (Array_sort byScore
                       (a ++ match s with Push e => e :: b | _ => b end))).
  { unfold findMatches.
    rewrite forOffers_app_offers, forOffers_cons, Ha, Hs, Hb. reflexivity. }
  destruct s as [| | | | |e].
  1-5: exists [], (Array_sort byScore (a ++ b)); split; [exact E0|];
    left; split; [intros e; rewrite Hs; discriminate | exact E1].
  assert (He : e = {| offer := m; score := scoreOf request m |})
    by (now apply matchOffer_Push_score).
  assert (Hfe : finiteScore e).
  { destruct (Push_score_NaN_or_Fin _ _ _ Hs) as [E|F]; [|assumption].
    exfalso. apply (Hnan m e); [|exact Hs|exact E].
    apply in_or_app. right. now left. }
  destruct (Array_sort_skip e a b Hfe) as (r1 & r2 & S0 & S1).
  exists r1, r2. rewrite E0, E1, S0, S1, Hs, <- He. auto.
Qed.

(** C7, at [walk] added in front of [direct]: [walk] is pushed, and
    neither score is [NaN]. *)
Lemma offer_noninterference_witness :
  matchOffer rider walk = Ok (Push walkMatch)
  /\ exists r1 r2,
      findMatches ([] ++ [direct]) rider 0%Z = Ok (r1 ++ r2)
      /\ ((forall e, matchOffer rider walk <> Ok (Push e))
          /\ findMatches ([] ++ walk :: [direct]) rider 0%Z = Ok (r1 ++ r2)
          \/ matchOffer rider walk
             = Ok (Push {| offer := walk; score := scoreOf rider walk |})
             /\ findMatches ([] ++ walk :: [direct]) rider 0%Z
                = Ok (r1 ++ {| offer := walk; score := scoreOf rider walk |}
                         :: r2)).
Proof.
  split; [exact matchOffer_walk|].
  apply (offer_noninterference rider 0%Z [] walk [direct]).
  intros o e [<- | [<- | []]] H.
  - rewrite matchOffer_walk in H. injection H as <-. discriminate.
  - rewrite matchOffer_direct in H. injection H as <-. discriminate.
Defined.

(** C7 fails.  With [malformed] between [walk] and [direct] the two stay in
    input order, [walk] (score 0.11) before [direct] (score 0); without it
    they are sorted, [direct] first.  The result with [malformed] is not
    the result without it plus at most one entry. *)
Lemma malformed_offer_reorders_others :
  findMatches ([walk] ++ [direct]) rider 0%Z = Ok [directMatch; walkMatch]
  /\ findMatches ([walk] ++ malformed :: [direct]) rider 0%Z
     = Ok [walkMatch; malformedMatch; directMatch]
  /\ ~ (exists r1 r2,
          findMatches ([walk] ++ [direct]) rider 0%Z = Ok (r1 ++ r2)
          /\ (findMatches ([walk] ++ malformed :: [direct]) rider 0%Z
              = Ok (r1 ++ r2)
              \/ exists e,
                  findMatches ([walk] ++ malformed :: [direct]) rider 0%Z
                  = Ok (r1 ++ e :: r2))).
Proof.
  split; [exact findMatches_walk_direct|].
  split; [exact findMatches_walk_malformed_direct|].
  cbn [app]. rewrite findMatches_walk_direct, findMatches_walk_malformed_direct.
  intros (r1 & r2 & E & [H | [e H]]).
  - injection E as E. injection H as H. rewrite <- E in H. discriminate.
  - injection E as E. injection H as H.
    destruct r1 as [|x r1]; simpl in *.
    + subst r2. injection H as _ H _. now apply walkMatch_neq_directMatch.
    + injection E as <- E. injection H as H _.
      now apply walkMatch_neq_directMatch.
Qed.

(** ** C8: degenerate routes *)

(** C8 (as the code has it).  An offer whose route has fewer than two
    waypoints never throws and is never pushed: its turn ends at one of
    the first four [continue] statements, and it is in no result.  An
    empty route has the nearest distance [Infinity] and the index [-1].
    On a single waypoint each of the two indices is 0 when the distance
    from the point to the waypoint is a number and [-1] when it is [NaN];
    the two need not be equal, and the direction check fails whatever
    they are. *)
Theorem degenerate_route_excluded request o :
  (List.length (RideOffer.route o) < 2)%nat ->
  (matchOffer request o = Ok SkipSeats \/ matchOffer request o = Ok SkipTime
   \/ matchOffer request o = Ok SkipWalk
   \/ matchOffer request o = Ok SkipDirection)
  /\ (forall offers currentTime,
        exists res, findMatches offers request currentTime = Ok res
                    /\ forall m, In m res -> offer m <> o)
  /\ (RideOffer.route o = [] ->
      pickupDistance request o = Infinity
      /\ dropoffDistance request o = Infinity
      /\ nearestWaypointIndex (RideRequest.from request) (RideOffer.route o)
         = Ok (-1)%Z
      /\ nearestWaypointIndex (RideRequest.to request) (RideOffer.route o)
         = Ok (-1)%Z)
  /\ (forall w, RideOffer.route o = [w] ->
      exists p d,
        nearestWaypointIndex (RideRequest.from request) [w] = Ok p
        /\ nearestWaypointIndex (RideRequest.to request) [w] = Ok d
        /\ (p = 0 \/ p = -1)%Z /\ (d = 0 \/ d = -1)%Z
        /\ (p = (-1)%Z
            <-> haversineDistance (RideRequest.from request) w = NaN)
        /\ (d = (-1)%Z
            <-> haversineDistance (RideRequest.to request) w = NaN)
        /\ isCorrectDirection p d = false).
Proof.
  intros Hlen.
  destruct (matchOffer_turn request o) as (p & d & Hp & Hd & Ht).
  pose proof (nearest_index_range _ _ _ Hp) as Rp.
  pose proof (nearest_index_range _ _ _ Hd) as Rd.
  assert (Hdir : isCorrectDirection p d = false).
  { destruct (isCorrectDirection p d) eqn:E; [|reflexivity].
    apply isCorrectDirection_true in E. lia. }
  assert (Hsteps : matchOffer request o = Ok SkipSeats
                   \/ matchOffer request o = Ok SkipTime
                   \/ matchOffer request o = Ok SkipWalk
                   \/ matchOffer request o = Ok SkipDirection).
  { rewrite Ht. unfold turn. rewrite Hdir. simpl.
    destruct (seatsFilter o); auto. destruct (timeFilter request o); auto.
    destruct (walkFilter request o); auto. }
  split; [assumption|]. split; [|split].
  - intros offers currentTime.
    destruct (findMatches_total offers request currentTime) as [res Hres].
    exists res. split; [assumption|].
    apply (findMatches_excludes _ _ _ _ _ Hres).
    intros m Hm. rewrite Hm in Hsteps.
    destruct Hsteps as [|[|[|]]]; discriminate.
  - intros E. unfold pickupDistance, dropoffDistance. rewrite E. auto.
  - intros w E. rewrite E in *. exists p, d.
    split; [assumption|]. split; [assumption|]. simpl in Rp, Rd.
    split; [lia|]. split; [lia|].
    split; [|split; [|assumption]].
    + rewrite (nearest_sentinel_iff _ _ _ Hp). split.
      * intros H. apply H. now left.
      * intros H node [<- | []]. exact H.
    + rewrite (nearest_sentinel_iff _ _ _ Hd). split.
      * intros H. apply H. now left.
      * intros H node [<- | []]. exact H.
Qed.

(** C8, at [oneStop]: the offer has a seat, leaves in time and its one
    waypoint is within walking distance of both ends of the trip of
    [hiker]; the direction check stops it. *)
Lemma degenerate_route_witness :
  matchOffer hiker oneStop = Ok SkipDirection
  /\ forall offers currentTime,
       exists res, findMatches offers hiker currentTime = Ok res
                   /\ forall m, In m res -> offer m <> oneStop.
Proof.
  split; [exact matchOffer_oneStop|].
  exact (proj1 (proj2 (degenerate_route_excluded hiker oneStop
                         ltac:(simpl; lia)))).
Defined.

(** C8 fails in what it says of a single waypoint: for [riderNowhere],
    whose origin has no latitude, the index of the pickup is [-1] and the
    index of the dropoff is 0. *)
Lemma single_waypoint_indices_differ :
  nearestWaypointIndex (RideRequest.from riderNowhere) [equator 0.01]
  = Ok (-1)%Z
  /\ nearestWaypointIndex (RideRequest.to riderNowhere) [equator 0.01]
     = Ok 0%Z
  /\ ~ (forall request w,
          nearestWaypointIndex (RideRequest.from request) [w] = Ok 0%Z
          /\ nearestWaypointIndex (RideRequest.to request) [w] = Ok 0%Z).
Proof.
  assert (H1 : nearestWaypointIndex (RideRequest.from riderNowhere)
                 [equator 0.01] = Ok (-1)%Z).
  { apply nearest_nonfinite. unfold finiteCoordinate. simpl. tauto. }
  split; [exact H1|]. split.
  - change (RideRequest.to riderNowhere) with (equator 0.01).
    rewrite nearest_one. unfold equator.
    rewrite haversineDistance_self. reflexivity.
  - intros H. destruct (H riderNowhere (equator 0.01)) as [H0 _].
    rewrite H1 in H0. discriminate.
Qed.

(** ** C9: negative detours *)

(** Whether the estimate can be negative is a matter of rounding, which
    the exact arithmetic of this development leaves out: over the reals
    the estimate is never negative, by the triangle inequality of the
    great-circle distance ([estimateDetourDistance_not_negative]).  What
    does not depend on rounding is stated here: [estimateDetourDistance]
    is the sum [toPickup + betweenStops + toDestination - directDistance],
    not clamped; a negative number of metres is a negative number of
    minutes; and the detour filter rejects no negative detour when
    [maxDetourMinutes >= 0], neither of its comparisons holding for it. *)
Lemma negative_detour_unclamped :
  (forall o p q,
      estimateDetourDistance o p q
      = (haversineDistance (RideOffer.departure o) p
         + haversineDistance p q
         + haversineDistance q (RideOffer.destination o)
         - haversineDistance (RideOffer.departure o) (RideOffer.destination o))%js)
  /\ (forall meters limit,
        JS.lt meters (num 0) = true -> JS.ge limit (num 0) = true ->
        JS.lt (detourDistanceToMinutes meters) (num 0) = true
        /\ JS.gt (detourDistanceToMinutes meters) limit
           || JS.gt (detourDistanceToMinutes meters) (num 5) = false).
Proof.
  split; [reflexivity|].
  intros meters limit Hm Hl.
  pose proof (detourDistanceToMinutes_negative _ Hm) as Hn.
  split; [assumption|]. now apply negative_passes_detour.
Qed.

(** ** C10: the order of the result *)

(** C10 (as the code has it).  When no score of the list [findMatches]
    returns is [NaN], the list is in ascending order,
    [score_i <= score_(i+1)] for every adjacent pair.  Each entry is an
    offer of the input with the score
    [detourMinutes * 2 + (pickupDistance + dropoffDistance) / 1000], and
    the list is empty exactly when no offer gets through all the
    filters. *)
Theorem findMatches_ascending offers request currentTime :
  exists res,
    findMatches offers request currentTime = Ok res
    /\ ((forall m, In m res -> score m <> NaN) -> ascending res)
    /\ (forall m, In m res ->
          In (offer m) offers
          /\ matchOffer request (offer m) = Ok (Push m)
          /\ score m
             = (detourMinutes request (offer m) * num 2
                + (pickupDistance request (offer m)
                   + dropoffDistance request (offer m)) / num 1000)%js)
    /\ (res = [] <->
        forall o, In o offers -> forall m, matchOffer request o <> Ok (Push m)).
Proof.
  destruct (forOffers_total request offers) as [rs Hrs].
  exists (Array_sort byScore rs).
  assert (Hres : findMatches offers request currentTime
                 = Ok (Array_sort byScore rs)).
  { unfold findMatches. rewrite Hrs. reflexivity. }
  split; [assumption|].
  split; [|split].
  - intros Hnan. apply notDescending_ascending;
      [|apply Array_sort_notDescending].
    apply Forall_forall. intros m Hm.
    destruct (findMatches_offer _ _ _ _ _ Hres Hm) as [_ Hpush].
    destruct (Push_score_NaN_or_Fin _ _ _ Hpush) as [E|F]; [|assumption].
    exfalso. exact (Hnan m Hm E).
  - intros m Hm.
    destruct (findMatches_offer _ _ _ _ _ Hres Hm) as [Hin Hpush].
    split; [assumption|]. split; [assumption|].
    apply matchOffer_Push_score in Hpush.
    rewrite Hpush at 1. reflexivity.
  - split.
    + intros E o Ho m Hm.
      pose proof (forOffers_pushed _ _ _ _ _ Hrs Ho Hm) as Hin.
      apply (Array_sort_In byScore) in Hin. rewrite E in Hin. destruct Hin.
    + intros Hnone. destruct (Array_sort byScore rs) as [|m res] eqn:E;
        [reflexivity|].
      exfalso. assert (Hm : In m (m :: res)) by now left.
      destruct (findMatches_offer _ _ _ _ _ Hres Hm) as [Hin Hpush].
      exact (Hnone _ Hin _ Hpush).
Qed.

(** C10 fails.  [malformed] is pushed with the score [NaN], and no order
    of a list that holds it is ascending. *)
Lemma nan_score_not_ascending :
  findMatches [direct; malformed] rider 0%Z = Ok [directMatch; malformedMatch]
  /\ score malformedMatch = NaN
  /\ JS.le (score directMatch) (score malformedMatch) = false
  /\ ~ ascending [directMatch; malformedMatch]
  /\ ~ ascending [malformedMatch; directMatch].
Proof.
  split; [exact findMatches_direct_malformed|].
  split; [reflexivity|]. split; [reflexivity|].
  split; simpl; intros [H _]; discriminate.
Qed.

(** * Further properties of the matcher *)

(** ** The loop as a filter *)

Lemma accepted_Push request o :
  accepted request o = true
  <-> matchOffer request o = Ok (Push (matchOf request o)).
Proof.
  unfold accepted. split.
  - destruct (matchOffer request o) as [[| | | | |m]|] eqn:E; try discriminate.
    intros _. now rewrite (matchOffer_Push_score _ _ _ E).
  - now intros ->.
Qed.

Lemma forOffers_pushed_list request offers :
  forOffers request offers [] = Ok (pushed request offers).
Proof.
  unfold pushed. induction offers as [|o rest IH]; [reflexivity|].
  rewrite forOffers_cons, IH. simpl. unfold accepted.
  destruct (matchOffer_total request o) as [s Hs]. rewrite Hs. simpl.
  destruct s; try reflexivity.
  simpl. now rewrite (matchOffer_Push_score _ _ _ Hs).
Qed.

Lemma findMatches_sorted_pushed offers request currentTime :
  findMatches offers request currentTime
  = Ok (Array_sort byScore (pushed request offers)).
Proof. unfold findMatches. now rewrite forOffers_pushed_list. Qed.

Lemma sort_insert_Permutation {A} (f : A -> A -> number) x l :
  Permutation (sort_insert f x l) (x :: l).
Proof.
  induction l as [|y l IH]; simpl; [reflexivity|].
  destruct (SortCompare f x y); try reflexivity.
  rewrite IH. apply perm_swap.
Qed.

Lemma Array_sort_Permutation {A} (f : A -> A -> number) l :
  Permutation (Array_sort f l) l.
Proof.
  induction l as [|x l IH]; simpl; [reflexivity|].
  rewrite sort_insert_Permutation. now constructor.
Qed.

Lemma filter_Permutation {A} (f : A -> bool) l l' :
  Permutation l l' -> Permutation (filter f l) (filter f l').
Proof.
  induction 1; simpl.
  - reflexivity.
  - destruct (f x); [now constructor | assumption].
  - destruct (f x), (f y); try reflexivity. apply perm_swap.
  - etransitivity; eauto.
Qed.

Lemma pushed_Permutation request l l' :
  Permutation l l' -> Permutation (pushed request l) (pushed request l').
Proof. intros H. unfold pushed. now apply Permutation_map, filter_Permutation. Qed.

Lemma pushed_In request offers m :
  In m (pushed request offers)
  <-> exists o, In o offers /\ accepted request o = true /\ m = matchOf request o.
Proof.
  unfold pushed. rewrite in_map_iff. split.
  - intros (o & <- & Ho). apply filter_In in Ho. exists o. tauto.
  - intros (o & Ho & Ha & ->). exists o. rewrite filter_In. auto.
Qed.

(** ** Ascending lists *)

Lemma le_trans_num x y z :
  JS.le x y = true -> JS.le y z = true -> JS.le x z = true.
Proof. destruct x, y, z; intros; num_order. Qed.

Lemma le_antisym_num x y :
  JS.le x y = true -> JS.le y x = true -> x = y.
Proof.
  destruct x, y; intros H1 H2; try discriminate; try reflexivity.
  apply le_Fin in H1. apply le_Fin in H2. f_equal. lra.
Qed.

Lemma ascending_head a l :
  ascending (a :: l) -> forall b, In b l -> JS.le (score a) (score b) = true.
Proof.
  revert a. induction l as [|c l IH]; intros a Hasc b Hb; [destruct Hb|].
  destruct Hasc as [Hac Hl]. destruct Hb as [<- | Hb]; [assumption|].
  eapply le_trans_num; [exact Hac|]. now apply IH.
Qed.

(** Two ascending arrangements of entries with pairwise different scores
    are the same list. *)
Lemma ascending_unique l : forall l',
  ascending l -> ascending l' -> Permutation l l' ->
  NoDup (map score l) -> l = l'.
Proof.
  induction l as [|a l IH]; intros l' Hl Hl' Hp Hnd.
  - now apply Permutation_nil in Hp.
  - destruct l' as [|b l'].
    { symmetry in Hp. now apply Permutation_nil in Hp. }
    assert (Hab : a = b).
    { assert (Ha : In a (b :: l')) by (eapply Permutation_in; [exact Hp | now left]).
      assert (Hb : In b (a :: l))
        by (eapply Permutation_in; [symmetry; exact Hp | now left]).
      destruct Ha as [Ha | Ha]; [now symmetry|].
      destruct Hb as [Hb | Hb]; [assumption|].
      pose proof (ascending_head _ _ Hl' _ Ha) as H1.
      pose proof (ascending_head _ _ Hl _ Hb) as H2.
      pose proof (le_antisym_num _ _ H1 H2) as E.
      simpl in Hnd. inversion Hnd as [|? ? Hnot _]; subst.
      exfalso. apply Hnot. rewrite <- E. now apply in_map. }
    subst b. f_equal. apply IH.
    + eapply ascending_tail; eauto.
    + eapply ascending_tail; eauto.
    + eapply Permutation_cons_inv; eauto.
    + simpl in Hnd. now inversion Hnd.
Qed.

Lemma sorted_pushed_ascending request offers :
  (forall m, In m (pushed request offers) -> score m <> NaN) ->
  ascending (Array_sort byScore (pushed request offers)).
Proof.
  intros Hnan. apply Array_sort_ascending. apply Forall_forall. intros m Hm.
  pose proof (Hnan m Hm) as Hn.
  apply pushed_In in Hm. destruct Hm as (o & _ & Ha & ->).
  apply accepted_Push in Ha.
  destruct (Push_score_NaN_or_Fin _ _ _ Ha); [contradiction | assumption].
Qed.

(** ** The sort keeps the order of equal scores *)

Lemma SortCompare_Gt_differ a b :
  SortCompare byScore a b = Gt -> sameNumber (score b) (score a) = false.
Proof.
  unfold SortCompare, byScore, JS.gt, num.
  destruct (score a) as [| | |x], (score b) as [| | |y]; simpl;
    try discriminate; try reflexivity.
  destruct (Rlt_dec (x + - y) 0); [discriminate|].
  destruct (Rlt_dec 0 (x + - y)); [|discriminate].
  intros _. destruct (Req_dec_T y x); [lra | reflexivity].
Qed.

Lemma sort_insert_withScore s x l :
  withScore s (sort_insert byScore x l) = withScore s (x :: l).
Proof.
  unfold withScore. induction l as [|y l IH]; [reflexivity|].
  simpl sort_insert. destruct (SortCompare byScore x y) eqn:E; try reflexivity.
  apply SortCompare_Gt_differ in E.
  simpl filter at 1. rewrite IH. simpl.
  destruct (sameNumber (score x) s) eqn:Ex; [|reflexivity].
  assert (sameNumber (score y) s = false) as ->; [|reflexivity].
  destruct (score x) as [| | |a], (score y) as [| | |b], s as [| | |c];
    simpl in *; try discriminate; try reflexivity.
  destruct (Req_dec_T a c), (Req_dec_T b a), (Req_dec_T b c);
    try discriminate; try reflexivity. lra.
Qed.

Lemma Array_sort_withScore s l :
  withScore s (Array_sort byScore l) = withScore s l.
Proof.
  induction l as [|x l IH]; [reflexivity|].
  simpl Array_sort. rewrite sort_insert_withScore.
  unfold withScore in *. simpl. now rewrite IH.
Qed.

(** ** The nearest waypoint and its distance *)

Lemma haversineDistance_Fin_nonneg a b r :
  haversineDistance a b = Fin r -> (0 <= r)%R.
Proof.
  intros H.
  destruct (finiteCoordinate_dec a) as [Fa|Na];
    [|rewrite haversineDistance_nonfinite in H by tauto; discriminate].
  destruct (finiteCoordinate_dec b) as [Fb|Nb];
    [|rewrite haversineDistance_nonfinite in H by tauto; discriminate].
  destruct (haversineDistance_finite _ _ Fa Fb) as (r' & E & Hr).
  congruence.
Qed.

Lemma minDistanceToRoute_cases point route :
  exists i, nearestWaypointIndex point route = Ok i /\
    ((i = (-1)%Z /\ minDistanceToRoute point route = Infinity
      /\ forall node, In node route -> haversineDistance point node = NaN)
     \/ (exists best r,
           (0 <= i < Z.of_nat (List.length route))%Z
           /\ nth_error route (Z.to_nat i) = Some best
           /\ haversineDistance point best = Fin r /\ (0 <= r)%R
           /\ minDistanceToRoute point route = Fin r
           /\ forall node, In node route ->
                JS.lt (haversineDistance point node) (Fin r) = false)).
Proof.
  destruct (nearestWaypointIndex_spec point route) as (i & Hi & Hinv & Hmin).
  exists i. split; [assumption|].
  destruct Hinv as [[-> Hall] | (best & H0 & Hbest & Hlt & Hmin' & _)].
  - left. split; [reflexivity|]. split; [exact Hmin|].
    intros node Hn. apply not_lt_Infinity_NaN. now apply Hall.
  - right.
    destruct (haversineDistance_NaN_or_Fin point best) as [E | [r E]];
      [rewrite E in Hlt; discriminate|].
    exists best, r.
    assert (Hlen : (Z.to_nat i < List.length route)%nat).
    { apply nth_error_Some. congruence. }
    split; [lia|]. split; [assumption|]. split; [assumption|].
    split; [eapply haversineDistance_Fin_nonneg; eauto|].
    split.
    + rewrite Hmin. unfold bestDist, Array_get.
      destruct (Z.geb_spec i 0); [|lia]. destruct (Z.ltb_spec i 0); [lia|].
      now rewrite Hbest.
    + intros node Hn. rewrite <- E. now apply Hmin'.
Qed.

(** What a pushed offer went through. *)
Lemma Push_distances request o m :
  matchOffer request o = Ok (Push m) ->
  exists p d,
    pickupDistance request o = Fin p /\ dropoffDistance request o = Fin d
    /\ (0 <= p)%R /\ (0 <= d)%R
    /\ JS.gt (Fin p) (RideRequest.maxWalkMeters request) = false
    /\ JS.gt (Fin d) (RideRequest.maxWalkMeters request) = false
    /\ detourFilter request o = false.
Proof.
  intros Hm.
  destruct (matchOffer_turn request o) as (p & d & Hp & Hd & Ht).
  rewrite Ht in Hm. injection Hm as Hm.
  apply turn_Push in Hm. destruct Hm as (_ & _ & Hw & Hdir & Hdet & _).
  apply isCorrectDirection_true in Hdir. destruct Hdir as (Hp0 & Hd0 & _).
  unfold pickupDistance, dropoffDistance, walkFilter in *.
  destruct (minDistanceToRoute_cases (RideRequest.from request) (RideOffer.route o))
    as (i & Hi & [(-> & _) | (_ & r1 & _ & _ & _ & Hr1 & E1 & _)]);
    [rewrite Hp in Hi; injection Hi as ->; lia|].
  destruct (minDistanceToRoute_cases (RideRequest.to request) (RideOffer.route o))
    as (j & Hj & [(-> & _) | (_ & r2 & _ & _ & _ & Hr2 & E2 & _)]);
    [rewrite Hd in Hj; injection Hj as ->; lia|].
  unfold pickupDistance, dropoffDistance in Hw. rewrite E1, E2 in Hw.
  apply orb_false_iff in Hw. destruct Hw.
  exists r1, r2. auto 10.
Qed.

(** ** A request that asks for less *)

Lemma Push_relax r r' o m :
  RideRequest.from r' = RideRequest.from r ->
  RideRequest.to r' = RideRequest.to r ->
  (timeFilter r o = false -> timeFilter r' o = false) ->
  (walkFilter r o = false -> walkFilter r' o = false) ->
  matchOffer r o = Ok (Push m) -> matchOffer r' o = Ok (Push m).
Proof.
  intros Ef Et Htime Hwalk Hm.
  destruct (matchOffer_turn r o) as (p & d & Hp & Hd & Ht).
  destruct (matchOffer_turn r' o) as (p' & d' & Hp' & Hd' & Ht').
  rewrite Ef in Hp'. rewrite Et in Hd'.
  rewrite Hp in Hp'. rewrite Hd in Hd'. injection Hp' as <-. injection Hd' as <-.
  rewrite Ht in Hm. injection Hm as Hm. apply turn_Push in Hm.
  destruct Hm as (Hs & Hti & Hw & Hdir & Hdet & ->).
  rewrite Ht'. unfold turn.
  rewrite Hs, (Htime Hti), (Hwalk Hw), Hdir. simpl.
  assert (Edm : detourMinutes r' o = detourMinutes r o)
    by (unfold detourMinutes; now rewrite Ef, Et).
  assert (Edet : detourFilter r' o = detourFilter r o)
    by (unfold detourFilter; now rewrite Edm).
  rewrite Edet, Hdet. unfold scoreOf, pickupDistance, dropoffDistance.
  now rewrite Edm, Ef, Et.
Qed.

Lemma findMatches_relax r r' offers t res res' :
  (forall o m, matchOffer r o = Ok (Push m) -> matchOffer r' o = Ok (Push m)) ->
  findMatches offers r t = Ok res -> findMatches offers r' t = Ok res' ->
  forall m, In m res -> In m res'.
Proof.
  intros H Hres Hres' m Hin.
  destruct (findMatches_In _ _ _ _ _ Hres Hin) as (o & Ho & Hm).
  apply H in Hm. rewrite findMatches_sorted_pushed in Hres'.
  injection Hres' as <-. apply Array_sort_In.
  pose proof (forOffers_pushed_list r' offers) as Hp.
  eapply forOffers_pushed; eauto.
Qed.

Lemma gt_le_trans x w w' :
  JS.gt x w = false -> JS.le w w' = true -> JS.gt x w' = false.
Proof. unfold JS.gt. destruct x, w, w'; intros; num_order. Qed.

Lemma walkMatch_score_pos : (0 < arc 0.001 / 1000)%R.
Proof. unfold arc, rad. pose proof PI_RGT_0. lra. Qed.

(** ** The extras on [findMatches] and its helpers *)

(** X1.  The capacity check comes first and reads [freeSeats] alone: the
    turn of an offer ends at it exactly when [freeSeats <= 0], such an
    offer is in no result whatever its other fields, and a [freeSeats]
    that is [NaN] does not stop an offer there. *)
Theorem seats_filter_excludes request o :
  (matchOffer request o = Ok SkipSeats
   <-> JS.le (RideOffer.freeSeats o) (num 0) = true)
  /\ (JS.le (RideOffer.freeSeats o) (num 0) = true ->
      forall offers currentTime,
      exists res, findMatches offers request currentTime = Ok res
                  /\ forall m, In m res -> offer m <> o)
  /\ (RideOffer.freeSeats o = NaN -> matchOffer request o <> Ok SkipSeats).
Proof.
  assert (Hiff : matchOffer request o = Ok SkipSeats
                 <-> JS.le (RideOffer.freeSeats o) (num 0) = true).
  { destruct (matchOffer_turn request o) as (p & d & _ & _ & ->).
    unfold turn, seatsFilter.
    destruct (JS.le (RideOffer.freeSeats o) (num 0)); [tauto|].
    split; [|discriminate].
    repeat match goal with
           | |- context [if ?c then _ else _] => destruct c
           end; discriminate. }
  split; [exact Hiff|]. split.
  - intros Hle offers currentTime.
    destruct (findMatches_total offers request currentTime) as [res Hres].
    exists res. split; [assumption|].
    apply (findMatches_excludes _ _ _ _ _ Hres).
    intros m Hm. apply Hiff in Hle. congruence.
  - intros HN H. apply Hiff in H. rewrite HN in H. discriminate.
Qed.

(** X2.  Every returned offer is within walking distance at both ends:
    its pickup and dropoff distances are finite, not negative, and neither
    is greater than [request.maxWalkMeters]. *)
Theorem matches_within_walking_distance offers request currentTime res m :
  findMatches offers request currentTime = Ok res -> In m res ->
  exists p d,
    pickupDistance request (offer m) = Fin p
    /\ dropoffDistance request (offer m) = Fin d
    /\ (0 <= p)%R /\ (0 <= d)%R
    /\ JS.gt (Fin p) (RideRequest.maxWalkMeters request) = false
    /\ JS.gt (Fin d) (RideRequest.maxWalkMeters request) = false
    /\ forall w, RideRequest.maxWalkMeters request = Fin w ->
                 (p <= w)%R /\ (d <= w)%R.
Proof.
  intros Hres Hin.
  destruct (findMatches_offer _ _ _ _ _ Hres Hin) as [_ Hm].
  destruct (Push_distances _ _ _ Hm) as (p & d & E1 & E2 & Hp & Hd & G1 & G2 & _).
  exists p, d. repeat (split; [assumption|]).
  intros w Hw. rewrite Hw in G1, G2. unfold JS.gt in *.
  apply lt_Fin_false in G1. apply lt_Fin_false in G2. auto.
Qed.

Lemma matches_within_walking_distance_witness :
  exists p d,
    pickupDistance rider (offer walkMatch) = Fin p
    /\ dropoffDistance rider (offer walkMatch) = Fin d
    /\ (0 <= p)%R /\ (0 <= d)%R
    /\ JS.gt (Fin p) (RideRequest.maxWalkMeters rider) = false
    /\ JS.gt (Fin d) (RideRequest.maxWalkMeters rider) = false
    /\ forall w, RideRequest.maxWalkMeters rider = Fin w ->
                 (p <= w)%R /\ (d <= w)%R.
Proof.
  apply (matches_within_walking_distance [walk; direct] rider 0%Z
           [directMatch; walkMatch] walkMatch findMatches_walk_direct).
  simpl. auto.
Defined.

(** X3.  The two scans of a route agree: the distance
    [minDistanceToRoute] returns is the distance to the waypoint whose
    index the [reduce] of [findMatches] returns.  That index is [-1] or an
    index of the route (so [offer.route[bestIdx]] is never [undefined]);
    at [-1] the distance is [Infinity]. *)
Theorem minDistanceToRoute_nearestWaypoint point route :
  exists i,
    nearestWaypointIndex point route = Ok i
    /\ (-1 <= i < Z.of_nat (List.length route))%Z
    /\ (i = (-1)%Z -> minDistanceToRoute point route = Infinity)
    /\ (i <> (-1)%Z ->
        exists best,
          Array_get route i = Some best
          /\ minDistanceToRoute point route = haversineDistance point best
          /\ finite (haversineDistance point best)).
Proof.
  destruct (minDistanceToRoute_cases point route)
    as (i & Hi & [(-> & Hm & _) | (best & r & Hr & Hb & E & _ & Hm & _)]).
  - exists (-1)%Z. split; [assumption|]. split; [lia|].
    split; [auto|]. intros H; now elim H.
  - exists i. split; [assumption|]. split; [lia|]. split; [lia|].
    intros _. exists best. unfold Array_get.
    destruct (Z.ltb_spec i 0); [lia|]. rewrite Hb, Hm, E. simpl. auto.
Qed.

(** X4.  [minDistanceToRoute] returns a minimum and never [NaN]: no
    waypoint is nearer than its result; the result is [Infinity] exactly
    when no waypoint has a distance (the empty route, or every distance
    [NaN]) and otherwise the distance, finite and not negative, of a
    waypoint of the route. *)
Theorem minDistanceToRoute_minimum point route :
  minDistanceToRoute point route <> NaN
  /\ (forall node, In node route ->
        JS.lt (haversineDistance point node) (minDistanceToRoute point route)
        = false)
  /\ (minDistanceToRoute point route = Infinity
      <-> forall node, In node route -> haversineDistance point node = NaN)
  /\ (minDistanceToRoute point route <> Infinity ->
      exists node r, In node route /\ (0 <= r)%R
                     /\ haversineDistance point node = Fin r
                     /\ minDistanceToRoute point route = Fin r).
Proof.
  destruct (minDistanceToRoute_cases point route)
    as (i & Hi & [(-> & Hm & Hall) | (best & r & Hr & Hb & E & Hr0 & Hm & Hmin)]).
  - rewrite Hm. split; [discriminate|]. split.
    { intros node Hn. rewrite (Hall node Hn). reflexivity. }
    split; [tauto|]. intros H; now elim H.
  - rewrite Hm. split; [discriminate|]. split; [exact Hmin|].
    split.
    { split; [discriminate|]. intros Hall.
      rewrite (Hall best) in E by (eapply nth_error_In; eauto). discriminate. }
    intros _. exists best, r. split; [eapply nth_error_In; eauto|]. auto.
Qed.

(** X5.  [haversineDistance] returns [NaN] or a number between 0 and
    half the circumference, [6371000 * PI] metres: never a negative
    number, never an infinity.  With a coordinate that is not a finite
    number it returns [NaN]. *)
Theorem haversineDistance_range a b :
  (haversineDistance a b = NaN
   \/ exists d, haversineDistance a b = Fin d /\ (0 <= d <= 6371000 * PI)%R)
  /\ (~ (finiteCoordinate a /\ finiteCoordinate b) ->
      haversineDistance a b = NaN).
Proof.
  split; [|apply haversineDistance_nonfinite].
  destruct (finiteCoordinate_dec a) as [Fa|Na];
    [|left; apply haversineDistance_nonfinite; tauto].
  destruct (finiteCoordinate_dec b) as [Fb|Nb];
    [|left; apply haversineDistance_nonfinite; tauto].
  right.
  destruct (finiteCoordinate_inv _ Fa) as (φ1 & λ1 & ->).
  destruct (finiteCoordinate_inv _ Fb) as (φ2 & λ2 & ->).
  rewrite haversineDistance_central. eexists; split; [reflexivity|].
  pose proof (central_bounds φ1 λ1 φ2 λ2). nra.
Qed.

(** X6.  The score of a returned entry is [NaN] or bounded by the
    request: at most [10 + 2 * maxWalkMeters / 1000], the detour counting
    for at most twice 5 minutes and each walk for at most
    [maxWalkMeters]; with [offer.maxDetourMinutes] a number [M], at most
    [2 * min(M, 5) + 2 * maxWalkMeters / 1000]. *)
Theorem score_bounds offers request currentTime res m :
  findMatches offers request currentTime = Ok res -> In m res ->
  score m = NaN
  \/ exists s,
       score m = Fin s
       /\ (forall w, RideRequest.maxWalkMeters request = Fin w ->
                     (s <= 10 + 2 * w / 1000)%R)
       /\ (forall w M, RideRequest.maxWalkMeters request = Fin w ->
                       RideOffer.maxDetourMinutes (offer m) = Fin M ->
                       (s <= 2 * Rmin M 5 + 2 * w / 1000)%R).
Proof.
  intros Hres Hin.
  destruct (findMatches_offer _ _ _ _ _ Hres Hin) as [_ Hm].
  destruct (Push_distances _ _ _ Hm) as (p & d & E1 & E2 & Hp & Hd & G1 & G2 & Hdet).
  assert (Es : score m = scoreOf request (offer m))
    by (rewrite (matchOffer_Push_score _ _ _ Hm) at 1; reflexivity).
  rewrite Es. unfold scoreOf. rewrite E1, E2.
  destruct (detourMinutes_NaN_or_Fin request (offer m)) as [E | F].
  { left. rewrite E. reflexivity. }
  right. destruct (finite_inv _ F) as [x Ex].
  unfold detourFilter in Hdet. rewrite Ex in *.
  apply orb_false_iff in Hdet. destruct Hdet as [HM H5].
  unfold JS.gt, num in *. apply lt_Fin_false in H5.
  cbn [JS.mul JS.add]. rewrite div_Fin by lra.
  eexists. split; [reflexivity|]. split.
  - intros w Hw. rewrite Hw in G1, G2.
    apply lt_Fin_false in G1. apply lt_Fin_false in G2. lra.
  - intros w M Hw HMx. rewrite Hw in G1, G2. rewrite HMx in HM.
    apply lt_Fin_false in G1. apply lt_Fin_false in G2. apply lt_Fin_false in HM.
    unfold Rmin. destruct (Rle_dec M 5); lra.
Qed.

Lemma score_bounds_witness :
  score walkMatch = NaN
  \/ exists s,
       score walkMatch = Fin s
       /\ (forall w, RideRequest.maxWalkMeters rider = Fin w ->
                     (s <= 10 + 2 * w / 1000)%R)
       /\ (forall w M, RideRequest.maxWalkMeters rider = Fin w ->
                       RideOffer.maxDetourMinutes (offer walkMatch) = Fin M ->
                       (s <= 2 * Rmin M 5 + 2 * w / 1000)%R).
Proof.
  apply (score_bounds [walk; direct] rider 0%Z [directMatch; walkMatch] walkMatch
           findMatches_walk_direct).
  simpl. auto.
Defined.

(** X7.  The result holds one entry for each accepted offer of the
    input, and nothing else: it is a rearrangement of the entries pushed,
    an offer given twice being returned twice, and it is never longer
    than the input. *)
Theorem findMatches_one_entry_per_accepted_offer offers request currentTime :
  exists res,
    findMatches offers request currentTime = Ok res
    /\ Permutation res (pushed request offers)
    /\ List.length res = List.length (filter (accepted request) offers)
    /\ (List.length res <= List.length offers)%nat
    /\ (forall o, accepted request o = true
                  <-> matchOffer request o = Ok (Push (matchOf request o))).
Proof.
  exists (Array_sort byScore (pushed request offers)).
  split; [apply findMatches_sorted_pushed|].
  assert (P : Permutation (Array_sort byScore (pushed request offers))
                          (pushed request offers))
    by apply Array_sort_Permutation.
  split; [exact P|].
  assert (L : List.length (Array_sort byScore (pushed request offers))
              = List.length (filter (accepted request) offers)).
  { rewrite (Permutation_length P). unfold pushed. apply length_map. }
  split; [exact L|]. split.
  - rewrite L. apply filter_length_le.
  - intros o. apply accepted_Push.
Qed.

(** X8.  The order of the offers does not change which entries are
    returned: the results for two arrangements of the same offers are
    arrangements of each other, and the same list when no score is [NaN]
    and no two entries have the same score. *)
Theorem findMatches_order_independent offers offers' request currentTime :
  Permutation offers offers' ->
  exists res res',
    findMatches offers request currentTime = Ok res
    /\ findMatches offers' request currentTime = Ok res'
    /\ Permutation res res'
    /\ ((forall m, In m res -> score m <> NaN) -> NoDup (map score res) ->
        res = res').
Proof.
  intros HP.
  exists (Array_sort byScore (pushed request offers)),
         (Array_sort byScore (pushed request offers')).
  split; [apply findMatches_sorted_pushed|].
  split; [apply findMatches_sorted_pushed|].
  assert (P : Permutation (Array_sort byScore (pushed request offers))
                          (Array_sort byScore (pushed request offers'))).
  { rewrite !Array_sort_Permutation. now apply pushed_Permutation. }
  split; [exact P|].
  intros Hnan Hnd.
  assert (Hnan1 : forall m, In m (pushed request offers) -> score m <> NaN).
  { intros m Hm. apply Hnan. now apply Array_sort_In. }
  assert (Hnan2 : forall m, In m (pushed request offers') -> score m <> NaN).
  { intros m Hm. apply Hnan1.
    eapply Permutation_in; [symmetry; apply pushed_Permutation; exact HP | exact Hm]. }
  apply ascending_unique; try assumption; now apply sorted_pushed_ascending.
Qed.

Lemma findMatches_order_independent_witness :
  findMatches [walk; direct] rider 0%Z = findMatches [direct; walk] rider 0%Z.
Proof.
  destruct (findMatches_order_independent [walk; direct] [direct; walk] rider 0%Z
              (perm_swap direct walk []))
    as (res & res' & H1 & H2 & _ & H4).
  rewrite H1, H2. f_equal. apply H4.
  - rewrite findMatches_walk_direct in H1. injection H1 as <-.
    intros m [<- | [<- | []]]; discriminate.
  - rewrite findMatches_walk_direct in H1. injection H1 as <-.
    simpl. constructor.
    + intros [H | []]. injection H as H. pose proof walkMatch_score_pos. lra.
    + constructor; [intros [] | constructor].
Defined.

(** X9.  The sort is stable: when no score is [NaN], the returned
    entries of one score are in the order their offers had in the
    input. *)
Theorem findMatches_stable offers request currentTime :
  exists res,
    findMatches offers request currentTime = Ok res
    /\ ((forall m, In m res -> score m <> NaN) ->
        forall s, withScore s res = withScore s (pushed request offers)).
Proof.
  exists (Array_sort byScore (pushed request offers)).
  split; [apply findMatches_sorted_pushed|].
  intros _ s. apply Array_sort_withScore.
Qed.

(** X10.  A request that can wait loses no match: an offer pushed for a
    request with [rideNow] true is pushed, with the same score, for the
    same request with [rideNow] false, so every entry of the first result
    is in the second. *)
Theorem rideNow_false_keeps_matches request :
  (forall o m,
      matchOffer (withRideNow request true) o = Ok (Push m) ->
      matchOffer (withRideNow request false) o = Ok (Push m))
  /\ (forall offers currentTime,
      exists res res',
        findMatches offers (withRideNow request true) currentTime = Ok res
        /\ findMatches offers (withRideNow request false) currentTime = Ok res'
        /\ (forall m, In m res -> In m res')
        /\ (List.length res <= List.length res')%nat).
Proof.
  assert (H : forall o m,
             matchOffer (withRideNow request true) o = Ok (Push m) ->
             matchOffer (withRideNow request false) o = Ok (Push m)).
  { intros o m. apply Push_relax; try reflexivity.
    - rewrite !timeFilter_cases. unfold tolerance.
      cbn [withRideNow RideRequest.rideNow RideRequest.departureTime].
      destruct (RideRequest.departureTime request) as [|T],
        (RideOffer.departureTime o) as [|t]; try reflexivity.
      rewrite !orb_false_iff, !Z.ltb_ge, !Z.gtb_ltb, !Z.ltb_ge. lia.
    - auto. }
  split; [exact H|]. intros offers currentTime.
  exists (Array_sort byScore (pushed (withRideNow request true) offers)),
         (Array_sort byScore (pushed (withRideNow request false) offers)).
  split; [apply findMatches_sorted_pushed|].
  split; [apply findMatches_sorted_pushed|]. split.
  - apply (findMatches_relax (withRideNow request true)
             (withRideNow request false) offers currentTime _ _ H);
      apply findMatches_sorted_pushed.
  - rewrite !(Permutation_length (Array_sort_Permutation _ _)).
    unfold pushed. rewrite !length_map.
    induction offers as [|o rest IH]; [simpl; lia|].
    simpl. destruct (accepted (withRideNow request true) o) eqn:E.
    + apply accepted_Push in E. apply H in E.
      assert (E' : accepted (withRideNow request false) o = true).
      { unfold accepted. now rewrite E. }
      rewrite E'. simpl. lia.
    + destruct (accepted (withRideNow request false) o); simpl; lia.
Qed.

(** X11.  A rider who walks farther loses no match: with
    [maxWalkMeters] raised from [w] to [w'], an offer pushed before is
    pushed still, with the same score. *)
Theorem maxWalkMeters_raised_keeps_matches request w w' :
  JS.le w w' = true ->
  (forall o m,
      matchOffer (withMaxWalkMeters request w) o = Ok (Push m) ->
      matchOffer (withMaxWalkMeters request w') o = Ok (Push m))
  /\ (forall offers currentTime res res',
        findMatches offers (withMaxWalkMeters request w) currentTime = Ok res ->
        findMatches offers (withMaxWalkMeters request w') currentTime = Ok res' ->
        forall m, In m res -> In m res').
Proof.
  intros Hle.
  assert (H : forall o m,
      matchOffer (withMaxWalkMeters request w) o = Ok (Push m) ->
      matchOffer (withMaxWalkMeters request w') o = Ok (Push m)).
  { intros o m. apply Push_relax; try reflexivity; [auto|].
    unfold walkFilter, pickupDistance, dropoffDistance.
    cbn [withMaxWalkMeters RideRequest.maxWalkMeters RideRequest.from RideRequest.to].
    rewrite !orb_false_iff. intros [H1 H2].
    split; eapply gt_le_trans; eauto. }
  split; [exact H|]. intros offers currentTime res res'.
  now apply findMatches_relax.
Qed.

Lemma maxWalkMeters_raised_witness :
  matchOffer (withMaxWalkMeters rider (num 1000)) direct
  = Ok (Push {| offer := direct; score := Fin 0 |}).
Proof.
  assert (Hle : JS.le (num 500) (num 1000) = true) by (apply le_Fin; lra).
  apply (proj1 (maxWalkMeters_raised_keeps_matches rider (num 500) (num 1000) Hle)).
  exact matchOffer_direct.
Defined.

(** X12.  No offer serves a trip and the trip back: an offer pushed for a
    request is stopped by the direction check for the request with [from]
    and [to] exchanged. *)
Theorem reversed_request_rejected request o m :
  matchOffer request o = Ok (Push m) ->
  matchOffer (reversed request) o = Ok SkipDirection.
Proof.
  intros Hm.
  destruct (matchOffer_turn request o) as (p & d & Hp & Hd & Ht).
  destruct (matchOffer_turn (reversed request) o) as (p' & d' & Hp' & Hd' & Ht').
  cbn [reversed RideRequest.from RideRequest.to] in Hp', Hd'.
  rewrite Hd in Hp'. rewrite Hp in Hd'. injection Hp' as <-. injection Hd' as <-.
  rewrite Ht in Hm. injection Hm as Hm. apply turn_Push in Hm.
  destruct Hm as (Hs & Hti & Hw & Hdir & _).
  rewrite Ht'. unfold turn. rewrite Hs.
  assert (E1 : timeFilter (reversed request) o = timeFilter request o) by reflexivity.
  assert (E2 : walkFilter (reversed request) o = walkFilter request o).
  { unfold walkFilter, pickupDistance, dropoffDistance.
    cbn [reversed RideRequest.from RideRequest.to RideRequest.maxWalkMeters].
    apply orb_comm. }
  rewrite E1, E2, Hti, Hw.
  apply isCorrectDirection_true in Hdir.
  assert (E3 : isCorrectDirection d p = false).
  { unfold isCorrectDirection. rewrite !andb_false_iff, Z.ltb_ge. right. lia. }
  now rewrite E3.
Qed.

Lemma reversed_request_witness :
  matchOffer (reversed rider) direct = Ok SkipDirection.
Proof.
  exact (reversed_request_rejected rider direct _ matchOffer_direct).
Defined.

(** X13.  Metres to minutes: at the default 30 km/h a minute is 500
    metres, so the ceiling of 5 minutes is passed exactly by the detours
    of more than 2500 metres; at a speed [v] that is not 0 the result is
    [60 * metres / (1000 * v)]; at the speed 0 nothing throws, the result
    is an infinity of the sign of the detour, or [NaN] for the detour
    0. *)
Theorem detourDistanceToMinutes_conversion :
  (forall x, detourDistanceToMinutes (Fin x) = Fin (x / 500))
  /\ (forall x v, v <> 0%R ->
        detourDistanceToMinutes_at (Fin x) (Fin v) = Fin (60 * x / (1000 * v)))
  /\ (forall x, detourDistanceToMinutes_at (Fin x) (num 0)
                = if Rlt_dec x 0 then NegInfinity
                  else if Rlt_dec 0 x then Infinity else NaN)
  /\ (forall x, JS.gt (detourDistanceToMinutes (Fin x)) (num 5) = true
                <-> (2500 < x)%R)
  /\ detourDistanceToMinutes NaN = NaN
  /\ detourDistanceToMinutes Infinity = Infinity.
Proof.
  split; [|split; [|split; [|split; [|split]]]].
  - intros x. rewrite detourDistanceToMinutes_Fin. f_equal. field.
  - intros x v Hv. unfold detourDistanceToMinutes_at, num. cbn [JS.mul].
    rewrite div_Fin by lra. cbn [JS.div]. unfold JS.sgn.
    destruct (Rlt_dec (v * 1000 / 60) 0); [f_equal; field; lra|].
    destruct (Rlt_dec 0 (v * 1000 / 60)); [f_equal; field; lra|].
    exfalso. apply Hv. lra.
  - intros x. unfold detourDistanceToMinutes_at, num. cbn [JS.mul].
    rewrite div_Fin by lra. cbn [JS.div].
    replace (0 * 1000 / 60)%R with 0%R by field.
    rewrite sgn_zero. unfold JS.signed_inf, JS.sgn.
    destruct (Rlt_dec x 0); [reflexivity|]. destruct (Rlt_dec 0 x); reflexivity.
  - intros x. rewrite detourDistanceToMinutes_Fin. unfold JS.gt, num.
    rewrite lt_Fin. split; intros; lra.
  - reflexivity.
  - unfold detourDistanceToMinutes, detourDistanceToMinutes_at, num. cbn [JS.mul].
    rewrite div_Fin by lra. cbn [JS.div]. rewrite sgn_pos by lra. reflexivity.
Qed.

(** X14.  A request whose [from] or [to] has a coordinate that is not a
    finite number matches nothing: [findMatches] returns the empty list,
    whatever the offers. *)
Theorem nonfinite_request_matches_nothing offers request currentTime :
  ~ finiteRequest request ->
  findMatches offers request currentTime = Ok [].
Proof.
  intros Hn. rewrite findMatches_sorted_pushed.
  assert (E : pushed request offers = []).
  { unfold pushed. induction offers as [|o rest IH]; [reflexivity|].
    simpl. destruct (accepted request o) eqn:Ha; [|exact IH].
    apply accepted_Push in Ha. exfalso.
    eapply nonfinite_request_no_push; eauto. }
  now rewrite E.
Qed.

Lemma nonfinite_request_witness :
  findMatches [direct; walk] riderNowhere 0%Z = Ok [].
Proof.
  apply nonfinite_request_matches_nothing.
  unfold finiteRequest, finiteCoordinate. simpl. tauto.
Defined.

(** ** Limits that are not numbers, and times moved together *)

Lemma sort_insert_map (f : MatchResult -> MatchResult) x l :
  (forall m, score (f m) = score m) ->
  sort_insert byScore (f x) (map f l) = map f (sort_insert byScore x l).
Proof.
  intros Hf. induction l as [|y l IH]; [reflexivity|].
  cbn [sort_insert map].
  assert (E : SortCompare byScore (f x) (f y) = SortCompare byScore x y)
    by (unfold SortCompare, byScore; now rewrite !Hf).
  rewrite E. destruct (SortCompare byScore x y); try reflexivity.
  cbn [map]. now rewrite IH.
Qed.

Lemma Array_sort_map (f : MatchResult -> MatchResult) l :
  (forall m, score (f m) = score m) ->
  Array_sort byScore (map f l) = map f (Array_sort byScore l).
Proof.
  intros Hf. induction l as [|x l IH]; [reflexivity|].
  cbn [Array_sort map]. rewrite IH. now apply sort_insert_map.
Qed.

Lemma turn_later dt request o p d :
  turn (requestLater dt request) (offerLater dt o) p d
  = match turn request o p d with
    | Push m => Push (matchLater dt m)
    | s => s
    end.
Proof.
  unfold turn.
  assert (Es : seatsFilter (offerLater dt o) = seatsFilter o) by reflexivity.
  assert (Et : timeFilter (requestLater dt request) (offerLater dt o)
               = timeFilter request o).
  { rewrite !timeFilter_cases.
    assert (Em : tolerance (requestLater dt request) = tolerance request)
      by reflexivity.
    rewrite Em.
    cbn [requestLater offerLater RideOffer.departureTime
         RideRequest.departureTime].
    destruct (RideRequest.departureTime request) as [|T],
      (RideOffer.departureTime o) as [|t]; try reflexivity.
    cbn [later]. f_equal.
    - apply Bool.eq_true_iff_eq. rewrite !Z.ltb_lt. lia.
    - apply Bool.eq_true_iff_eq. rewrite !Z.gtb_ltb, !Z.ltb_lt. lia. }
  assert (Ew : walkFilter (requestLater dt request) (offerLater dt o)
               = walkFilter request o) by reflexivity.
  assert (Ed : detourFilter (requestLater dt request) (offerLater dt o)
               = detourFilter request o) by reflexivity.
  assert (Esc : scoreOf (requestLater dt request) (offerLater dt o)
                = scoreOf request o) by reflexivity.
  rewrite Es, Et, Ew, Ed, Esc.
  destruct (seatsFilter o); [reflexivity|].
  destruct (timeFilter request o); [reflexivity|].
  destruct (walkFilter request o); [reflexivity|].
  destruct (negb (isCorrectDirection p d)); [reflexivity|].
  destruct (detourFilter request o); reflexivity.
Qed.

Lemma matchOffer_later dt request o :
  matchOffer (requestLater dt request) (offerLater dt o)
  = match matchOffer request o with
    | Ok (Push m) => Ok (Push (matchLater dt m))
    | s => s
    end.
Proof.
  destruct (matchOffer_turn request o) as (p & d & Hp & Hd & ->).
  destruct (matchOffer_turn (requestLater dt request) (offerLater dt o))
    as (p' & d' & Hp' & Hd' & ->).
  cbn [requestLater offerLater RideRequest.from RideRequest.to RideOffer.route]
    in Hp', Hd'.
  rewrite Hp in Hp'. rewrite Hd in Hd'. injection Hp' as <-. injection Hd' as <-.
  rewrite turn_later. destruct (turn request o p d); reflexivity.
Qed.

Lemma accepted_later dt request o :
  accepted (requestLater dt request) (offerLater dt o) = accepted request o.
Proof.
  unfold accepted. rewrite matchOffer_later.
  destruct (matchOffer request o) as [[| | | | |m]|]; reflexivity.
Qed.

Lemma pushed_later dt request offers :
  pushed (requestLater dt request) (map (offerLater dt) offers)
  = map (matchLater dt) (pushed request offers).
Proof.
  unfold pushed. induction offers as [|o rest IH]; [reflexivity|].
  cbn [map filter]. rewrite accepted_later.
  destruct (accepted request o); [|exact IH].
  cbn [map]. rewrite IH. reflexivity.
Qed.

(** X23.  Only the difference of the departure times counts: with the
    request and every offer moved by the same number of milliseconds, the
    result is the same list, each entry for the moved offer and with the
    same score. *)
Theorem times_moved_together offers request currentTime dt :
  exists res,
    findMatches offers request currentTime = Ok res
    /\ findMatches (map (offerLater dt) offers) (requestLater dt request)
                   currentTime
       = Ok (map (matchLater dt) res).
Proof.
  exists (Array_sort byScore (pushed request offers)).
  split; [apply findMatches_sorted_pushed|].
  rewrite findMatches_sorted_pushed, pushed_later. f_equal.
  now apply Array_sort_map.
Qed.

(** X24.  Limits that are not numbers switch their checks off, and a
    negative walking limit lets nothing through.  With
    [request.maxWalkMeters] [NaN] the walking check stops no offer, so an
    offer pushed under any limit is pushed under [NaN]; with
    [offer.maxDetourMinutes] [NaN] only the ceiling of 5 minutes is left
    of the detour check; with [request.maxWalkMeters] negative
    [findMatches] returns the empty list. *)
Theorem limits_not_numbers request o :
  (RideRequest.maxWalkMeters request = NaN -> walkFilter request o = false)
  /\ (forall w m,
        matchOffer (withMaxWalkMeters request w) o = Ok (Push m) ->
        matchOffer (withMaxWalkMeters request NaN) o = Ok (Push m))
  /\ (RideOffer.maxDetourMinutes o = NaN ->
      detourFilter request o = JS.gt (detourMinutes request o) (num 5))
  /\ (JS.lt (RideRequest.maxWalkMeters request) (num 0) = true ->
      forall offers currentTime,
        findMatches offers request currentTime = Ok []).
Proof.
  split; [|split; [|split]].
  - intros E. unfold walkFilter, JS.gt. rewrite E. reflexivity.
  - intros w m. apply Push_relax; try reflexivity. auto.
  - intros E. unfold detourFilter, JS.gt. rewrite E. reflexivity.
  - intros Hneg offers currentTime. rewrite findMatches_sorted_pushed.
    assert (E : pushed request offers = []).
    { unfold pushed. induction offers as [|x rest IH]; [reflexivity|].
      simpl. destruct (accepted request x) eqn:Ha; [|exact IH].
      apply accepted_Push in Ha. exfalso.
      destruct (Push_distances _ _ _ Ha) as (p & d & _ & _ & Hp & _ & G & _).
      unfold JS.gt, num in *.
      destruct (RideRequest.maxWalkMeters request) as [| | |w];
        try discriminate.
      apply lt_Fin in Hneg. apply lt_Fin_false in G. lra. }
    now rewrite E.
Qed.

(** * Further properties of the map component *)

(** ** The Directions helpers *)

Lemma firstRoute_chain body :
  (routes <- optional (Get "routes") body ;; optional GetFirst routes)
  = Ok (firstRoute body).
Proof.
  destruct body as [| | | | | |fields]; try reflexivity.
  simpl. destruct (own fields "routes"); reflexivity.
Qed.

Lemma geometry_chain body :
  (routes <- optional (Get "routes") body ;;
   route <- optional GetFirst routes ;;
   optional (Get "geometry") route)
  = optional (Get "geometry") (firstRoute body).
Proof.
  pose proof (firstRoute_chain body) as H.
  destruct (optional (Get "routes") body) as [routes|]; simpl in *;
    [|discriminate].
  now rewrite H.
Qed.

Lemma optional_Get_Ok key v : exists g, optional (Get key) v = Ok g.
Proof. destruct v; simpl; eauto. Qed.

Lemma ToBoolean_Get key v : ToBoolean v = true -> exists w, Get key v = Ok w.
Proof. destruct v; simpl; try discriminate; eauto. Qed.

(** Seconds to whole minutes, one at least. *)
Lemma round_minutes (s : R) :
  (s < 90 -> Math_max (num 1) (Math_round (Fin s / num 60)%js) = num 1)%R
  /\ (90 <= s ->
      exists z, Math_max (num 1) (Math_round (Fin s / num 60)%js) = num z
                /\ (2 <= z)%Z /\ (IZR z - 1 / 2 <= s / 60 < IZR z + 1 / 2)%R)%R.
Proof.
  unfold num. rewrite div_Fin by lra. unfold Math_round.
  set (z := Zfloor (s / 60 + 1 / 2)).
  pose proof (Zfloor_bound (s / 60 + 1 / 2)) as B. fold z in B.
  split; intros Hs.
  - assert (Hz : (z <= 1)%Z).
    { apply Z.lt_succ_r. apply lt_IZR. simpl. lra. }
    unfold Math_max. destruct (JS.lt (Fin 1) (Fin (IZR z))) eqn:E; [|reflexivity].
    apply lt_Fin in E. apply lt_IZR in E. lia.
  - assert (Hz : (2 <= z)%Z).
    { apply Z.lt_succ_r. apply lt_IZR.
      replace (IZR (Z.succ z)) with (IZR z + 1)%R by (rewrite succ_IZR; ring).
      simpl. lra. }
    exists z. split; [|split; [assumption | lra]].
    unfold Math_max.
    rewrite (proj2 (lt_Fin 1 (IZR z))); [reflexivity|].
    apply IZR_lt. lia.
Qed.

Lemma max_round_cases (d : number) :
  (d = NaN /\ Math_max (num 1) (Math_round (d / num 60)%js) = NaN)
  \/ (d = Infinity /\ Math_max (num 1) (Math_round (d / num 60)%js) = Infinity)
  \/ (exists z, Math_max (num 1) (Math_round (d / num 60)%js) = num z
                /\ (1 <= z)%Z).
Proof.
  destruct d as [| | |s].
  - auto.
  - right. left. unfold num. cbn [JS.div]. rewrite sgn_pos by lra. simpl. auto.
  - right. right. exists 1%Z. unfold num. cbn [JS.div]. rewrite sgn_pos by lra.
    simpl. split; [reflexivity | lia].
  - right. right. destruct (Rlt_dec s 90) as [H|H].
    + exists 1%Z. split; [now apply round_minutes | lia].
    + destruct (proj2 (round_minutes s)) as (z & E & Hz & _); [lra|].
      exists z. split; [assumption | lia].
Qed.

Lemma fetchRouteDurationMinutes_Some fetch from to profile n :
  fetchRouteDurationMinutes fetch from to profile = Fulfilled (Some n) ->
  n = NaN \/ n = Infinity \/ exists z, n = num z /\ (1 <= z)%Z.
Proof.
  unfold fetchRouteDurationMinutes.
  destruct (fetch _) as [res|]; [|discriminate].
  destruct (Response.ok res); simpl; [|destruct (Response.text res); discriminate].
  destruct (Response.json res) as [body|]; [|discriminate].
  rewrite firstRoute_chain.
  destruct (ToBoolean (firstRoute body)); simpl; [|discriminate].
  destruct (Get "duration" (firstRoute body)) as [w|]; [|discriminate].
  destruct w as [| | |d| | |]; try discriminate.
  intros [= <-].
  destruct (max_round_cases d) as [[_ H] | [[_ H] | H]]; auto.
Qed.

(** X15.  [fetchRouteDurationMinutes] on an answer that is OK and has a
    JSON body, of any shape: the promise is fulfilled, no property is read
    off [undefined] or [null].  The result is [null] or a number: a whole
    number of minutes, 1 at least (or what [Math.max] makes of a duration
    [NaN] or [Infinity]).  For a first route with a duration of [s]
    seconds it is [s / 60] rounded to the nearest integer, and 1 for every
    [s] under 90; with no first route, or one whose duration is not a
    number, it is [null]. *)
Theorem fetchRouteDurationMinutes_minutes fetch from to profile :
  (forall res body,
      fetch (mkUrl profile from to "overview=false") = Some res ->
      Response.ok res = true -> Response.json res = Some body ->
      exists r, fetchRouteDurationMinutes fetch from to profile = Fulfilled r)
  /\ (forall n,
        fetchRouteDurationMinutes fetch from to profile = Fulfilled (Some n) ->
        n = NaN \/ n = Infinity \/ exists z, n = num z /\ (1 <= z)%Z)
  /\ (forall res body fields s,
        fetch (mkUrl profile from to "overview=false") = Some res ->
        Response.ok res = true -> Response.json res = Some body ->
        firstRoute body = Obj fields -> own fields "duration" = Num (Fin s) ->
        exists z,
          fetchRouteDurationMinutes fetch from to profile
          = Fulfilled (Some (num z))
          /\ (s < 90 -> z = 1%Z)%R
          /\ (90 <= s -> IZR z - 1 / 2 <= s / 60 < IZR z + 1 / 2)%R)
  /\ (forall res body,
        fetch (mkUrl profile from to "overview=false") = Some res ->
        Response.ok res = true -> Response.json res = Some body ->
        (forall fields d, firstRoute body = Obj fields ->
                          own fields "duration" <> Num d) ->
        fetchRouteDurationMinutes fetch from to profile = Fulfilled None).
Proof.
  split; [|split; [|split]].
  - unfold fetchRouteDurationMinutes.
    intros res body -> -> ->. simpl. rewrite firstRoute_chain.
    destruct (ToBoolean (firstRoute body)) eqn:T; simpl; [|eauto].
    destruct (ToBoolean_Get "duration" _ T) as [w ->].
    destruct w; eauto.
  - apply fetchRouteDurationMinutes_Some.
  - unfold fetchRouteDurationMinutes.
    intros res body fields s -> -> -> Hr Hd. cbn [negb]. cbv beta iota zeta.
    rewrite firstRoute_chain, Hr. cbn [negb ToBoolean Get]. rewrite Hd.
    destruct (Rlt_dec s 90) as [H|H].
    + exists 1%Z. rewrite (proj1 (round_minutes s) H).
      split; [reflexivity|]. split; [auto | lra].
    + destruct (proj2 (round_minutes s)) as (z & E & Hz & Hb); [lra|].
      exists z. rewrite E. split; [reflexivity|]. split; [lra | auto].
  - unfold fetchRouteDurationMinutes.
    intros res body -> -> -> Hno. simpl. rewrite firstRoute_chain.
    destruct (firstRoute body) as [| |b|n|s|items|fields] eqn:E; simpl;
      try reflexivity.
    + destruct b; reflexivity.
    + destruct n as [| | |r]; try reflexivity.
      destruct (Req_dec_T r 0); reflexivity.
    + destruct s; reflexivity.
    + destruct (own fields "duration") eqn:D; try reflexivity.
      exfalso. eapply Hno; eauto.
Qed.

Lemma fetchRouteDurationMinutes_witness :
  fetchRouteDurationMinutes (answering (oneRoute 200))
                            ORDENER_205 ORDENER_191_MEET driving
  = Fulfilled (Some (num 3)).
Proof.
  destruct (fetchRouteDurationMinutes_minutes (answering (oneRoute 200))
              ORDENER_205 ORDENER_191_MEET driving) as (_ & _ & H & _).
  destruct (H _ (oneRoute 200) _ 200%R eq_refl eq_refl eq_refl eq_refl eq_refl)
    as (z & E & _ & Hz).
  assert (Hb : (IZR z - 1 / 2 <= 200 / 60 < IZR z + 1 / 2)%R) by (apply Hz; lra).
  assert (z = 3%Z).
  { assert (2 < z)%Z by (apply lt_IZR; lra).
    assert (z < 4)%Z by (apply lt_IZR; lra).
    lia. }
  subst z. exact E.
Defined.

(** X16.  [fetchRouteGeometry] on an answer that is OK and has a JSON
    body, of any shape: the promise is fulfilled.  What it is fulfilled
    with is [null] or truthy, never [undefined], and when not [null] it is
    the [geometry] of the first route of an answer that was OK. *)
Theorem fetchRouteGeometry_null_or_truthy fetch from to profile :
  (forall res body,
      fetch (mkUrl profile from to "geometries=geojson&overview=full") = Some res ->
      Response.ok res = true -> Response.json res = Some body ->
      exists g, fetchRouteGeometry fetch from to profile = Fulfilled g)
  /\ (forall g,
        fetchRouteGeometry fetch from to profile = Fulfilled g ->
        g = Null \/ ToBoolean g = true)
  /\ (forall g,
        fetchRouteGeometry fetch from to profile = Fulfilled g -> g <> Null ->
        exists res body,
          fetch (mkUrl profile from to "geometries=geojson&overview=full")
          = Some res
          /\ Response.ok res = true /\ Response.json res = Some body
          /\ optional (Get "geometry") (firstRoute body) = Ok g).
Proof.
  unfold fetchRouteGeometry.
  split; [|split].
  - intros res body -> -> ->. simpl. rewrite geometry_chain.
    destruct (optional_Get_Ok "geometry" (firstRoute body)) as [g ->].
    destruct (ToBoolean g); simpl; eauto.
  - intros g.
    destruct (fetch _) as [res|]; [|discriminate].
    destruct (Response.ok res); simpl.
    + destruct (Response.json res) as [body|]; [|discriminate].
      rewrite geometry_chain.
      destruct (optional_Get_Ok "geometry" (firstRoute body)) as [g' ->].
      destruct (ToBoolean g') eqn:T; simpl; intros [= <-]; auto.
    + destruct (Response.text res); [|discriminate]. intros [= <-]. auto.
  - intros g.
    destruct (fetch _) as [res|] eqn:F; [|discriminate].
    destruct (Response.ok res) eqn:O; simpl.
    + destruct (Response.json res) as [body|] eqn:J; [|discriminate].
      rewrite geometry_chain.
      destruct (optional_Get_Ok "geometry" (firstRoute body)) as [g' E].
      rewrite E.
      destruct (ToBoolean g') eqn:T; simpl; intros [= <-] Hn;
        [|now elim Hn].
      exists res, body. auto.
    + destruct (Response.text res); [|discriminate].
      intros [= <-] Hn. now elim Hn.
Qed.

(** X17.  The pickup time the click handler passes to [onRouteSelect],
    the ref starting at [null]: 3 when the request for the duration
    failed, was rejected or gave [null], and otherwise the minutes the
    request gave, which are 1 at least. *)
Theorem pickup_eta_at_least_one fetch :
  (pickupEtaOnClick (loadPickupEta fetch None) = NaN
   \/ pickupEtaOnClick (loadPickupEta fetch None) = Infinity
   \/ exists z, pickupEtaOnClick (loadPickupEta fetch None) = num z
                /\ (1 <= z)%Z)
  /\ ((forall n, fetchRouteDurationMinutes fetch ORDENER_205 ORDENER_191_MEET
                   driving <> Fulfilled (Some n)) ->
      pickupEtaOnClick (loadPickupEta fetch None) = num 3)
  /\ (forall n, fetchRouteDurationMinutes fetch ORDENER_205 ORDENER_191_MEET
                  driving = Fulfilled (Some n) ->
      pickupEtaOnClick (loadPickupEta fetch None) = n).
Proof.
  unfold loadPickupEta.
  destruct (fetchRouteDurationMinutes fetch ORDENER_205 ORDENER_191_MEET driving)
    as [[n|]|] eqn:E; cbn [pickupEtaOnClick].
  - split; [exact (fetchRouteDurationMinutes_Some _ _ _ _ _ E)|].
    split; [intros H; now elim (H n) | now intros ? [= <-]].
  - split; [right; right; exists 3%Z; split; [reflexivity | lia]|].
    split; [reflexivity | discriminate].
  - split; [right; right; exists 3%Z; split; [reflexivity | lia]|].
    split; [reflexivity | discriminate].
Qed.

(** ** The animation *)

Lemma Array_get_Some {A} (l : list A) (k : Z) :
  (0 <= k < Z.of_nat (List.length l))%Z -> exists x, Array_get l k = Some x.
Proof.
  intros H. unfold Array_get. destruct (Z.ltb_spec k 0); [lia|].
  destruct (nth_error l (Z.to_nat k)) eqn:E; [eauto|].
  apply nth_error_None in E. lia.
Qed.

Lemma Array_get_nat {A} (l : list A) (j : nat) :
  Array_get l (Z.of_nat j) = nth_error l j.
Proof.
  unfold Array_get. destruct (Z.ltb_spec (Z.of_nat j) 0); [lia|].
  now rewrite Nat2Z.id.
Qed.

(** Every handler keeps the invariant, and none throws. *)
Lemma handle_animating route e pg :
  animating route pg -> exists pg', handle e pg = Done pg' /\ animating route pg'.
Proof.
  intros [Hc Hinv]. destruct e as [|id|]; simpl.
  - unfold startPar103Animation. rewrite Hc.
    destruct (Z.eqb_spec (Z.of_nat (List.length route)) 0) as [E|E].
    { exists pg. split; [reflexivity|]. split; assumption. }
    destruct (Array_get_Some route 0) as [first Hf]; [lia|]. rewrite Hf.
    eexists. split; [reflexivity|]. split; [reflexivity|]. right.
    exists (nextInterval pg), 0%Z, first. cbn.
    destruct Hinv as [[-> ->] | (id & k & a & -> & -> & _)].
    + repeat split; auto; lia.
    + cbn. rewrite Nat.eqb_refl. cbn. repeat split; auto; lia.
  - unfold tick.
    destruct Hinv as [[Hi Hr] | (id' & k & a & Hi & Hr & Hlt & Hk & Ha & Hm)].
    + rewrite Hr. simpl. exists pg. split; [reflexivity|]. split; auto.
    + rewrite Hr. cbn [callbackOf].
      destruct (Nat.eqb_spec id' id) as [->|Hne].
      2:{ exists pg. split; [reflexivity|]. split; [assumption|]. right.
          exists id', k, a. auto 10. }
      destruct Hm as [Hm|Hm]; rewrite Hm.
      2:{ exists pg. split; [reflexivity|]. split; [assumption|]. right.
          exists id, k, a. auto 10. }
      cbn [Callback.coords Callback.step setCallback]. rewrite Nat.eqb_refl.
      destruct (Z.geb_spec (k + 1) (Z.of_nat (List.length route))) as [G|G].
      * eexists. split; [reflexivity|]. split; [assumption|]. left. cbn.
        rewrite Hi. cbn. rewrite Nat.eqb_refl. auto.
      * destruct (Array_get_Some route (k + 1)) as [b Hb]; [lia|]. rewrite Hb.
        eexists. split; [reflexivity|]. split; [assumption|]. right.
        exists id, (k + 1)%Z, b. cbn. repeat split; auto; lia.
  - eexists. split; [reflexivity|]. split; [assumption|]. left. cbn.
    destruct Hinv as [[-> ->] | (id & k & a & -> & -> & _)]; cbn; auto.
    now rewrite Nat.eqb_refl.
Qed.

Lemma run_animating route events : forall pg,
  animating route pg -> exists pg', run events pg = Done pg' /\ animating route pg'.
Proof.
  induction events as [|e rest IH]; intros pg H.
  - exists pg. auto.
  - destruct (handle_animating route e pg H) as (pg1 & E & H1).
    simpl. rewrite E. now apply IH.
Qed.

Lemma mounted_animating route next : animating route (mounted route next).
Proof. split; [reflexivity|]. left. auto. Qed.

Lemma run_app ev1 : forall ev2 pg,
  run (ev1 ++ ev2) pg =
  match run ev1 pg with Done pg' => run ev2 pg' | Throws => Throws end.
Proof.
  induction ev1 as [|e ev1 IH]; intros ev2 pg; simpl; [reflexivity|].
  destruct (handle e pg); [apply IH | reflexivity].
Qed.

Lemma click_mounted route next first :
  Array_get route 0 = Some first ->
  run [Click] (mounted route next) = Done (running route first next 0 (S next)).
Proof.
  intros H. simpl. unfold startPar103Animation. cbn [mounted par103CoordsRef].
  destruct (Z.eqb_spec (Z.of_nat (List.length route)) 0) as [E|E].
  { destruct route; [discriminate | simpl in E; lia]. }
  rewrite H. reflexivity.
Qed.

Lemma tick_running route a id k next :
  tick id (running route a id k next)
  = if (k + 1 >=? Z.of_nat (List.length route))%Z
    then Done (stopped route a next)
    else match Array_get route (k + 1) with
         | None => Throws
         | Some b => Done (running route b id (k + 1) next)
         end.
Proof.
  unfold tick, running, stopped. cbn. rewrite Nat.eqb_refl. cbn.
  rewrite Nat.eqb_refl. reflexivity.
Qed.

Lemma fires_running route : forall (n : nat) (k : Z) a id next,
  (0 <= k)%Z -> (k + Z.of_nat n < Z.of_nat (List.length route))%Z ->
  Array_get route k = Some a ->
  exists b,
    Array_get route (k + Z.of_nat n) = Some b /\
    run (fires id n) (running route a id k next)
    = Done (running route b id (k + Z.of_nat n) next).
Proof.
  induction n as [|n IH]; intros k a id next Hk Hn Ha.
  - exists a. rewrite Z.add_0_r. auto.
  - destruct (Array_get_Some route (k + 1)) as [c Hc]; [lia|].
    destruct (IH (k + 1)%Z c id next) as (b & Hb & Hrun); [lia | lia | assumption|].
    replace (k + 1 + Z.of_nat n)%Z with (k + Z.of_nat (S n))%Z in * by lia.
    exists b. split; [assumption|].
    unfold fires. cbn [repeat run handle]. rewrite tick_running.
    destruct (Z.geb_spec (k + 1) (Z.of_nat (List.length route))); [lia|].
    rewrite Hc. exact Hrun.
Qed.

Lemma fires_stopped route a id next : forall n,
  run (fires id n) (stopped route a next) = Done (stopped route a next).
Proof.
  induction n as [|n IH]; [reflexivity|].
  unfold fires. cbn [repeat run handle]. exact IH.
Qed.

(** X18.  Whatever the clicks, the firings and the unmounting, and in
    whatever order: no handler throws, [coords[step]] is never read
    outside [coords], and at most one interval runs, the one
    [moveIntervalRef] holds; its [step] is an index of the route, and the
    marker, while there is one, is at [coords[step]]. *)
Theorem animation_single_interval route next events :
  exists pg,
    run events (mounted route next) = Done pg
    /\ ((moveIntervalRef pg = None /\ intervals pg = [])
        \/ exists id c at_step,
             moveIntervalRef pg = Some id /\ intervals pg = [(id, c)]
             /\ Callback.coords c = route
             /\ (0 <= Callback.step c < Z.of_nat (List.length route))%Z
             /\ Array_get route (Callback.step c) = Some at_step
             /\ (movingMarkerRef pg = Some at_step \/ movingMarkerRef pg = None)).
Proof.
  destruct (run_animating route events _ (mounted_animating route next))
    as (pg & E & _ & H).
  exists pg. split; [assumption|].
  destruct H as [H | (id & k & a & H1 & H2 & _ & H4 & H5 & H6)]; [now left|].
  right. exists id, (Callback.mk route k), a. auto 10.
Qed.

(** X19.  After a click the marker goes through the route in order: once
    the interval has fired [j] times, [j] less than the length of the
    route, the marker is at [coords[j]] and the interval runs; when it has
    fired as many times as the route has coordinates, or more, the
    interval is cleared and the marker rests at the last coordinate.  On
    an empty route a click starts nothing. *)
Theorem animation_visits_route_in_order route next :
  (forall events_after,
     route = [] ->
     run (Click :: events_after) (mounted route next)
     = run events_after (mounted route next))
  /\ (forall j : nat, (j < List.length route)%nat ->
      exists at_j,
        nth_error route j = Some at_j
        /\ run (Click :: fires next j) (mounted route next)
           = Done (running route at_j next (Z.of_nat j) (S next)))
  /\ (forall last more,
        nth_error route (List.length route - 1) = Some last ->
        run (Click :: fires next (List.length route + more)) (mounted route next)
        = Done (stopped route last (S next))).
Proof.
  split; [|split].
  - intros ev ->. reflexivity.
  - intros j Hj.
    destruct (Array_get_Some route 0) as [first Hf]; [lia|].
    destruct (fires_running route j 0 first next (S next)) as (b & Hb & Hrun);
      [lia | lia | assumption|].
    exists b. split.
    + rewrite Z.add_0_l, Array_get_nat in Hb. exact Hb.
    + change (Click :: fires next j) with ([Click] ++ fires next j).
      rewrite run_app, (click_mounted _ _ _ Hf). exact Hrun.
  - intros last more Hlast.
    assert (Hlen : (0 < List.length route)%nat).
    { destruct route; [discriminate | simpl; lia]. }
    destruct (Array_get_Some route 0) as [first Hf]; [lia|].
    destruct (fires_running route (List.length route - 1) 0 first next (S next))
      as (b & Hb & Hrun); [lia | lia | assumption|].
    assert (b = last).
    { rewrite Z.add_0_l, Array_get_nat in Hb. congruence. }
    subst b.
    replace (List.length route + more)%nat
      with ((List.length route - 1) + (1 + more))%nat by lia.
    unfold fires. rewrite repeat_app.
    change (Click :: repeat (Fires next) (List.length route - 1)
                  ++ repeat (Fires next) (1 + more))
      with ([Click] ++ (fires next (List.length route - 1)
                        ++ fires next (1 + more))).
    rewrite run_app, (click_mounted _ _ _ Hf), run_app, Hrun.
    unfold fires. cbn [repeat Nat.add run handle]. rewrite tick_running.
    destruct (Z.geb_spec (0 + Z.of_nat (List.length route - 1) + 1)
                         (Z.of_nat (List.length route))); [|lia].
    apply fires_stopped.
Qed.

(** X25.  Unmounting leaves nothing running: after the cleanup, whatever
    came before it, no interval is left, [moveIntervalRef] and
    [movingMarkerRef] are [null], and an interval cleared since cannot
    change the page. *)
Theorem unmount_clears_interval route next events :
  exists pg,
    run (events ++ [Unmount]) (mounted route next) = Done pg
    /\ intervals pg = [] /\ moveIntervalRef pg = None
    /\ movingMarkerRef pg = None
    /\ forall id, tick id pg = Done pg.
Proof.
  destruct (run_animating route events _ (mounted_animating route next))
    as (pg & E & _ & H).
  exists (cleanup pg). rewrite run_app, E. split; [reflexivity|].
  assert (Hi : intervals (cleanup pg) = []).
  { unfold cleanup. cbn [intervals].
    destruct H as [[-> ->] | (id & k & a & -> & -> & _)]; cbn; [reflexivity|].
    now rewrite Nat.eqb_refl. }
  split; [exact Hi|]. split; [reflexivity|]. split; [reflexivity|].
  intros id. unfold tick. now rewrite Hi.
Qed.

(** * Further properties of the home screen and of the slider *)

(** X20.  The demo selects a best match.  With no accepted offer
    [selectedRoute] stays as it was.  Otherwise the driver selected is an
    accepted offer of the input, and when no accepted offer has the score
    [NaN], none has a smaller score.  Nothing throws. *)
Theorem selectBest_minimal_score offers request currentTime selectedRoute :
  exists after,
    (matches <- findMatches offers request currentTime ;;
     selectBest matches selectedRoute) = Ok after
    /\ ((forall o, In o offers -> accepted request o = false) ->
        after = selectedRoute)
    /\ ((exists o, In o offers /\ accepted request o = true) ->
        exists route best,
          after = Some route
          /\ In best offers /\ accepted request best = true
          /\ driverId route = RideOffer.id best
          /\ ((forall o, In o offers -> accepted request o = true ->
                         scoreOf request o <> NaN) ->
              forall o, In o offers -> accepted request o = true ->
                        JS.le (scoreOf request best) (scoreOf request o) = true)).
Proof.
  rewrite findMatches_sorted_pushed. cbn [bind].
  assert (Hin : forall m, In m (Array_sort byScore (pushed request offers)) <->
                  exists o, In o offers /\ accepted request o = true
                            /\ m = matchOf request o).
  { intros m. rewrite Array_sort_In. apply pushed_In. }
  assert (Hasc : (forall o, In o offers -> accepted request o = true ->
                            scoreOf request o <> NaN) ->
                 ascending (Array_sort byScore (pushed request offers))).
  { intros Hnan. apply sorted_pushed_ascending. intros m Hm.
    apply pushed_In in Hm. destruct Hm as (o & Ho & Ha & ->).
    now apply Hnan. }
  unfold selectBest.
  destruct (Array_sort byScore (pushed request offers)) as [|best rest].
  - exists selectedRoute. split; [reflexivity|]. split; [auto|].
    intros (o & Ho & Ha). exfalso.
    apply (proj2 (Hin (matchOf request o))). eauto.
  - cbn [List.length Array_get].
    replace (Z.of_nat (S (List.length rest)) >? 0)%Z with true
      by (symmetry; apply Z.gtb_lt; lia).
    cbn. eexists. split; [reflexivity|]. split.
    + intros Hno. destruct (proj1 (Hin best)) as (o & Ho & Ha & _); [now left|].
      rewrite Hno in Ha by assumption. discriminate.
    + intros _. destruct (proj1 (Hin best)) as (o & Ho & Ha & ->); [now left|].
      eexists. exists o. split; [reflexivity|].
      split; [assumption|]. split; [assumption|]. split; [reflexivity|].
      intros Hnan o' Ho' Ha'. specialize (Hasc Hnan).
      assert (Hm' : In (matchOf request o') (matchOf request o :: rest))
        by (apply Hin; eauto).
      destruct Hm' as [Heq | Hm'].
      * assert (Es : scoreOf request o = scoreOf request o')
          by (change (score (matchOf request o) = score (matchOf request o'));
              now rewrite Heq).
        rewrite <- Es. pose proof (Hnan o Ho Ha) as Hn.
        apply accepted_Push in Ha.
        destruct (Push_score_NaN_or_Fin _ _ _ Ha) as [N|F]; [contradiction|].
        unfold finiteScore in F. cbn [score matchOf] in F.
        destruct (scoreOf request o); try contradiction.
        apply le_Fin. lra.
      * exact (ascending_head _ _ Hasc _ Hm').
Qed.

Lemma progressTick_counts (k : nat) :
  (k <= 100)%nat ->
  Nat.iter k progressTick routeSelected
  = {| ProgressBar.progress := num (Z.of_nat k); ProgressBar.interval := true |}.
Proof.
  induction k as [|k IH]; intros Hk; [reflexivity|].
  rewrite Nat.iter_succ, IH by lia. unfold progressTick, progressUpdater.
  cbn [ProgressBar.interval ProgressBar.progress]. unfold JS.ge, num.
  rewrite (proj2 (le_Fin_false 100 (IZR (Z.of_nat k)))) by (apply IZR_lt; lia).
  cbn [negb JS.add]. do 2 f_equal. rewrite Nat2Z.inj_succ, succ_IZR. reflexivity.
Qed.

Lemma progressTick_full (k : nat) :
  (100 < k)%nat ->
  Nat.iter k progressTick routeSelected
  = {| ProgressBar.progress := num 100; ProgressBar.interval := false |}.
Proof.
  induction k as [|k IH]; intros Hk; [lia|].
  rewrite Nat.iter_succ. destruct (Nat.eq_dec k 100) as [->|Hne].
  - rewrite progressTick_counts by lia. unfold progressTick, progressUpdater.
    cbn [ProgressBar.interval ProgressBar.progress]. unfold JS.ge, num.
    rewrite (proj2 (le_Fin 100 (IZR (Z.of_nat 100)))) by (simpl; lra).
    reflexivity.
  - rewrite IH by lia. reflexivity.
Qed.

(** X21.  The progress bar counts the firings of its interval up to 100
    and stops: after [k] firings [progress] is [min(k, 100)], never more
    than 100, and the interval runs until the firing after the hundredth
    clears it. *)
Theorem progress_bar_stops_at_100 (k : nat) :
  Nat.iter k progressTick routeSelected
  = {| ProgressBar.progress := num (Z.min (Z.of_nat k) 100);
       ProgressBar.interval := (k <=? 100)%nat |}.
Proof.
  destruct (Nat.leb_spec k 100) as [H|H].
  - rewrite progressTick_counts by assumption. now rewrite Z.min_l by lia.
  - rewrite progressTick_full by assumption. now rewrite Z.min_r by lia.
Qed.

Lemma updateWidth_clamped vw :
  vw <> NaN ->
  exists w, updateWidth vw = Fin w /\ (260 <= w <= 360)%R
            /\ (forall v, vw = Fin v -> (260 <= v * 0.9 <= 360)%R ->
                          w = (v * 0.9)%R).
Proof.
  intros Hn. unfold updateWidth, num.
  destruct vw as [| | |v]; [now elim Hn| | |].
  - cbn [JS.mul]. rewrite sgn_pos by lra. cbn.
    exists 360%R. split; [|split; [lra | discriminate]].
    reflexivity.
  - cbn [JS.mul]. rewrite sgn_pos by lra. cbn.
    exists 260%R. split; [|split; [lra | discriminate]].
    destruct (Rlt_dec 260 360); [reflexivity | lra].
  - cbn [JS.mul Math_max JS.lt].
    destruct (Rlt_dec 260 (v * 0.9)); cbn [Math_min JS.lt].
    + destruct (Rlt_dec (v * 0.9) 360).
      * exists (v * 0.9)%R. split; [reflexivity|]. split; [lra|].
        now intros ? [= <-].
      * exists 360%R. split; [reflexivity|]. split; [lra|]. intros ? [= <-]. lra.
    + destruct (Rlt_dec 260 360); [|lra].
      exists 260%R. split; [reflexivity|]. split; [lra|]. intros ? [= <-]. lra.
Qed.

(** X22.  The slider: for every width of the window that is a number,
    the width [updateWidth] sets is between 260 and 360, nine tenths of
    the window's when that is in between; the drag constraints are then
    [-(w / 2 - 28)] and [w / 2 - 28]; and after a drag the handle rests
    within them, at the left end for the mode driver (an offset under -50
    or a velocity under -500, which win over a move to the right), at the
    right end, 102 at least from the centre, for the mode rider, and at 0
    for the mode center. *)
Theorem slider_rests_within_constraints vw offset velocity :
  vw <> NaN ->
  exists w x mode,
    updateWidth vw = Fin w /\ (260 <= w <= 360)%R
    /\ (forall v, vw = Fin v -> (260 <= v * 0.9 <= 360)%R -> w = (v * 0.9)%R)
    /\ dragConstraints (updateWidth vw)
       = {| DragConstraints.left := Fin (- (w / 2 - 28));
            DragConstraints.right := Fin (w / 2 - 28) |}
    /\ handleDragEnd (updateWidth vw) offset velocity = (Fin x, mode)
    /\ (- (w / 2 - 28) <= x <= w / 2 - 28)%R
    /\ (mode = Mode.driver
        <-> JS.lt offset (num (-50)) || JS.lt velocity (num (-500)) = true)
    /\ (mode = Mode.driver -> x = - (w / 2 - 28) /\ x <= -102)%R
    /\ (mode = Mode.rider -> x = w / 2 - 28 /\ 102 <= x)%R
    /\ (mode = Mode.center -> x = 0)%R.
Proof.
  intros Hn. destruct (updateWidth_clamped vw Hn) as (w & E & Hw & Hv).
  rewrite E.
  assert (Ed : dragConstraints (Fin w)
               = {| DragConstraints.left := Fin (- (w / 2 - 28));
                    DragConstraints.right := Fin (w / 2 - 28) |}).
  { unfold dragConstraints, handleSize, num. rewrite !div_Fin by lra.
    cbn [JS.sub JS.neg JS.add].
    replace (- (w / 2 + - (56 / 2)))%R with (- (w / 2 - 28))%R by lra.
    replace (w / 2 + - (56 / 2))%R with (w / 2 - 28)%R by lra.
    reflexivity. }
  unfold handleDragEnd, snapTo. rewrite Ed.
  cbn [DragConstraints.left DragConstraints.right].
  destruct (JS.lt offset (num (-50)) || JS.lt velocity (num (-500))) eqn:D.
  - exists w, (- (w / 2 - 28))%R, Mode.driver.
    repeat (split; try assumption; try reflexivity; try discriminate; try lra).
  - destruct (JS.gt offset (num 50) || JS.gt velocity (num 500)).
    + exists w, (w / 2 - 28)%R, Mode.rider.
      repeat (split; try assumption; try reflexivity; try discriminate; try lra).
    + exists w, 0%R, Mode.center.
      repeat (split; try assumption; try reflexivity; try discriminate; try lra).
Qed.

Lemma slider_witness :
  exists w x mode,
    updateWidth (num 390) = Fin w /\ (260 <= w <= 360)%R
    /\ (forall v, num 390 = Fin v -> (260 <= v * 0.9 <= 360)%R -> w = (v * 0.9)%R)
    /\ dragConstraints (updateWidth (num 390))
       = {| DragConstraints.left := Fin (- (w / 2 - 28));
            DragConstraints.right := Fin (w / 2 - 28) |}
    /\ handleDragEnd (updateWidth (num 390)) (num (-80)) (num 0) = (Fin x, mode)
    /\ (- (w / 2 - 28) <= x <= w / 2 - 28)%R
    /\ (mode = Mode.driver
        <-> JS.lt (num (-80)) (num (-50)) || JS.lt (num 0) (num (-500)) = true)
    /\ (mode = Mode.driver -> x = - (w / 2 - 28) /\ x <= -102)%R
    /\ (mode = Mode.rider -> x = w / 2 - 28 /\ 102 <= x)%R
    /\ (mode = Mode.center -> x = 0)%R.
Proof.
  apply slider_rests_within_constraints. discriminate.
Defined.
